(** * Web Audio Sampler: pad engine, peak extraction, waveform drawing, trim bars

    A shallow embedding of the sampler's core classes

    - [SamplerEngine]   (Assignment_Solution/js/SamplerEngine.js and its
                         TypeScript port),
    - [WaveformDrawer]  (Assignment_Solution/js/WaveformDrawer.js and
                         frontend/src/lib/WaveformDrawer.ts),
    - [TrimbarsDrawer]  (Assignment_Solution/js/TrimbarsDrawer.js and its
                         TypeScript port),

    together with the properties the specification states about them.

    Numbers.  A JavaScript number that is a time in seconds, a pixel position
    or a sample value is a finite real here, represented by a rational [Q];
    pad indices, buffer lengths and canvas widths are integers [Z].  Where the
    code can produce the IEEE special values (a division by zero in the
    renderer, a read past the end of a typed array), the value is a [jsnum]:
    a finite rational, an infinity or NaN.  Rounding of finite arithmetic is
    not modelled. *)

From Stdlib Require Import ZArith QArith Qminmax Qabs Qround Qfield Ascii String
  Lia Lqa Permutation Sorted.
From stdpp Require Import base list pretty.

(** ** JavaScript arithmetic on finite numbers *)

Module JS.

Definition Qltb (a b : Q) : bool :=
  (Qnum a * QDen b <? Qnum b * QDen a)%Z.

(** [Math.max(a, b)] and [Math.min(a, b)] on finite numbers. *)
Definition Math_max (a b : Q) : Q := if Qltb a b then b else a.
Definition Math_min (a b : Q) : Q := if Qltb b a then b else a.

(** [~~x] on an integer: ToInt32, the value wrapped into
    [-2^31, 2^31). *)
Definition toInt32 (z : Z) : Z :=
  ((z + 2147483648) mod 4294967296 - 2147483648)%Z.

End JS.

(** ** The decoded buffer (Web Audio [AudioBuffer]) *)

Record AudioBuffer := mkAudioBuffer {
  duration : Q;                    (* seconds *)
  length_ : Z;                     (* sample frames per channel *)
  channelData : list (list Q)      (* getChannelData(c), one list per channel *)
}.

Definition numberOfChannels (b : AudioBuffer) : Z :=
  Z.of_nat (length (channelData b)).

(** ** SamplerEngine *)

Module SamplerEngine.
Import JS.

Record Pad := mkPad {
  index : Z;
  buffer : option AudioBuffer;   (* [None] is JavaScript's null *)
  name : string;
  loaded : bool;
  trimStart : Q;
  trimEnd : Q;
  gain : Q
}.

(** Field assignments [pad.f = v]. *)
Definition set_buffer (v : option AudioBuffer) (p : Pad) : Pad :=
  mkPad (index p) v (name p) (loaded p) (trimStart p) (trimEnd p) (gain p).
Definition set_name (v : string) (p : Pad) : Pad :=
  mkPad (index p) (buffer p) v (loaded p) (trimStart p) (trimEnd p) (gain p).
Definition set_loaded (v : bool) (p : Pad) : Pad :=
  mkPad (index p) (buffer p) (name p) v (trimStart p) (trimEnd p) (gain p).
Definition set_trimStart (v : Q) (p : Pad) : Pad :=
  mkPad (index p) (buffer p) (name p) (loaded p) v (trimEnd p) (gain p).
Definition set_trimEnd (v : Q) (p : Pad) : Pad :=
  mkPad (index p) (buffer p) (name p) (loaded p) (trimStart p) v (gain p).

(** The engine state is [this.pads]; [this.ctx] only supplies the decoder
    and the playback sink, which appear as an argument of [loadSound] and
    as the result of [play].  The array holds [maxPads] entries from
    construction on and no method resizes it; the branches below for a
    missing entry at a valid index (a TypeError on [undefined] in the
    source) are therefore dead, and the unguarded ones leave the state
    as it is. *)
Abbreviation Engine := (list Pad).

Definition maxPads : Z := 16.

(** The template string [`Pad ${i + 1}`]. *)
Definition defaultName (i : Z) : string := ("Pad " ++ pretty (i + 1)%Z)%string.

Definition emptyPad (i : Z) : Pad :=
  mkPad i None (defaultName i) false 0 1 1.

(** [initializePads]: pushes pads 0 .. maxPads-1 onto the empty array. *)
Definition initializePads : Engine :=
  map (fun i : nat => emptyPad (Z.of_nat i)) (seq 0 (Z.to_nat maxPads)).

(** The guard [padIndex < 0 || padIndex >= this.maxPads]. *)
Definition invalidIndex (padIndex : Z) : bool :=
  (padIndex <? 0)%Z || (padIndex >=? maxPads)%Z.

(** [this.pads[padIndex]] *)
Definition padAt (e : Engine) (padIndex : Z) : option Pad :=
  e !! Z.to_nat padIndex.

Definition storePad (e : Engine) (padIndex : Z) (p : Pad) : Engine :=
  <[Z.to_nat padIndex := p]> e.

Inductive JsError := InvalidPadIndex | DecodeFailure | TypeError.

(** How a call ends; either way [a] is the state it leaves behind. *)
Inductive completion (A : Type) :=
| Normal (a : A)
| Throw (err : JsError) (a : A).
Arguments Normal {A} a.
Arguments Throw {A} err a.

Definition stateOf {A : Type} (c : completion A) : A :=
  match c with Normal a => a | Throw _ a => a end.

(** [name || `Pad ${padIndex + 1}`]: null and the empty string are falsy. *)
Definition nameOr (name : option string) (dflt : string) : string :=
  match name with
  | Some s => if String.eqb s EmptyString then dflt else s
  | None => dflt
  end.

(** [loadSound(padIndex, audioData, name)].  [decoded] is the settled value
    of [this.ctx.decodeAudioData(audioData)]: [Some buffer], or [None] when
    the decoder rejects.  The assignments after the [await] run without
    interruption. *)
Definition loadSound (e : Engine) (padIndex : Z)
    (decoded : option AudioBuffer) (name : option string)
    : completion Engine :=
  if invalidIndex padIndex then Throw InvalidPadIndex e
  else match decoded with
       | None => Throw DecodeFailure e
       | Some buf =>
         match padAt e padIndex with
         | None => Throw TypeError e
         | Some pad =>
           let pad := set_buffer (Some buf) pad in
           let pad := set_name (nameOr name (defaultName padIndex)) pad in
           let pad := set_loaded true pad in
           let pad := set_trimEnd (duration buf) pad in
           Normal (storePad e padIndex pad)
         end
       end.

(** What [source.start(0, startTime, endTime - startTime)] is asked to
    play, and through which gain. *)
Record Playback := mkPlayback {
  source : AudioBuffer;
  gainValue : Q;
  when : Q;
  offset : Q;
  playDuration : Q
}.

Definition _playBuffer (buf : AudioBuffer) (startTime endTime gain : Q)
    : Playback :=
  let startTime := Math_max 0 (Math_min startTime (duration buf)) in
  let endTime := Math_max startTime (Math_min endTime (duration buf)) in
  mkPlayback buf gain 0 startTime (endTime - startTime).

(** [play(padIndex)]: [None] is the warning-and-return path. *)
Definition play (e : Engine) (padIndex : Z) : option Playback :=
  if invalidIndex padIndex then None
  else match padAt e padIndex with
       | None => None
       | Some pad =>
         match loaded pad, buffer pad with
         | true, Some buf =>
           Some (_playBuffer buf (trimStart pad) (trimEnd pad) (gain pad))
         | _, _ => None
         end
       end.

(** [setTrimPoints] of the TypeScript engine, guarded by
    [!pad.loaded || !pad.buffer]. *)
Definition setTrimPoints (e : Engine) (padIndex : Z) (startTime endTime : Q)
    : Engine :=
  if invalidIndex padIndex then e
  else match padAt e padIndex with
       | None => e
       | Some pad =>
         match loaded pad, buffer pad with
         | true, Some buf =>
           let pad := set_trimStart (Math_max 0 startTime) pad in
           let pad := set_trimEnd (Math_min (duration buf) endTime) pad in
           storePad e padIndex pad
         | _, _ => e
         end
       end.

(** [setTrimPoints] of Assignment_Solution, guarded by [!pad.loaded] only:
    reading [pad.buffer.duration] of a null buffer throws. *)
Definition setTrimPoints_js (e : Engine) (padIndex : Z)
    (startTime endTime : Q) : completion Engine :=
  if invalidIndex padIndex then Normal e
  else match padAt e padIndex with
       | None => Throw TypeError e
       | Some pad =>
         if negb (loaded pad) then Normal e
         else
           let pad1 := set_trimStart (Math_max 0 startTime) pad in
           match buffer pad1 with
           | None => Throw TypeError (storePad e padIndex pad1)
           | Some buf =>
             Normal (storePad e padIndex
                       (set_trimEnd (Math_min (duration buf) endTime) pad1))
           end
       end.

Definition getPad (e : Engine) (padIndex : Z) : option Pad :=
  if invalidIndex padIndex then None else padAt e padIndex.

Definition getAllPads (e : Engine) : list Pad := e.

Definition resetPad (e : Engine) (padIndex : Z) : Engine :=
  if invalidIndex padIndex then e
  else match padAt e padIndex with
       | None => e
       | Some pad =>
         match loaded pad, buffer pad with
         | true, Some buf =>
           let pad := set_trimStart 0 pad in
           let pad := set_trimEnd (duration buf) pad in
           storePad e padIndex pad
         | _, _ => e
         end
       end.

(** [clearAll]: the [forEach] body assigns four fields of every pad. *)
Definition clearPad (pad : Pad) : Pad :=
  let pad := set_buffer None pad in
  let pad := set_loaded false pad in
  let pad := set_trimStart 0 pad in
  set_trimEnd 1 pad.

Definition clearAll (e : Engine) : Engine := map clearPad e.

(** *** Histories of public calls *)

Inductive Call :=
| CallLoadSound (padIndex : Z) (decoded : option AudioBuffer)
                (name : option string)
| CallSetTrimPoints (padIndex : Z) (startTime endTime : Q)
| CallResetPad (padIndex : Z)
| CallPlay (padIndex : Z)
| CallClearAll.

(** The state a call leaves behind ([play] does not write to the pads). *)
Definition after (e : Engine) (c : Call) : Engine :=
  match c with
  | CallLoadSound i decoded name => stateOf (loadSound e i decoded name)
  | CallSetTrimPoints i s t => setTrimPoints e i s t
  | CallResetPad i => resetPad e i
  | CallPlay i => e
  | CallClearAll => clearAll e
  end.

Definition run (calls : list Call) : Engine :=
  fold_left after calls initializePads.

(** The calls that write the trim window of pad [i]. *)
Definition writesWindow (i : Z) (c : Call) : bool :=
  match c with
  | CallLoadSound j _ _ => (j =? i)%Z
  | CallSetTrimPoints j _ _ => (j =? i)%Z
  | CallResetPad j => (j =? i)%Z
  | CallPlay _ => false
  | CallClearAll => false
  end.

(** The decoder's contract: a decoded buffer has a non-negative duration. *)
Definition decoderOk (c : Call) : Prop :=
  match c with
  | CallLoadSound _ (Some buf) _ => (0 <= duration buf)%Q
  | _ => True
  end.

(** States reachable from construction through calls that satisfy [ok]. *)
Inductive reachable (ok : Engine -> Call -> Prop) : Engine -> Prop :=
| reach_init : reachable ok initializePads
| reach_call e c : reachable ok e -> ok e c -> reachable ok (after e c).

(** The three parts of the trim-window invariant of a loaded pad. *)
Definition trimBounded (pad : Pad) : Prop :=
  loaded pad = true ->
  exists buf, buffer pad = Some buf /\
    (0 <= trimStart pad)%Q /\ (trimEnd pad <= duration buf)%Q.

Definition trimOrdered (pad : Pad) : Prop :=
  loaded pad = true -> (trimStart pad <= trimEnd pad)%Q.

Definition trimWindowOk (pad : Pad) : Prop :=
  loaded pad = true ->
  exists buf, buffer pad = Some buf /\
    (0 <= trimStart pad)%Q /\ (trimStart pad <= trimEnd pad)%Q /\
    (trimEnd pad <= duration buf)%Q.

(** What the calls maintain on every pad, loaded or not. *)
Definition padBounded (pad : Pad) : Prop :=
  (0 <= trimStart pad)%Q /\
  (loaded pad = true ->
   exists buf, buffer pad = Some buf /\ (trimEnd pad <= duration buf)%Q).

(** Slot [i] holds the pad created for it, with the gain it was created
    with. *)
Definition slotsKept (e : Engine) : Prop :=
  length e = Z.to_nat maxPads /\
  forall (i : nat) pad, e !! i = Some pad ->
    index pad = Z.of_nat i /\ gain pad = 1%Q.

(** *** Sample data for the scenarios *)

Definition twoSeconds : AudioBuffer :=
  mkAudioBuffer 2 4 [[0.5; -1; 0.25; 0]%Q].
Definition oneSecond : AudioBuffer :=
  mkAudioBuffer 1 2 [[0.5; -1]%Q].

(** The engine after [loadSound(0, bytes, "kick")] decoded to
    [twoSeconds]. *)
Definition loadedOnPad0 : Engine :=
  stateOf (loadSound initializePads 0 (Some twoSeconds) (Some "kick"%string)).

End SamplerEngine.

(** ** JavaScript numbers with the IEEE special values *)

Module Num.
Import JS.

(** The sign of zero is not tracked: every zero is +0, which is what
    [new Float32Array(n)], [Math.abs] and sums of those produce. *)
Inductive jsnum :=
| Fin (q : Q)
| PInf
| NInf
| NaN.

Definition Qzero (q : Q) : bool := (Qnum q =? 0)%Z.
Definition Qpos (q : Q) : bool := (0 <? Qnum q)%Z.

(** [a > b] *)
Definition jgt (a b : jsnum) : bool :=
  match a, b with
  | NaN, _ | _, NaN => false
  | Fin x, Fin y => Qltb y x
  | PInf, PInf => false
  | PInf, _ => true
  | NInf, _ => false
  | Fin _, PInf => false
  | Fin _, NInf => true
  end.

Definition jneg (a : jsnum) : jsnum :=
  match a with
  | Fin x => Fin (- x)
  | PInf => NInf
  | NInf => PInf
  | NaN => NaN
  end.

(** An infinity with the sign of [q], NaN for [q = 0]. *)
Definition infBySign (q : Q) : jsnum :=
  if Qzero q then NaN else if Qpos q then PInf else NInf.

Definition jadd (a b : jsnum) : jsnum :=
  match a, b with
  | NaN, _ | _, NaN => NaN
  | Fin x, Fin y => Fin (x + y)
  | PInf, NInf | NInf, PInf => NaN
  | PInf, _ | _, PInf => PInf
  | NInf, _ | _, NInf => NInf
  end.

Definition jsub (a b : jsnum) : jsnum := jadd a (jneg b).

Definition jmul (a b : jsnum) : jsnum :=
  match a, b with
  | NaN, _ | _, NaN => NaN
  | Fin x, Fin y => Fin (x * y)
  | Fin x, PInf | PInf, Fin x => infBySign x
  | Fin x, NInf | NInf, Fin x => infBySign (- x)
  | PInf, PInf | NInf, NInf => PInf
  | PInf, NInf | NInf, PInf => NaN
  end.

(** [a / b]: a finite non-zero number over zero is an infinity, 0/0 is
    NaN; nothing throws. *)
Definition jdiv (a b : jsnum) : jsnum :=
  match a, b with
  | NaN, _ | _, NaN => NaN
  | Fin x, Fin y => if Qzero y then infBySign x else Fin (x / y)
  | Fin _, PInf | Fin _, NInf => Fin 0
  | PInf, Fin y => if Qzero y then PInf else infBySign y
  | NInf, Fin y => if Qzero y then NInf else infBySign (- y)
  | _, _ => NaN
  end.

(** [Math.abs] *)
Definition jabs (a : jsnum) : jsnum :=
  match a with
  | Fin x => Fin (Qabs x)
  | PInf | NInf => PInf
  | NaN => NaN
  end.

(** [Math.round]: the nearest integer, halves towards +infinity. *)
Definition jround (a : jsnum) : jsnum :=
  match a with
  | Fin x => Fin (inject_Z (Qfloor (x + (1 # 2))))
  | other => other
  end.

(** [arr[j]] on a typed array of finite samples; absent entries read as
    [undefined], which arithmetic turns into NaN. *)
Definition readSample (arr : list Q) (j : Z) : jsnum :=
  if (j <? 0)%Z then NaN
  else match arr !! Z.to_nat j with
       | Some v => Fin v
       | None => NaN
       end.

End Num.

(** ** WaveformDrawer *)

Module WaveformDrawer.
Import JS Num.

(** The fields of [this] that the methods read and write.  The canvas is
    represented by its two dimensions. *)
Record Drawer := mkDrawer {
  decodedAudioBuffer : AudioBuffer;
  peaks : option (list jsnum);     (* [None] is null *)
  canvasWidth : Z;
  canvasHeight : Z;
  displayWidth : Z;
  displayHeight : Z;
  color : string;
  sampleStep : option Z            (* [None] is undefined *)
}.

(** [init(decodedAudioBuffer, canvas, color, sampleStep)] *)
Definition init (d : Drawer) (buf : AudioBuffer) (width height : Z)
    (col : option string) (step : option Z) : Drawer :=
  mkDrawer buf (peaks d) width height width height
           (match col with
            | Some c => if String.eqb c EmptyString then "#667eea"%string else c
            | None => "#667eea"%string
            end)
           step.

(** [max(values)] *)
Definition max (values : list jsnum) : jsnum :=
  fold_left (fun m v => if jgt v m then v else m) values NInf.

(** *** Peak extraction, Assignment_Solution: [_getPeaksChunked] *)

(** [Math.ceil(buffer.length / this.displayWidth)], for a canvas of
    positive width. *)
Definition sampleSizeOf (buf : AudioBuffer) (width : Z) : Z :=
  Qceiling (inject_Z (length_ buf) / inject_Z width).

(** [this.sampleStep || ~~(sampleSize / 10)]: undefined and 0 are falsy. *)
Definition sampleStepOf (step : option Z) (sampleSize : Z) : Z :=
  match step with
  | Some s => if (s =? 0)%Z then toInt32 (sampleSize ÷ 10) else s
  | None => toInt32 (sampleSize ÷ 10)
  end.

Definition chunkSize : Z := 300.

(** The innermost loop
    [for (let j = start; j < end; j += this.sampleStep) { ... }],
    run for at most [fuel] iterations; [None] when they do not suffice. *)
Fixpoint scanBlock (fuel : nat) (chan : list Q) (j end_ step : Z)
    (channelPeak : jsnum) : option jsnum :=
  match fuel with
  | O => None
  | S fuel' =>
    if (j <? end_)%Z then
      let absValue := jabs (readSample chan j) in
      let channelPeak :=
        if jgt absValue channelPeak then absValue else channelPeak in
      scanBlock fuel' chan (j + step) end_ step channelPeak
    else Some channelPeak
  end.

(** [for (let c = 0; c < channels; c++) { ... peak += channelPeak / channels }]
    over the channels [getChannelData(0)], [getChannelData(1)], ... *)
Fixpoint channelLoop (fuel : nat) (chans : list (list Q)) (channels : Z)
    (i sampleSize step : Z) (peak : jsnum) : option jsnum :=
  match chans with
  | [] => Some peak
  | chan :: rest =>
    let start := toInt32 (i * sampleSize) in
    let end_ := (start + sampleSize)%Z in
    match scanBlock fuel chan start end_ step (Fin 0) with
    | None => None
    | Some channelPeak =>
      channelLoop fuel rest channels i sampleSize step
        (jadd peak (jdiv channelPeak (Fin (inject_Z channels))))
    end
  end.

(** [for (let i = currentPixel; i < endPixel; i++) { ... this.peaks[i] = peak }],
    [n] being the number of pixels left in the chunk. *)
Fixpoint pixelLoop (fuel : nat) (buf : AudioBuffer) (sampleSize step : Z)
    (n : nat) (i : Z) (pk : list jsnum) : option (list jsnum) :=
  match n with
  | O => Some pk
  | S n' =>
    match channelLoop fuel (channelData buf) (numberOfChannels buf)
                      i sampleSize step (Fin 0) with
    | None => None
    | Some peak =>
      pixelLoop fuel buf sampleSize step n' (i + 1)
                (<[Z.to_nat i := peak]> pk)
    end
  end.

(** [processChunk], rescheduled through [requestAnimationFrame] while
    pixels remain; [frames] bounds the number of animation frames.  The
    result is [this.peaks] at the moment [callback()] is called. *)
Fixpoint processChunk (frames fuel : nat) (buf : AudioBuffer)
    (width sampleSize step : Z) (currentPixel : Z) (pk : list jsnum)
    : option (list jsnum) :=
  match frames with
  | O => None
  | S frames' =>
    let endPixel := Z.min (currentPixel + chunkSize) width in
    match pixelLoop fuel buf sampleSize step
                    (Z.to_nat (endPixel - currentPixel)) currentPixel pk with
    | None => None
    | Some pk' =>
      if (endPixel <? width)%Z
      then processChunk frames' fuel buf width sampleSize step endPixel pk'
      else Some pk'
    end
  end.

(** [_getPeaksChunked(callback)] on a drawer initialised with [buf],
    [width] and [step]: the envelope handed over when the callback fires,
    [None] when it has not fired within [fuel] frames and [fuel] inner
    iterations per block. *)
Definition _getPeaksChunked (fuel : nat) (buf : AudioBuffer) (width : Z)
    (step : option Z) : option (list jsnum) :=
  let sampleSize := sampleSizeOf buf width in
  let sampleStep := sampleStepOf step sampleSize in
  let pk := replicate (Z.to_nat width) (Fin 0) in
  processChunk fuel fuel buf width sampleSize sampleStep 0 pk.

(** *** Peak extraction, frontend: [getPeaksAsync] *)

(** [for (let j = 0; j < blockSize; j++) sum += Math.abs(rawData[i * blockSize + j])] *)
Fixpoint sumLoop (rawData : list Q) (i blockSize : Z) (n : nat) (j : Z)
    (sum : jsnum) : jsnum :=
  match n with
  | O => sum
  | S n' =>
    sumLoop rawData i blockSize n' (j + 1)
            (jadd sum (jabs (readSample rawData (i * blockSize + j))))
  end.

Fixpoint blockLoop (rawData : list Q) (blockSize : Z) (n : nat) (i : Z)
    (pk : list jsnum) : list jsnum :=
  match n with
  | O => pk
  | S n' =>
    let sum := sumLoop rawData i blockSize (Z.to_nat blockSize) 0 (Fin 0) in
    blockLoop rawData blockSize n' (i + 1)
              (<[Z.to_nat i := jdiv sum (Fin (inject_Z blockSize))]> pk)
  end.

Definition getPeaksAsync (buf : AudioBuffer) (width : Z) : list jsnum :=
  let rawData := nth 0 (channelData buf) [] in
  let samples := width in
  let blockSize :=
    Qfloor (inject_Z (Z.of_nat (length rawData)) / inject_Z samples) in
  let pk := replicate (Z.to_nat samples) (Fin 0) in
  blockLoop rawData blockSize (Z.to_nat samples) 0 pk.

(** *** Rendering: [_drawWaveform] (the same in both files) *)

Inductive CanvasOp :=
| clearRect (x y w h : jsnum)
| save
| translate (x y : jsnum)
| fillStyle (c : string)
| strokeStyle (c : string)
| beginPath
| moveTo (x y : jsnum)
| lineTo (x y : jsnum)
| stroke
| fill
| restore.

(** [this.peaks[i]] *)
Definition peakAt (pk : list jsnum) (i : nat) : jsnum :=
  match pk !! i with Some v => v | None => NaN end.

(** [height / (2 * this.max(this.peaks))] *)
Definition coefOf (pk : list jsnum) (height : Q) : jsnum :=
  jdiv (Fin height) (jmul (Fin 2) (max pk)).

(** [Math.round(this.peaks[i] * coef)] *)
Definition offsetAt (pk : list jsnum) (coef : jsnum) (i : nat) : jsnum :=
  jround (jmul (peakAt pk i) coef).

Definition ofZ (z : Z) : jsnum := Fin (inject_Z z).

Definition _drawWaveform (d : Drawer) (pk : list jsnum) (startY height : Q)
    : list CanvasOp :=
  let width := displayWidth d in
  let coef := coefOf pk height in
  let halfH := Fin (height / 2) in
  let columns := seq 0 (Z.to_nat width) in
  [ clearRect (Fin 0) (Fin 0) (ofZ (canvasWidth d)) (ofZ (canvasHeight d));
    save;
    translate (Fin 0) (Fin startY);
    fillStyle (color d);
    strokeStyle (color d);
    beginPath;
    moveTo (Fin 0) halfH;
    lineTo (ofZ width) halfH;
    stroke;
    beginPath;
    moveTo (Fin 0) halfH ]
  ++ map (fun i => lineTo (ofZ (Z.of_nat i)) (jadd halfH (offsetAt pk coef i)))
         columns
  ++ [ lineTo (ofZ width) halfH;
       moveTo (Fin 0) halfH ]
  ++ map (fun i => lineTo (ofZ (Z.of_nat i)) (jsub halfH (offsetAt pk coef i)))
         columns
  ++ [ lineTo (ofZ width) halfH;
       fill;
       restore ].

(** The offsets of the polyline vertices from the half height, one per
    pixel column. *)
Definition vertexOffsets (d : Drawer) (pk : list jsnum) (height : Q)
    : list jsnum :=
  map (offsetAt pk (coefOf pk height)) (seq 0 (Z.to_nat (displayWidth d))).

(** *** The envelope the specification describes *)

(** The positions [start, start + step, ...] below [start + size]. *)
Fixpoint stridePositions (n : nat) (start step : Z) : list Z :=
  match n with
  | O => []
  | S n' => start :: stridePositions n' (start + step) step
  end.

Definition strideCount (size step : Z) : nat :=
  Z.to_nat ((size + step - 1) / step).

(** The samples of a channel that exist at the given positions. *)
Definition samplesAt (chan : list Q) (positions : list Z) : list Q :=
  omap (fun j => if (j <? 0)%Z then None else chan !! Z.to_nat j) positions.

(** Largest absolute value of a list of samples, 0 for none. *)
Definition maxAbs (samples : list Q) : Q :=
  fold_right (fun v m => Qmax (Qabs v) m) 0%Q samples.

Definition Qsum (l : list Q) : Q := fold_right Qplus 0%Q l.

Definition mean (l : list Q) : Q :=
  (Qsum l / inject_Z (Z.of_nat (length l)))%Q.

(** Block [i]: [blockLen] contiguous samples from [i * blockLen], visited
    with stride [step]. *)
Definition blockPeak (chan : list Q) (i blockLen step : Z) : Q :=
  maxAbs (samplesAt chan
            (stridePositions (strideCount blockLen step) (i * blockLen) step)).

(** Mean over all channels of the per-channel block peak. *)
Definition envelopeEntry (buf : AudioBuffer) (width step i : Z) : Q :=
  let blockLen := ((length_ buf + width - 1) / width)%Z in
  mean (map (fun chan => blockPeak chan i blockLen step) (channelData buf)).

(** The average absolute value of block [i] of [blockSize] contiguous
    samples of one channel. *)
Definition blockAverage (raw : list Q) (blockSize i : Z) : Q :=
  (Qsum (map Qabs (take (Z.to_nat blockSize)
                        (drop (Z.to_nat (i * blockSize)) raw)))
   / inject_Z blockSize)%Q.

(** Entry [k] of an extracted envelope is the value the specification
    describes for it. *)
Definition entryOk (buf : AudioBuffer) (width step : Z) (pk : list jsnum)
    (k : Z) : Prop :=
  exists q, pk !! Z.to_nat k = Some (Fin q)
    /\ (q == envelopeEntry buf width step k)%Q.

(** A zero entry of an envelope, and an envelope of zeros. *)
Definition zeroEntry (v : jsnum) : Prop :=
  exists q, v = Fin q /\ (q == 0)%Q.

Definition silent (pk : list jsnum) : Prop := Forall zeroEntry pk.

(** *** Sample data for the scenarios *)

(** Four frames of silence, stereo. *)
Definition silence : AudioBuffer :=
  mkAudioBuffer (4 # 44100) 4 [[0; 0; 0; 0]%Q; [0; 0; 0; 0]%Q].

(** A single sample, mono. *)
Definition oneSample : AudioBuffer :=
  mkAudioBuffer (1 # 44100) 1 [[0.5]%Q].

(** Two samples, stereo. *)
Definition stereoPair : AudioBuffer :=
  mkAudioBuffer (2 # 44100) 2 [[1; 0]%Q; [1; 1]%Q].

(** Two samples, stereo, with a silent channel 0. *)
Definition quietLeft : AudioBuffer :=
  mkAudioBuffer (2 # 44100) 2 [[0; 0]%Q; [1; 1]%Q].

Definition blankDrawer (width height : Z) : Drawer :=
  mkDrawer oneSample None width height width height "#667eea" None.

End WaveformDrawer.

(** ** TrimbarsDrawer *)

Module TrimbarsDrawer.
Import JS.
Local Open Scope Q_scope.

Record TrimBar := mkTrimBar {
  x : Q;
  color : string;
  selectedColor : string;
  selected : bool;
  dragged : bool
}.

Record MousePos := mkMousePos { mx : Q; my : Q }.

Record Drawer := mkDrawer {
  leftTrimBar : TrimBar;
  rightTrimBar : TrimBar;
  canvasWidth : Q;
  canvasHeight : Q
}.

Definition set_x (v : Q) (b : TrimBar) : TrimBar :=
  mkTrimBar v (color b) (selectedColor b) (selected b) (dragged b).
Definition set_color (v : string) (b : TrimBar) : TrimBar :=
  mkTrimBar (x b) v (selectedColor b) (selected b) (dragged b).
Definition set_selected (v : bool) (b : TrimBar) : TrimBar :=
  mkTrimBar (x b) (color b) (selectedColor b) v (dragged b).
Definition set_dragged (v : bool) (b : TrimBar) : TrimBar :=
  mkTrimBar (x b) (color b) (selectedColor b) (selected b) v.

Definition set_left (b : TrimBar) (d : Drawer) : Drawer :=
  mkDrawer b (rightTrimBar d) (canvasWidth d) (canvasHeight d).
Definition set_right (b : TrimBar) (d : Drawer) : Drawer :=
  mkDrawer (leftTrimBar d) b (canvasWidth d) (canvasHeight d).

Definition newBar (x0 : Q) : TrimBar :=
  mkTrimBar x0 "#00ff00" "#ff6b6b" false false.

(** [constructor(canvas, leftTrimBarX, rightTrimBarX)] *)
Definition create (width height leftTrimBarX rightTrimBarX : Q) : Drawer :=
  mkDrawer (newBar leftTrimBarX) (newBar rightTrimBarX) width height.

(** The radicand of [distance(x1, y1, x2, y2)] in utils.  The utils module
    imported by Assignment_Solution is not among the sources; the one of the
    TypeScript port serves for both. *)
Definition distanceSq (x1 y1 x2 y2 : Q) : Q :=
  let y := x2 - x1 in
  let x := y2 - y1 in
  x * x + y * y.

(** [distance(x1, y1, x2, y2) < r] for a positive radius [r]: the square
    root is increasing, so the test is the one on the squares. *)
Definition distanceBelow (x1 y1 x2 y2 r : Q) : bool :=
  Qltb (distanceSq x1 y1 x2 y2) (r * r).

Definition highlight (b : TrimBar) : TrimBar :=
  set_selected true (set_color (selectedColor b) b).
Definition unhighlight (b : TrimBar) : TrimBar :=
  set_selected false (set_color "#00ff00" b).

(** [startDrag] is the same in both files. *)
Definition startDrag (d : Drawer) : Drawer :=
  let d := if selected (leftTrimBar d)
           then set_left (set_dragged true (leftTrimBar d)) d else d in
  if selected (rightTrimBar d)
  then set_right (set_dragged true (rightTrimBar d)) d else d.

(** *** Assignment_Solution/js/TrimbarsDrawer.js: radius 25, clamping *)
Module Clamp.

Definition highLightTrimBarsWhenClose (d : Drawer) (mousePos : MousePos)
    : Drawer :=
  let d :=
    if distanceBelow (mx mousePos) (my mousePos) (x (leftTrimBar d)) 18 25
       && negb (selected (rightTrimBar d))
    then set_left (highlight (leftTrimBar d)) d
    else set_left (unhighlight (leftTrimBar d)) d in
  if distanceBelow (mx mousePos) (my mousePos) (x (rightTrimBar d)) 18 25
     && negb (selected (leftTrimBar d))
  then set_right (highlight (rightTrimBar d)) d
  else set_right (unhighlight (rightTrimBar d)) d.

Definition stopDrag (d : Drawer) : Drawer :=
  let d :=
    if dragged (leftTrimBar d) then
      let l := set_selected false (set_dragged false (leftTrimBar d)) in
      let l := if Qltb (x (rightTrimBar d)) (x l)
               then set_x (x (rightTrimBar d)) l else l in
      set_left l d
    else d in
  if dragged (rightTrimBar d) then
    let r := set_selected false (set_dragged false (rightTrimBar d)) in
    let r := if Qltb (x r) (x (leftTrimBar d))
             then set_x (x (leftTrimBar d)) r else r in
    set_right r d
  else d.

(** The redraw at the end of [moveTrimBars] paints and does not touch
    the bars. *)
Definition moveTrimBars (d : Drawer) (mousePos : MousePos) : Drawer :=
  let d := highLightTrimBarsWhenClose d mousePos in
  let clampedX := Math_max 0 (Math_min (mx mousePos) (canvasWidth d)) in
  let d :=
    if dragged (leftTrimBar d) && Qltb clampedX (x (rightTrimBar d))
    then set_left (set_x clampedX (leftTrimBar d)) d else d in
  if dragged (rightTrimBar d) && Qltb (x (leftTrimBar d)) clampedX
  then set_right (set_x clampedX (rightTrimBar d)) d else d.

End Clamp.

(** *** The TypeScript port: radius 60, swapping *)
Module Swap.

Definition highLightTrimBarsWhenClose (d : Drawer) (mousePos : MousePos)
    : Drawer :=
  let distanceFromLeft :=
    distanceBelow (x (leftTrimBar d)) 0 (mx mousePos) (my mousePos) 60 in
  let distanceFromRight :=
    distanceBelow (x (rightTrimBar d)) 0 (mx mousePos) (my mousePos) 60 in
  let l := set_selected distanceFromLeft (leftTrimBar d) in
  let r := set_selected distanceFromRight (rightTrimBar d) in
  let l := set_color (if selected l then selectedColor l
                      else "#00ff00"%string) l in
  let r := set_color (if selected r then selectedColor r
                      else "#00ff00"%string) r in
  set_right r (set_left l d).

Definition moveTrimBars (d : Drawer) (mousePos : MousePos) : Drawer :=
  let d := highLightTrimBarsWhenClose d mousePos in
  let d := if dragged (leftTrimBar d)
           then set_left (set_x (mx mousePos) (leftTrimBar d)) d else d in
  let d := if dragged (rightTrimBar d)
           then set_right (set_x (mx mousePos) (rightTrimBar d)) d else d in
  if Qltb (x (rightTrimBar d)) (x (leftTrimBar d))
  then set_right (set_x (x (leftTrimBar d)) (rightTrimBar d))
         (set_left (set_x (x (rightTrimBar d)) (leftTrimBar d)) d)
  else d.

Definition stopDrag (d : Drawer) : Drawer :=
  set_right (set_dragged false (rightTrimBar d))
    (set_left (set_dragged false (leftTrimBar d)) d).

End Swap.

(** *** Pointer sessions *)

Inductive Event :=
| PointerMove (mousePos : MousePos)
| PointerDown
| PointerUp.

Record Policy := mkPolicy {
  onMove : Drawer -> MousePos -> Drawer;
  onDown : Drawer -> Drawer;
  onUp : Drawer -> Drawer
}.

Definition clampPolicy : Policy :=
  mkPolicy Clamp.moveTrimBars startDrag Clamp.stopDrag.
Definition swapPolicy : Policy :=
  mkPolicy Swap.moveTrimBars startDrag Swap.stopDrag.

Definition handle (p : Policy) (d : Drawer) (ev : Event) : Drawer :=
  match ev with
  | PointerMove m => onMove p d m
  | PointerDown => onDown p d
  | PointerUp => onUp p d
  end.

Definition barsOrdered (d : Drawer) : Prop :=
  (x (leftTrimBar d) <= x (rightTrimBar d))%Q.

(** The hit tests of the two files, on their own. *)
Definition nearLeft25 (d : Drawer) (m : MousePos) : bool :=
  distanceBelow (mx m) (my m) (x (leftTrimBar d)) 18 25.
Definition nearRight25 (d : Drawer) (m : MousePos) : bool :=
  distanceBelow (mx m) (my m) (x (rightTrimBar d)) 18 25.
Definition nearLeft60 (d : Drawer) (m : MousePos) : bool :=
  distanceBelow (x (leftTrimBar d)) 0 (mx m) (my m) 60.
Definition nearRight60 (d : Drawer) (m : MousePos) : bool :=
  distanceBelow (x (rightTrimBar d)) 0 (mx m) (my m) 60.

(** *** Sample data for the scenarios *)

(** Bars 10 pixels apart on a 600 x 100 overlay, and a pointer 2 pixels
    right of the right bar at handle height. *)
Definition closeBars : Drawer := create 600 100 100 110.
Definition besideRightBar : MousePos := mkMousePos 112 18.

(** Grab the left bar and pull it past the right one. *)
Definition crossingSession : list Event :=
  [PointerMove (mkMousePos 100 18); PointerDown;
   PointerMove (mkMousePos 300 18)].

End TrimbarsDrawer.

(** ** SamplerEngine: what a call does to the pad it addresses *)

Module EngineCalls.
Import JS SamplerEngine.

(** The pad index a call is given; [clearAll] takes none. *)
Definition padOf (c : Call) : option Z :=
  match c with
  | CallLoadSound i _ _ => Some i
  | CallSetTrimPoints i _ _ => Some i
  | CallResetPad i => Some i
  | CallPlay i => Some i
  | CallClearAll => None
  end.

(** The pad a call leaves in place of the pad it found. *)
Definition padStep (c : Call) (pad : Pad) : Pad :=
  match c with
  | CallLoadSound i (Some buf) nm =>
      mkPad (index pad) (Some buf) (nameOr nm (defaultName i)) true
            (trimStart pad) (duration buf) (gain pad)
  | CallSetTrimPoints i s t =>
      match loaded pad, buffer pad with
      | true, Some buf =>
          mkPad (index pad) (Some buf) (name pad) true
                (Math_max 0 s) (Math_min (duration buf) t) (gain pad)
      | _, _ => pad
      end
  | CallResetPad i =>
      match loaded pad, buffer pad with
      | true, Some buf =>
          mkPad (index pad) (Some buf) (name pad) true 0 (duration buf)
                (gain pad)
      | _, _ => pad
      end
  | _ => pad
  end.

(** Calls that address pairwise different pads. *)
Definition separateCalls (calls : list Call) : Prop :=
  Forall (fun c => padOf c <> None) calls /\ NoDup (map padOf calls).

(** *** Sample data for the scenarios *)

Definition threeLoads : list Call :=
  [CallLoadSound 0 (Some twoSeconds) (Some "kick"%string);
   CallLoadSound 1 None (Some "snare"%string);
   CallLoadSound 2 (Some oneSecond) None].

End EngineCalls.

(** ** utils: pixel and time conversions *)

Module Utils.
Local Open Scope Q_scope.

(** The divisions are by the canvas width and by the buffer duration; the
    statements about them assume these are positive.  The products and
    quotients are exact here, where the code rounds each to a double: the
    statements made of these functions are about order, sign and the
    values at 0 and at [duration / duration], which rounding keeps. *)
Definition pixelToSeconds (x bufferDuration canvasWidth : Q) : Q :=
  (x * bufferDuration) / canvasWidth.

Definition secondsToPixel (seconds bufferDuration canvasWidth : Q) : Q :=
  (seconds / bufferDuration) * canvasWidth.

End Utils.

(** ** SamplerEngine: [loadSoundFromURL] *)

Module UrlLoader.
Import JS SamplerEngine.

(** What [fetch(url)] resolved to: the [ok] flag, the status, the number the
    content-length header denotes ([None] when the header is absent or
    empty), and the chunks the body reader yields, in order. *)
Record Response := mkResponse {
  ok : bool;
  status : Z;
  contentLength : option Z;
  body : list (list Byte.byte)
}.

(** [(receivedLength / contentLength) * 100] *)
Definition progressOf (receivedLength contentLength : Z) : Q :=
  (inject_Z receivedLength / inject_Z contentLength * 100)%Q.

(** The read loop: [receivedLength] after the last chunk, and the values
    handed to [progressCallback] on the way. *)
Fixpoint readBody (contentLength : option Z) (chunks : list (list Byte.byte))
    (receivedLength : Z) : Z * list Q :=
  match chunks with
  | [] => (receivedLength, [])
  | value :: rest =>
    let receivedLength := (receivedLength + Z.of_nat (length value))%Z in
    let '(total, reports) := readBody contentLength rest receivedLength in
    (total,
     match contentLength with
     | Some cl => progressOf receivedLength cl :: reports
     | None => reports
     end)
  end.

(** [for (let chunk of chunks) { chunksAll.set(chunk, position); position += chunk.length }] *)
Fixpoint setChunks (chunks : list (list Byte.byte)) (position : nat)
    (chunksAll : list Byte.byte) : list Byte.byte :=
  match chunks with
  | [] => chunksAll
  | chunk :: rest =>
    setChunks rest (position + length chunk)
              (list_inserts position chunk chunksAll)
  end.

(** [new Uint8Array(receivedLength)] filled from the chunks. *)
Definition combineChunks (chunks : list (list Byte.byte))
    (receivedLength : Z) : list Byte.byte :=
  setChunks chunks 0 (replicate (Z.to_nat receivedLength) Byte.x00).

Definition isSlash (c : Ascii.ascii) : bool := Ascii.eqb c "/"%char.
Definition isDot (c : Ascii.ascii) : bool := Ascii.eqb c "."%char.

(** [url.split("/").pop()]: the text after the last slash; [cur] is the
    segment being read. *)
Fixpoint lastSegmentFrom (s cur : string) : string :=
  match s with
  | EmptyString => cur
  | String c rest =>
    if isSlash c then lastSegmentFrom rest EmptyString
    else lastSegmentFrom rest (cur ++ String c EmptyString)
  end.

Definition lastSegment (url : string) : string :=
  lastSegmentFrom url EmptyString.

(** A non-empty run of characters other than slash and dot, up to the end:
    [[^/.]+$]. *)
Fixpoint plainRun (s : string) : bool :=
  match s with
  | EmptyString => true
  | String c rest => negb (isSlash c) && negb (isDot c) && plainRun rest
  end.

Definition isExtension (s : string) : bool :=
  match s with
  | EmptyString => false
  | String _ _ => plainRun s
  end.

(** [.replace(/\.[^/.]+$/, "")]: the first dot followed by an extension
    that runs to the end is where the text is cut. *)
Fixpoint stripExtension (s : string) : string :=
  match s with
  | EmptyString => EmptyString
  | String c rest =>
    if isDot c && isExtension rest then EmptyString
    else String c (stripExtension rest)
  end.

(** A text without a slash. *)
Fixpoint noSlash (s : string) : bool :=
  match s with
  | EmptyString => true
  | String c rest => negb (isSlash c) && noSlash rest
  end.

(** The sample name of Assignment_Solution, and the one of the TypeScript
    engine with its fallback [|| "sound"]. *)
Definition fileName (url : string) : string :=
  stripExtension (lastSegment url).

Definition fileNameOrSound (url : string) : string :=
  match fileName url with
  | EmptyString => "sound"%string
  | s => s
  end.

Inductive UrlOutcome :=
| UrlLoaded (e : list Pad)
| UrlFetchError (status : Z)
| UrlThrow (err : JsError).

(** How a call ends and what the progress callback received.  On both
    failures the pads are as they were. *)
Record UrlRun := mkUrlRun {
  outcome : UrlOutcome;
  reports : list Q
}.

(** [loadSoundFromURL(padIndex, url, progressCallback)], given the response
    of the fetch, the decoder, and the way the sample name is derived.
    [loadSound] reports 100 once the decoded buffer is on the pad. *)
Definition loadSoundFromURL_with (nameOf : string -> string)
    (decodeAudioData : list Byte.byte -> option AudioBuffer)
    (e : Engine) (padIndex : Z) (url : string) (response : Response)
    : UrlRun :=
  if negb (ok response) then mkUrlRun (UrlFetchError (status response)) []
  else
    let '(receivedLength, reports) :=
      readBody (contentLength response) (body response) 0 in
    let chunksAll := combineChunks (body response) receivedLength in
    match loadSound e padIndex (decodeAudioData chunksAll)
                    (Some (nameOf url)) with
    | Normal e' => mkUrlRun (UrlLoaded e') (reports ++ [100%Q])
    | Throw err _ => mkUrlRun (UrlThrow err) reports
    end.

Definition loadSoundFromURL := loadSoundFromURL_with fileName.
Definition loadSoundFromURL_ts := loadSoundFromURL_with fileNameOrSound.

(** The pads a run leaves behind. *)
Definition padsAfter (e : Engine) (r : UrlRun) : Engine :=
  match outcome r with
  | UrlLoaded e' => e'
  | _ => e
  end.

(** *** Sample data for the scenarios *)

Definition kickUrl : string := "http://localhost:3000/presets/808/Kick 808X.wav".

Definition kickResponse : Response :=
  mkResponse true 200 (Some 4%Z)
             [[Byte.x52; Byte.x49]; []; [Byte.x46; Byte.x46]].

(** A decoder that accepts data starting with the byte 0x52. *)
Definition riffDecoder (data : list Byte.byte) : option AudioBuffer :=
  match data with
  | Byte.x52 :: _ => Some twoSeconds
  | _ => None
  end.

End UrlLoader.

(** ** SamplerApp: the handlers that join the engine and the trim bars *)

Module SamplerApp.
Import JS SamplerEngine.
Local Open Scope Q_scope.

(** [v || dflt] on a number: 0 is falsy. *)
Definition orElse (v dflt : Q) : Q := if Num.Qzero v then dflt else v.

(** [updateTrimBarsFromPad], with the engine, the overlay and the bars
    present; [width] is the waveform canvas width. *)
Definition updateTrimBarsFromPad (e : Engine) (selectedPadIndex : Z)
    (width : Q) (bars : TrimbarsDrawer.Drawer) : TrimbarsDrawer.Drawer :=
  if (selectedPadIndex <? 0)%Z then bars
  else match getPad e selectedPadIndex with
       | None => bars
       | Some pad =>
         match loaded pad, buffer pad with
         | true, Some buf =>
           let duration := duration buf in
           let trimStart :=
             Math_max 0 (Math_min (orElse (trimStart pad) 0) duration) in
           let trimEnd :=
             Math_max trimStart
                      (Math_min (orElse (trimEnd pad) duration) duration) in
           let leftPixel := (trimStart / duration) * width in
           let rightPixel := (trimEnd / duration) * width in
           TrimbarsDrawer.set_right
             (TrimbarsDrawer.set_x rightPixel (TrimbarsDrawer.rightTrimBar bars))
             (TrimbarsDrawer.set_left
                (TrimbarsDrawer.set_x leftPixel (TrimbarsDrawer.leftTrimBar bars))
                bars)
         | _, _ => bars
         end
       end.

(** [updatePadFromTrimBars]: reading [pad.buffer!.duration] of a null
    buffer throws. *)
Definition updatePadFromTrimBars (e : Engine) (selectedPadIndex : Z)
    (width : Q) (bars : TrimbarsDrawer.Drawer) : completion Engine :=
  if (selectedPadIndex <? 0)%Z then Normal e
  else match getPad e selectedPadIndex with
       | None => Normal e
       | Some pad =>
         if negb (loaded pad) then Normal e
         else match buffer pad with
              | None => Throw TypeError e
              | Some buf =>
                let startTime :=
                  Utils.pixelToSeconds
                    (TrimbarsDrawer.x (TrimbarsDrawer.leftTrimBar bars))
                    (duration buf) width in
                let endTime :=
                  Utils.pixelToSeconds
                    (TrimbarsDrawer.x (TrimbarsDrawer.rightTrimBar bars))
                    (duration buf) width in
                Normal (setTrimPoints e selectedPadIndex startTime endTime)
              end
       end.

(** [handleMouseUp]: release the bars, then write them to the pad. *)
Definition handleMouseUp (e : Engine) (selectedPadIndex : Z) (width : Q)
    (bars : TrimbarsDrawer.Drawer)
    : TrimbarsDrawer.Drawer * completion Engine :=
  let bars := TrimbarsDrawer.Swap.stopDrag bars in
  (bars, updatePadFromTrimBars e selectedPadIndex width bars).

(** [handlePlaySelected] *)
Definition handlePlaySelected (e : Engine) (selectedPadIndex : Z)
    : option Playback :=
  if (selectedPadIndex >=? 0)%Z then play e selectedPadIndex else None.

(** [handlePlayFull]: the pad's trim fields are overwritten, the pad is
    played, and the fields are put back. *)
Definition handlePlayFull (e : Engine) (selectedPadIndex : Z)
    : completion (Engine * option Playback) :=
  if (selectedPadIndex >=? 0)%Z then
    match getPad e selectedPadIndex with
    | None => Normal (e, None)
    | Some pad =>
      if loaded pad then
        let originalStart := trimStart pad in
        let originalEnd := trimEnd pad in
        let pad1 := set_trimStart 0 pad in
        match buffer pad1 with
        | None => Throw TypeError (storePad e selectedPadIndex pad1, None)
        | Some buf =>
          let pad2 := set_trimEnd (duration buf) pad1 in
          let e2 := storePad e selectedPadIndex pad2 in
          let played := play e2 selectedPadIndex in
          let pad3 := set_trimEnd originalEnd (set_trimStart originalStart pad2) in
          Normal (storePad e2 selectedPadIndex pad3, played)
        end
      else Normal (e, None)
    end
  else Normal (e, None).

(** [handleResetTrim] *)
Definition handleResetTrim (e : Engine) (selectedPadIndex : Z) (width : Q)
    (bars : TrimbarsDrawer.Drawer) : Engine * TrimbarsDrawer.Drawer :=
  if (selectedPadIndex >=? 0)%Z then
    let e := resetPad e selectedPadIndex in
    (e, updateTrimBarsFromPad e selectedPadIndex width bars)
  else (e, bars).

(** *** [loadPresetSounds]: the batch of loads *)

(** One sound of a preset: its URL, the fetch response, and the name the
    preset gives it ([None] for a preset of plain files). *)
Record Sound := mkSound {
  url : string;
  response : UrlLoader.Response;
  soundName : option string
}.

(** [`Sound ${index + 1}`] *)
Definition soundLabel (index : Z) : string :=
  ("Sound " ++ pretty (index + 1)%Z)%string.

(** [pad.name = soundName] on the pad [getPad(index)] returns. *)
Definition renamePad (e : Engine) (index : Z) (soundName : string) : Engine :=
  match getPad e index with
  | Some pad => storePad e index (set_name soundName pad)
  | None => e
  end.

(** The body of one load promise: the pads it leaves and its
    [success] flag. *)
Definition loadOne (decodeAudioData : list Byte.byte -> option AudioBuffer)
    (e : Engine) (index : Z) (s : Sound) : Engine * bool :=
  let soundName := nameOr (soundName s) (soundLabel index) in
  match UrlLoader.outcome
          (UrlLoader.loadSoundFromURL_ts decodeAudioData e index
                                         (url s) (response s)) with
  | UrlLoader.UrlLoaded e' => (renamePad e' index soundName, true)
  | _ => (e, false)
  end.

(** The promises in index order, from index [index] on. *)
Fixpoint loadFrom (decodeAudioData : list Byte.byte -> option AudioBuffer)
    (e : Engine) (index : Z) (sounds : list Sound) : Engine * list bool :=
  match sounds with
  | [] => (e, [])
  | s :: rest =>
    let '(e1, success) := loadOne decodeAudioData e index s in
    let '(e2, results) := loadFrom decodeAudioData e1 (index + 1) rest in
    (e2, success :: results)
  end.

Inductive BatchOutcome :=
| BatchLoaded (successCount totalSounds : nat)
| BatchError (message : string).

(** [loadPresetSounds] from the point where the sound URLs are known:
    at most 16 are kept, each is loaded onto the pad of its index, and the
    batch fails only when none succeeded. *)
Definition loadPresetSounds
    (decodeAudioData : list Byte.byte -> option AudioBuffer)
    (e : Engine) (sounds : list Sound) : Engine * BatchOutcome :=
  match sounds with
  | [] => (e, BatchError "No sound files found in preset")
  | _ =>
    let sounds := take 16 sounds in
    let totalSounds := length sounds in
    let '(e', results) := loadFrom decodeAudioData e 0 sounds in
    let successCount := length (filter (fun r => r = true) results) in
    (e', if (successCount =? 0)%nat
         then BatchError "Failed to load any sounds"
         else BatchLoaded successCount totalSounds)
  end.

(** What the fetch and the decoder give for a sound: the decoded buffer,
    or nothing when the response is not ok or the decoder rejects. *)
Definition soundLoads (decodeAudioData : list Byte.byte -> option AudioBuffer)
    (s : Sound) : option AudioBuffer :=
  if UrlLoader.ok (response s)
  then decodeAudioData (concat (UrlLoader.body (response s)))
  else None.

Definition loadsOk (decodeAudioData : list Byte.byte -> option AudioBuffer)
    (s : Sound) : bool :=
  match soundLoads decodeAudioData s with Some _ => true | None => false end.

(** The pad a sound that loads leaves at its index, and the pad of a sound
    that does not. *)
Definition padAfterSound
    (decodeAudioData : list Byte.byte -> option AudioBuffer)
    (index : Z) (s : Sound) (pad : Pad) : Pad :=
  match soundLoads decodeAudioData s with
  | Some buf =>
      mkPad (SamplerEngine.index pad) (Some buf)
            (nameOr (soundName s) (soundLabel index)) true
            (trimStart pad) (duration buf) (gain pad)
  | None => pad
  end.

(** *** Sample data for the scenarios *)

Definition goodSound (n : string) : Sound :=
  mkSound "http://host/sounds/a.wav" UrlLoader.kickResponse (Some n).

Definition badSound : Sound :=
  mkSound "http://host/sounds/b.wav"
          (UrlLoader.mkResponse true 200 None [[Byte.x00]]) None.

(** Nine sounds of which the one at index 3 does not decode. *)
Definition nineSounds : list Sound :=
  [goodSound "a"; goodSound "b"; goodSound "c"; badSound; goodSound "e";
   goodSound "f"; goodSound "g"; goodSound "h"; goodSound "i"].

(** Bars at 150 and 450 on a canvas 600 wide. *)
Definition quarterBars : TrimbarsDrawer.Drawer :=
  TrimbarsDrawer.create 600 100 150 450.

End SamplerApp.

(** ** WaveformDrawer: the synchronous [getPeaks] of Assignment_Solution *)

Module LegacyPeaks.
Import JS Num WaveformDrawer.

(** [for (let j = start; j < end; j += this.sampleStep)] with the signed
    comparison [value > peak], [-value > peak]. *)
Fixpoint scanSigned (fuel : nat) (chan : list Q) (j end_ step : Z)
    (peak : jsnum) : option jsnum :=
  match fuel with
  | O => None
  | S fuel' =>
    if (j <? end_)%Z then
      let value := readSample chan j in
      let peak :=
        if jgt value peak then value
        else if jgt (jneg value) peak then jneg value
        else peak in
      scanSigned fuel' chan (j + step) end_ step peak
    else Some peak
  end.

(** [for (let i = 0; i < this.displayWidth; i++)] for channel number [c],
    [n] being the number of columns left. *)
Fixpoint columnLoop (fuel : nat) (chan : list Q) (channels c : Z)
    (sampleSize step : Z) (n : nat) (i : Z) (pk : list jsnum)
    : option (list jsnum) :=
  match n with
  | O => Some pk
  | S n' =>
    let start := toInt32 (i * sampleSize) in
    let end_ := (start + sampleSize)%Z in
    match scanSigned fuel chan start end_ step (Fin 0) with
    | None => None
    | Some peak =>
      let share := jdiv peak (Fin (inject_Z channels)) in
      let entry :=
        if (0 <? c)%Z then jadd (peakAt pk (Z.to_nat i)) share else share in
      columnLoop fuel chan channels c sampleSize step n' (i + 1)
                 (<[Z.to_nat i := entry]> pk)
    end
  end.

(** [for (let c = 0; c < channels; c++)] over the channels from number
    [c] on. *)
Fixpoint channelsLoop (fuel : nat) (chans : list (list Q)) (channels c : Z)
    (width sampleSize step : Z) (pk : list jsnum) : option (list jsnum) :=
  match chans with
  | [] => Some pk
  | chan :: rest =>
    match columnLoop fuel chan channels c sampleSize step
                     (Z.to_nat width) 0 pk with
    | None => None
    | Some pk' =>
      channelsLoop fuel rest channels (c + 1) width sampleSize step pk'
    end
  end.

(** [getPeaks()]: [this.peaks] when it returns, [None] when [fuel] inner
    iterations per block do not suffice.  The shares [peak / channels] and
    their sum are exact here, where the code rounds them and stores
    float32 values; with one channel nothing is rounded. *)
Definition getPeaks (fuel : nat) (buf : AudioBuffer) (width : Z)
    (step : option Z) : option (list jsnum) :=
  let sampleSize := sampleSizeOf buf width in
  let sampleStep := sampleStepOf step sampleSize in
  let pk := replicate (Z.to_nat width) (Fin 0) in
  channelsLoop fuel (channelData buf) (numberOfChannels buf) 0
               width sampleSize sampleStep pk.

(** Entry [k] of the envelope holds the shares [peak / channels] of the
    channels [done]. *)
Definition sharesSoFar (channels sampleSize step : Z)
    (done : list (list Q)) (pk : list jsnum) (k : Z) : Prop :=
  exists q, pk !! Z.to_nat k = Some (Fin q)
    /\ (q == Qsum (map (fun chan => blockPeak chan k sampleSize step) done)
             / inject_Z channels)%Q.

End LegacyPeaks.

(** * Properties *)

(** ** Facts about the arithmetic *)

Section ArithmeticFacts.
Import JS.

Lemma Qltb_lt (a b : Q) : Qltb a b = true <-> (a < b)%Q.
Proof. unfold Qltb, Qlt. apply Z.ltb_lt. Qed.

Lemma Qltb_ge (a b : Q) : Qltb a b = false <-> (b <= a)%Q.
Proof. unfold Qltb, Qle. rewrite Z.ltb_ge. reflexivity. Qed.

Lemma Math_max_Qmax (a b : Q) : Math_max a b = Qmax a b.
Proof.
  unfold Math_max, Qmax, GenericMinMax.gmax, Qltb, Qcompare.
  rewrite Z.ltb_compare. now destruct (_ ?= _)%Z.
Qed.

Lemma Math_min_Qmin (a b : Q) : Math_min a b = Qmin a b.
Proof.
  unfold Math_min, Qmin, GenericMinMax.gmin, Qltb, Qcompare.
  rewrite Z.ltb_compare, (Z.compare_antisym (Qnum a * QDen b)).
  now destruct (_ ?= _)%Z.
Qed.

Lemma Math_max_l (a b : Q) : (a <= Math_max a b)%Q.
Proof. rewrite Math_max_Qmax. apply Q.le_max_l. Qed.

Lemma Math_max_r (a b : Q) : (b <= Math_max a b)%Q.
Proof. rewrite Math_max_Qmax. apply Q.le_max_r. Qed.

Lemma Math_min_l (a b : Q) : (Math_min a b <= a)%Q.
Proof. rewrite Math_min_Qmin. apply Q.le_min_l. Qed.

Lemma Math_min_r (a b : Q) : (Math_min a b <= b)%Q.
Proof. rewrite Math_min_Qmin. apply Q.le_min_r. Qed.

Lemma toInt32_small (z : Z) :
  (-2147483648 <= z < 2147483648)%Z -> toInt32 z = z.
Proof. intros H. unfold toInt32. rewrite Z.mod_small; lia. Qed.

End ArithmeticFacts.

(** ** SamplerEngine *)

Section EngineFacts.
Import JS SamplerEngine.

Lemma lookup_map {A B : Type} (f : A -> B) (l : list A) (i : nat) :
  map f l !! i = f <$> (l !! i).
Proof.
  revert i. induction l as [|a l IH]; intros [|i]; simpl; auto.
Qed.

Lemma invalidIndex_false (i : Z) :
  invalidIndex i = false <-> (0 <= i < 16)%Z.
Proof. unfold invalidIndex, maxPads. lia. Qed.

Lemma padAt_storePad_eq (e : Engine) (i : Z) (pad q : Pad) :
  padAt e i = Some pad -> padAt (storePad e i q) i = Some q.
Proof.
  unfold padAt, storePad. intros H.
  apply list_lookup_insert_eq. eapply lookup_lt_Some, H.
Qed.

Lemma storePad_other (e : Engine) (i : Z) (q : Pad) (j : nat) :
  j <> Z.to_nat i -> storePad e i q !! j = e !! j.
Proof. intros H. unfold storePad. apply list_lookup_insert_ne. congruence. Qed.

Lemma length_storePad (e : Engine) (i : Z) (q : Pad) :
  length (storePad e i q) = length e.
Proof. apply length_insert. Qed.

Lemma getPad_valid (e : Engine) (i : Z) :
  invalidIndex i = false -> getPad e i = padAt e i.
Proof. unfold getPad. now intros ->. Qed.

(** On a pad whose [loaded] flag and buffer agree, the two
    [setTrimPoints] do the same. *)
Lemma setTrimPoints_js_agrees (e : Engine) (i : Z) (s t : Q) :
  (forall pad, padAt e i = Some pad ->
               loaded pad = true -> buffer pad <> None) ->
  (invalidIndex i = false -> padAt e i <> None) ->
  setTrimPoints_js e i s t = Normal (setTrimPoints e i s t).
Proof.
  intros Hc Hlen. unfold setTrimPoints_js, setTrimPoints.
  destruct (invalidIndex i) eqn:Ei; [reflexivity|].
  destruct (padAt e i) as [pad|] eqn:Ep; [|now elim Hlen].
  specialize (Hc pad eq_refl).
  destruct (loaded pad) eqn:El; simpl; [|reflexivity].
  destruct (buffer pad) as [buf|] eqn:Eb; [reflexivity|].
  now elim Hc.
Qed.

(** On a loaded pad [setTrimPoints] stores the pad with the two clamped
    values. *)
Lemma setTrimPoints_loaded (e : Engine) (i : Z) (s t : Q) (pad : Pad)
    (buf : AudioBuffer) :
  invalidIndex i = false -> padAt e i = Some pad ->
  loaded pad = true -> buffer pad = Some buf ->
  setTrimPoints e i s t =
    storePad e i (mkPad (index pad) (Some buf) (name pad) true
                        (Qmax 0 s) (Qmin (duration buf) t) (gain pad)).
Proof.
  intros Hi Hp Hl Hb. unfold setTrimPoints. rewrite Hi, Hp, Hl, Hb.
  unfold set_trimEnd, set_trimStart; simpl.
  now rewrite Hl, Hb, Math_max_Qmax, Math_min_Qmin.
Qed.

End EngineFacts.

Section EngineOperations.
Import JS SamplerEngine.
Local Open Scope Q_scope.

(** C2. For a valid index whose pad is loaded, [setTrimPoints i s e]
    leaves pad [i] with [trimStart = max(0, s)] and
    [trimEnd = min(buffer.duration, e)], its other fields as they were and
    the two values not reordered, and leaves every other pad alone; for an
    invalid index or an unloaded pad it changes nothing.  Both variants of
    the method behave so. *)
Theorem setTrimPoints_exact (e : Engine) (i : Z) (s t : Q) :
  (forall pad buf,
      invalidIndex i = false -> padAt e i = Some pad ->
      loaded pad = true -> buffer pad = Some buf ->
      getPad (setTrimPoints e i s t) i =
        Some (mkPad (index pad) (Some buf) (name pad) true
                    (Qmax 0 s) (Qmin (duration buf) t) (gain pad))
      /\ (forall j, j <> Z.to_nat i -> setTrimPoints e i s t !! j = e !! j)
      /\ length (setTrimPoints e i s t) = length e
      /\ setTrimPoints_js e i s t = Normal (setTrimPoints e i s t))
  /\ (invalidIndex i = true \/
      (exists pad, padAt e i = Some pad /\ loaded pad = false) ->
      setTrimPoints e i s t = e /\ setTrimPoints_js e i s t = Normal e).
Proof.
  split.
  - intros pad buf Hi Hp Hl Hb.
    pose proof (setTrimPoints_loaded e i s t pad buf Hi Hp Hl Hb) as Hset.
    repeat split.
    + rewrite getPad_valid by exact Hi. rewrite Hset.
      eapply padAt_storePad_eq, Hp.
    + intros j Hj. rewrite Hset. now apply storePad_other.
    + rewrite Hset. apply length_storePad.
    + apply setTrimPoints_js_agrees.
      * intros q Hq _. rewrite Hp in Hq. injection Hq as <-. now rewrite Hb.
      * intros _. now rewrite Hp.
  - intros [Hi | (pad & Hp & Hl)].
    + unfold setTrimPoints, setTrimPoints_js. now rewrite Hi.
    + unfold setTrimPoints, setTrimPoints_js. rewrite Hp, Hl. simpl.
      now destruct (invalidIndex i).
Qed.

Lemma setTrimPoints_exact_witness :
  getPad (setTrimPoints loadedOnPad0 0 1.5 0.5) 0 =
    Some (mkPad 0 (Some twoSeconds) "kick" true
                (Qmax 0 1.5) (Qmin 2 0.5) 1)
  /\ setTrimPoints loadedOnPad0 16 1.5 0.5 = loadedOnPad0.
Proof.
  split.
  - apply (proj1 (setTrimPoints_exact loadedOnPad0 0 1.5 0.5)
             (mkPad 0 (Some twoSeconds) "kick" true 0 2 1) twoSeconds);
      reflexivity.
  - apply (proj2 (setTrimPoints_exact loadedOnPad0 16 1.5 0.5)).
    left. reflexivity.
Defined.

(** C3. For a loaded pad, [play i] asks the sink for the pad's buffer
    from [max(0, min(trimStart, duration))], up to
    [max(start, min(trimEnd, duration))], that is for the length
    [end - start], which is never negative; on a pad holding a 2-second
    buffer, after [setTrimPoints i 0.5 1.5] the window starts at 0.5 s and
    lasts exactly 1 s. *)
Theorem play_window (e : Engine) (i : Z) (pad : Pad) (buf : AudioBuffer) :
  invalidIndex i = false -> padAt e i = Some pad ->
  loaded pad = true -> buffer pad = Some buf ->
  (exists pb, play e i = Some pb
     /\ source pb = buf /\ gainValue pb = gain pad /\ when pb = 0
     /\ offset pb = Qmax 0 (Qmin (trimStart pad) (duration buf))
     /\ playDuration pb =
          Qmax (offset pb) (Qmin (trimEnd pad) (duration buf)) - offset pb
     /\ 0 <= playDuration pb)
  /\ (duration buf == 2 ->
      exists pb, play (setTrimPoints e i 0.5 1.5) i = Some pb
        /\ source pb = buf /\ offset pb == 0.5 /\ playDuration pb == 1).
Proof.
  intros Hi Hp Hl Hb. split.
  - exists (_playBuffer buf (trimStart pad) (trimEnd pad) (gain pad)).
    unfold play. rewrite Hi, Hp, Hl, Hb. unfold _playBuffer. simpl.
    rewrite !Math_max_Qmax, !Math_min_Qmin. repeat split.
    apply (proj1 (Qle_minus_iff _ _)), Q.le_max_l.
  - intros Hd.
    assert (Hget : padAt (setTrimPoints e i 0.5 1.5) i =
              Some (mkPad (index pad) (Some buf) (name pad) true
                          (Qmax 0 0.5) (Qmin (duration buf) 1.5) (gain pad))).
    { rewrite (setTrimPoints_loaded e i 0.5 1.5 pad buf Hi Hp Hl Hb).
      eapply padAt_storePad_eq, Hp. }
    eexists. unfold play. rewrite Hi, Hget. simpl. split; [reflexivity|].
    unfold _playBuffer; simpl. rewrite !Math_max_Qmax, !Math_min_Qmin.
    assert (H1 : Qmin (duration buf) 1.5 == 1.5).
    { rewrite Hd. reflexivity. }
    assert (H2 : Qmin (Qmax 0 0.5) (duration buf) == 0.5).
    { rewrite Hd. reflexivity. }
    assert (H3 : Qmin (Qmin (duration buf) 1.5) (duration buf) == 1.5).
    { rewrite H1, Hd. reflexivity. }
    repeat split.
    + rewrite H2. reflexivity.
    + rewrite H3, H2. reflexivity.
Qed.

Lemma play_window_witness :
  exists pb, play (setTrimPoints loadedOnPad0 0 0.5 1.5) 0 = Some pb
    /\ source pb = twoSeconds /\ offset pb == 0.5 /\ playDuration pb == 1.
Proof.
  apply (proj2 (play_window loadedOnPad0 0
                  (mkPad 0 (Some twoSeconds) "kick" true 0 2 1) twoSeconds
                  eq_refl eq_refl eq_refl eq_refl)).
  reflexivity.
Defined.

End EngineOperations.

Section EngineHistories.
Import JS SamplerEngine.
Local Open Scope Q_scope.

(** Every call either leaves the pads alone, replaces one of them by
    something built from it, or clears them all; a per-pad property that
    survives the replacements and the clearing survives the call. *)
Lemma after_Forall (P : Pad -> Prop) (e : Engine) (c : Call) :
  Forall P e ->
  (forall pad, P pad -> P (clearPad pad)) ->
  (forall i pad buf nm, c = CallLoadSound i (Some buf) nm ->
      padAt e i = Some pad -> P pad ->
      P (mkPad (index pad) (Some buf) (nameOr nm (defaultName i)) true
               (trimStart pad) (duration buf) (gain pad))) ->
  (forall i s t pad buf, c = CallSetTrimPoints i s t ->
      padAt e i = Some pad -> loaded pad = true -> buffer pad = Some buf ->
      P pad ->
      P (mkPad (index pad) (Some buf) (name pad) true
               (Math_max 0 s) (Math_min (duration buf) t) (gain pad))) ->
  (forall i pad buf, c = CallResetPad i ->
      padAt e i = Some pad -> loaded pad = true -> buffer pad = Some buf ->
      P pad ->
      P (mkPad (index pad) (Some buf) (name pad) true
               0 (duration buf) (gain pad))) ->
  Forall P (after e c).
Proof.
  intros He Hclear Hload Hset Hreset.
  destruct c as [i dec nm | i s t | i | i | ]; simpl.
  - unfold loadSound. destruct (invalidIndex i); [exact He|].
    destruct dec as [buf|]; [|exact He].
    destruct (padAt e i) as [pad|] eqn:Ep; [|exact He]. simpl.
    apply Forall_insert; [exact He|].
    apply (Hload i pad buf nm eq_refl Ep).
    eapply Forall_lookup_1; [exact He | exact Ep].
  - unfold setTrimPoints. destruct (invalidIndex i); [exact He|].
    destruct (padAt e i) as [pad|] eqn:Ep; [|exact He].
    destruct (loaded pad) eqn:El; [|exact He].
    destruct (buffer pad) as [buf|] eqn:Eb; [|exact He].
    apply Forall_insert; [exact He|].
    unfold set_trimEnd, set_trimStart; simpl. rewrite El, Eb.
    apply (Hset i s t pad buf eq_refl Ep El Eb).
    eapply Forall_lookup_1; [exact He | exact Ep].
  - unfold resetPad. destruct (invalidIndex i); [exact He|].
    destruct (padAt e i) as [pad|] eqn:Ep; [|exact He].
    destruct (loaded pad) eqn:El; [|exact He].
    destruct (buffer pad) as [buf|] eqn:Eb; [|exact He].
    apply Forall_insert; [exact He|].
    unfold set_trimEnd, set_trimStart; simpl. rewrite El, Eb.
    apply (Hreset i pad buf eq_refl Ep El Eb).
    eapply Forall_lookup_1; [exact He | exact Ep].
  - exact He.
  - unfold clearAll. apply Forall_map.
    eapply Forall_impl; [exact He|]. exact Hclear.
Qed.

Lemma initializePads_Forall (P : Pad -> Prop) :
  (forall i, P (emptyPad i)) -> Forall P initializePads.
Proof.
  intros H. unfold initializePads. apply Forall_map, Forall_forall.
  intros i _. apply H.
Qed.

Lemma reachable_bounded (e : Engine) :
  reachable (fun _ _ => True) e -> Forall padBounded e.
Proof.
  induction 1 as [|e c _ IH _].
  - apply initializePads_Forall. intros i. split; simpl; [apply Qle_refl|].
    discriminate.
  - apply after_Forall; [exact IH|..].
    + intros pad _. split; simpl; [apply Qle_refl | discriminate].
    + intros i pad buf nm _ _ [H0 _]. split; simpl; [exact H0|].
      intros _. exists buf. split; [reflexivity | apply Qle_refl].
    + intros i s t pad buf _ _ _ _ _. split; simpl; [apply Math_max_l|].
      intros _. exists buf. split; [reflexivity | apply Math_min_l].
    + intros i pad buf _ _ _ _ _. split; simpl; [apply Qle_refl|].
      intros _. exists buf. split; [reflexivity | apply Qle_refl].
Qed.

Lemma reachable_run (calls : list Call) :
  reachable (fun _ _ => True) (run calls).
Proof.
  unfold run. induction calls as [|c calls IH] using rev_ind; simpl.
  - constructor.
  - rewrite fold_left_app. simpl. now constructor.
Qed.

(** A call that does not write the window of pad [i] leaves that pad as
    it was, or unloaded. *)
Lemma after_keeps_window (e : Engine) (c : Call) (i : Z) (pad : Pad) :
  invalidIndex i = false -> writesWindow i c = false ->
  padAt e i = Some pad ->
  exists q, padAt (after e c) i = Some q /\ (loaded q = true -> q = pad).
Proof.
  intros Hi Hw Hp.
  assert (Hother : forall j q, invalidIndex j = false -> (j =? i)%Z = false ->
            padAt (storePad e j q) i = Some pad).
  { intros j q Hj Hne. unfold padAt. rewrite storePad_other; [exact Hp|].
    apply invalidIndex_false in Hi, Hj. apply Z.eqb_neq in Hne. lia. }
  destruct c as [j dec nm | j s t | j | j | ]; simpl in *.
  - unfold loadSound. destruct (invalidIndex j) eqn:Hj; [simpl; eauto|].
    destruct dec as [buf|]; [|simpl; eauto].
    destruct (padAt e j); simpl; eauto.
  - unfold setTrimPoints. destruct (invalidIndex j) eqn:Hj; [eauto|].
    destruct (padAt e j) as [pj|]; [|eauto].
    destruct (loaded pj); [|eauto]. destruct (buffer pj); eauto.
  - unfold resetPad. destruct (invalidIndex j) eqn:Hj; [eauto|].
    destruct (padAt e j) as [pj|]; [|eauto].
    destruct (loaded pj); [|eauto]. destruct (buffer pj); eauto.
  - eauto.
  - exists (clearPad pad). split; [|discriminate].
    unfold clearAll, padAt. rewrite lookup_map.
    unfold padAt in Hp. now rewrite Hp.
Qed.

Lemma session_keeps_window (rest : list Call) (i : Z) :
  invalidIndex i = false ->
  Forall (fun c => writesWindow i c = false) rest ->
  forall e pad, padAt e i = Some pad ->
    exists q, padAt (fold_left after rest e) i = Some q
      /\ (loaded q = true -> q = pad).
Proof.
  intros Hi. induction 1 as [|c rest Hc _ IH]; intros e pad Hp; simpl.
  - eauto.
  - destruct (after_keeps_window e c i pad Hi Hc Hp) as (q & Hq & Hsame).
    destruct (IH (after e c) q Hq) as (q' & Hq' & Hsame').
    exists q'. split; [exact Hq'|]. intros Hl.
    pose proof (Hsame' Hl) as E. subst q'. apply Hsame. exact Hl.
Qed.

(** C1, as amended. In every state reached from construction through the
    public calls, a loaded pad has a buffer, [0 <= trimStart] and
    [trimEnd <= buffer.duration].  The order of the two is the caller's:
    as long as the last call that wrote the window of a loaded pad is
    [setTrimPoints(i, s, e)], [trimStart <= trimEnd] holds exactly when
    [max(0, s) <= min(buffer.duration, e)]; as long as it is [resetPad(i)],
    exactly when the duration is not negative. *)
Theorem trim_window_reachable :
  (forall e, reachable (fun _ _ => True) e -> Forall trimBounded e)
  /\ (forall e i pad buf rest pad',
        invalidIndex i = false -> padAt e i = Some pad ->
        loaded pad = true -> buffer pad = Some buf ->
        Forall (fun c => writesWindow i c = false) rest ->
        (forall s t,
           padAt (fold_left after rest (setTrimPoints e i s t)) i
             = Some pad' ->
           loaded pad' = true ->
           (trimStart pad' <= trimEnd pad'
            <-> Math_max 0 s <= Math_min (duration buf) t))
        /\ (padAt (fold_left after rest (resetPad e i)) i = Some pad' ->
            loaded pad' = true ->
            (trimStart pad' <= trimEnd pad' <-> 0 <= duration buf))).
Proof.
  split.
  - intros e Hr.
    eapply Forall_impl; [apply reachable_bounded, Hr|].
    intros pad [H0 H] Hl. destruct (H Hl) as (buf & Hb & Ht).
    exists buf. auto.
  - intros e i pad buf rest pad' Hi Hp Hl Hb Hrest. split.
    + intros s t Hp' Hl'.
      rewrite (setTrimPoints_loaded e i s t pad buf Hi Hp Hl Hb) in Hp'.
      set (p1 := mkPad _ _ _ _ _ _ _) in Hp'.
      destruct (session_keeps_window rest i Hi Hrest _ _
                  (padAt_storePad_eq e i pad p1 Hp)) as (q & Hq & Hsame).
      rewrite Hq in Hp'. injection Hp' as ->.
      rewrite (Hsame Hl'). simpl.
      rewrite Math_max_Qmax, Math_min_Qmin. reflexivity.
    + intros Hp' Hl'.
      assert (Er : resetPad e i =
                   storePad e i (mkPad (index pad) (Some buf) (name pad) true
                                       0 (duration buf) (gain pad))).
      { unfold resetPad. rewrite Hi, Hp, Hl, Hb.
        unfold set_trimEnd, set_trimStart; simpl. now rewrite Hl, Hb. }
      rewrite Er in Hp'. set (p1 := mkPad _ _ _ _ _ _ _) in Hp'.
      destruct (session_keeps_window rest i Hi Hrest _ _
                  (padAt_storePad_eq e i pad p1 Hp)) as (q & Hq & Hsame).
      rewrite Hq in Hp'. injection Hp' as ->.
      rewrite (Hsame Hl'). simpl. reflexivity.
Qed.

End EngineHistories.

Section EngineScenarios.
Import JS SamplerEngine.
Local Open Scope Q_scope.

Lemma trim_window_reachable_witness :
  Forall trimBounded
    (run [CallLoadSound 0 (Some twoSeconds) None;
          CallSetTrimPoints 0 1.5 0.5])
  /\ exists pad',
       padAt (fold_left after
                [CallPlay 0; CallLoadSound 1 (Some oneSecond) None]
                (setTrimPoints loadedOnPad0 0 0.5 1.5)) 0 = Some pad'
       /\ loaded pad' = true /\ trimStart pad' <= trimEnd pad'.
Proof.
  split.
  - apply (proj1 trim_window_reachable).
    change (reachable (fun _ _ => True)
              (after (after initializePads
                        (CallLoadSound 0 (Some twoSeconds) None))
                     (CallSetTrimPoints 0 1.5 0.5))).
    apply reach_call; [apply reach_call; [apply reach_init | exact I] | exact I].
  - eexists. split; [vm_compute; reflexivity|]. split; [reflexivity|].
    destruct (proj2 trim_window_reachable loadedOnPad0 0%Z
                (mkPad 0 (Some twoSeconds) "kick" true 0 2 1) twoSeconds
                [CallPlay 0; CallLoadSound 1 (Some oneSecond) None]
                (mkPad 0 (Some twoSeconds) "kick" true 0.5 1.5 1))
      as [Hset _]; try reflexivity.
    + repeat constructor.
    + apply (Hset 0.5 1.5); [vm_compute; reflexivity | reflexivity |].
      vm_compute. discriminate.
Defined.

(** C1 as stated fails: after loading a 2-second buffer on pad 0,
    [setTrimPoints(0, 1.5, 0.5)] leaves the loaded pad with
    [trimStart = 1.5 > 0.5 = trimEnd]. *)
Lemma trim_window_not_invariant :
  List.Forall decoderOk
    [CallLoadSound 0 (Some twoSeconds) None; CallSetTrimPoints 0 1.5 0.5]
  /\ exists pad,
       getPad (run [CallLoadSound 0 (Some twoSeconds) None;
                    CallSetTrimPoints 0 1.5 0.5]) 0 = Some pad
       /\ loaded pad = true
       /\ trimStart pad == 1.5 /\ trimEnd pad == 0.5
       /\ ~ trimWindowOk pad.
Proof.
  split.
  - repeat constructor. vm_compute. discriminate.
  - eexists. split; [vm_compute; reflexivity|].
    repeat split.
    intros H. destruct (H eq_refl) as (buf & _ & _ & Hord & _).
    revert Hord. vm_compute. intros Hord. now apply Hord.
Qed.

Lemma after_slot (e : Engine) (c : Call) :
  length (after e c) = length e
  /\ forall (j : nat) q, after e c !! j = Some q ->
       exists pad, e !! j = Some pad
         /\ index q = index pad /\ gain q = gain pad.
Proof.
  assert (Hid : forall (j : nat) q, e !! j = Some q ->
            exists pad, e !! j = Some pad
              /\ index q = index pad /\ gain q = gain pad) by eauto.
  assert (Hst : forall i pad q, padAt e i = Some pad ->
            index q = index pad -> gain q = gain pad ->
            length (storePad e i q) = length e
            /\ forall (j : nat) q', storePad e i q !! j = Some q' ->
                 exists pad', e !! j = Some pad'
                   /\ index q' = index pad' /\ gain q' = gain pad').
  { intros i pad q Hp Hi Hg. split; [apply length_storePad|].
    intros j q' Hq. destruct (decide (j = Z.to_nat i)) as [->|Hne].
    - change (padAt (storePad e i q) i = Some q') in Hq.
      erewrite padAt_storePad_eq in Hq by exact Hp.
      injection Hq as <-. exists pad. auto.
    - rewrite storePad_other in Hq by exact Hne. eauto. }
  destruct c as [i dec nm | i s t | i | i | ]; simpl.
  - unfold loadSound. destruct (invalidIndex i); [auto|].
    destruct dec as [buf|]; [|auto].
    destruct (padAt e i) as [pad|] eqn:Ep; [|auto]. simpl.
    now apply (Hst i pad).
  - unfold setTrimPoints. destruct (invalidIndex i); [auto|].
    destruct (padAt e i) as [pad|] eqn:Ep; [|auto].
    destruct (loaded pad); [|auto]. destruct (buffer pad); [|auto].
    now apply (Hst i pad).
  - unfold resetPad. destruct (invalidIndex i); [auto|].
    destruct (padAt e i) as [pad|] eqn:Ep; [|auto].
    destruct (loaded pad); [|auto]. destruct (buffer pad); [|auto].
    now apply (Hst i pad).
  - auto.
  - unfold clearAll. split; [apply length_map|].
    intros j q Hq. rewrite lookup_map in Hq.
    destruct (e !! j) as [pad|]; [|discriminate].
    injection Hq as <-. exists pad. auto.
Qed.

Lemma run_slotsKept (calls : list Call) : slotsKept (run calls).
Proof.
  unfold run. induction calls as [|c calls IH] using rev_ind; simpl.
  - split; [reflexivity|]. intros i pad H.
    unfold initializePads in H. rewrite lookup_map in H.
    destruct (seq 0 (Z.to_nat maxPads) !! i) as [k|] eqn:Ek; [|discriminate].
    apply lookup_seq in Ek as [-> _]. injection H as <-. auto.
  - rewrite fold_left_app. simpl.
    destruct IH as [Hlen Hsl].
    destruct (after_slot (fold_left after calls initializePads) c)
      as [Hl Hk].
    split; [congruence|]. intros i q Hq.
    destruct (Hk i q Hq) as (pad & Hp & Hi & Hg).
    destruct (Hsl i pad Hp). split; congruence.
Qed.

(** C9, as amended. After [clearAll()] in any state reached through the
    public calls, each of the 16 pads has its buffer absent,
    [loaded = false], [trimStart = 0], [trimEnd = 1] and gain 1, and keeps
    the name it had before the call. *)
Theorem clearAll_resets_all_but_name (calls : list Call) (i : nat)
    (pad : Pad) :
  run calls !! i = Some pad ->
  clearAll (run calls) !! i =
    Some (mkPad (Z.of_nat i) None (name pad) false 0 1 1)
  /\ length (clearAll (run calls)) = 16%nat.
Proof.
  intros Hp. destruct (run_slotsKept calls) as [Hlen Hsl].
  destruct (Hsl i pad Hp) as [Hi Hg]. split.
  - unfold clearAll. rewrite lookup_map, Hp. simpl.
    unfold clearPad, set_trimEnd, set_trimStart, set_loaded, set_buffer.
    simpl. now rewrite Hi, Hg.
  - unfold clearAll. rewrite length_map. exact Hlen.
Qed.

Lemma clearAll_resets_all_but_name_witness :
  clearAll (run [CallLoadSound 0 (Some twoSeconds) (Some "kick"%string)])
    !! 0%nat
  = Some (mkPad 0 None "kick" false 0 1 1)
  /\ length (clearAll
               (run [CallLoadSound 0 (Some twoSeconds) (Some "kick"%string)]))
     = 16%nat.
Proof.
  apply (clearAll_resets_all_but_name
           [CallLoadSound 0 (Some twoSeconds) (Some "kick"%string)] 0
           (mkPad 0 (Some twoSeconds) "kick" true 0 2 1)).
  reflexivity.
Defined.

(** C9 as stated fails: a pad that was loaded as "kick" is still named
    "kick" after [clearAll()], not "Pad 1". *)
Lemma clearAll_keeps_name :
  exists pad,
    getPad (clearAll
              (run [CallLoadSound 0 (Some twoSeconds) (Some "kick"%string)]))
           0 = Some pad
    /\ name pad = "kick"%string
    /\ name (emptyPad 0) = "Pad 1"%string
    /\ pad <> emptyPad 0.
Proof.
  eexists. split; [vm_compute; reflexivity|].
  repeat split. discriminate.
Qed.

(** C10. A successful [loadSound(i, bytes, name)] replaces pad [i] by the
    pad with the new buffer, the given (or default) name, [loaded = true]
    and [trimEnd = buffer.duration]; index, [trimStart] and gain are the
    old ones, whatever the old [trimStart] was, and all other pads are
    unchanged. *)
Theorem loadSound_frame (e : Engine) (i : Z) (buf : AudioBuffer)
    (nm : option string) (pad : Pad) :
  invalidIndex i = false -> padAt e i = Some pad ->
  exists e',
    loadSound e i (Some buf) nm = Normal e'
    /\ getPad e' i =
         Some (mkPad (index pad) (Some buf) (nameOr nm (defaultName i)) true
                     (trimStart pad) (duration buf) (gain pad))
    /\ (forall j, j <> Z.to_nat i -> e' !! j = e !! j)
    /\ length e' = length e.
Proof.
  intros Hi Hp. eexists. unfold loadSound. rewrite Hi, Hp.
  split; [reflexivity|]. repeat split.
  - rewrite getPad_valid by exact Hi.
    erewrite padAt_storePad_eq by exact Hp. reflexivity.
  - intros j Hj. now apply storePad_other.
  - apply length_storePad.
Qed.

(** Reloading pad 0 with a 1-second buffer while its [trimStart] is 1.5:
    the load keeps 1.5. *)
Lemma loadSound_frame_witness :
  exists e',
    loadSound (setTrimPoints loadedOnPad0 0 1.5 2) 0 (Some oneSecond) None
      = Normal e'
    /\ getPad e' 0 =
         Some (mkPad 0 (Some oneSecond) "Pad 1" true 1.5 1 1)
    /\ (forall j, j <> 0%nat ->
          e' !! j = setTrimPoints loadedOnPad0 0 1.5 2 !! j)
    /\ length e' = 16%nat.
Proof.
  apply (loadSound_frame (setTrimPoints loadedOnPad0 0 1.5 2) 0 oneSecond
           None (mkPad 0 (Some twoSeconds) "kick" true 1.5 2 1));
    reflexivity.
Defined.

End EngineScenarios.

(** ** WaveformDrawer: rendering *)

Section RenderingFacts.
Import JS Num WaveformDrawer.
Local Open Scope Q_scope.

Lemma zeroEntry_num (q : Q) : q == 0 -> Qnum q = 0%Z.
Proof. unfold Qeq. simpl. lia. Qed.

Lemma max_silent_from (pk : list jsnum) (m : jsnum) :
  silent pk -> zeroEntry m ->
  zeroEntry (fold_left (fun m v => if jgt v m then v else m) pk m).
Proof.
  intros Hs. revert m. induction Hs as [|v pk Hv _ IH]; intros m Hm; simpl.
  - exact Hm.
  - apply IH. now destruct (jgt v m).
Qed.

Lemma max_silent (pk : list jsnum) :
  pk <> [] -> silent pk -> zeroEntry (max pk).
Proof.
  intros Hne Hs. destruct Hs as [|v pk Hv Hs]; [now elim Hne|].
  unfold max. simpl. apply max_silent_from; [exact Hs|].
  destruct Hv as (q & -> & Hq). simpl. now exists q.
Qed.

Lemma infBySign_pos (h : Q) : 0 < h -> infBySign h = PInf.
Proof.
  unfold infBySign, Qzero, Qpos, Qlt. simpl. intros H.
  replace (Qnum h =? 0)%Z with false by lia.
  replace (0 <? Qnum h)%Z with true by lia. reflexivity.
Qed.

Lemma offset_silent (pk : list jsnum) (i : nat) :
  silent pk -> (i < length pk)%nat -> offsetAt pk PInf i = NaN.
Proof.
  intros Hs Hi. unfold offsetAt, peakAt.
  destruct (lookup_lt_is_Some_2 pk i Hi) as [v Hv]. rewrite Hv.
  destruct (Forall_lookup_1 _ _ _ _ Hs Hv) as (q & -> & Hq).
  simpl. unfold infBySign, Qzero. now rewrite (zeroEntry_num q Hq).
Qed.

(** C4, what the code does. On a non-empty envelope of zeros and a
    positive height, [_drawWaveform] computes its scale coefficient as
    [height / (2 * 0)], an unguarded division by zero whose value is
    +Infinity; each offset [Math.round(0 * coef)] is then NaN, not 0, and
    every vertex of the two polylines is drawn to [(i, NaN)]. *)
Theorem drawWaveform_silent_unguarded (d : Drawer) (pk : list jsnum)
    (startY height : Q) :
  pk <> [] -> silent pk -> 0 < height ->
  displayWidth d = Z.of_nat (length pk) ->
  zeroEntry (jmul (Fin 2) (max pk))
  /\ coefOf pk height = PInf
  /\ forall i, (i < length pk)%nat ->
       vertexOffsets d pk height !! i = Some NaN
       /\ In (lineTo (ofZ (Z.of_nat i)) NaN)
             (_drawWaveform d pk startY height).
Proof.
  intros Hne Hs Hh Hw.
  destruct (max_silent pk Hne Hs) as (z & Hz & Ez).
  assert (Hcoef : coefOf pk height = PInf).
  { unfold coefOf. rewrite Hz. simpl. unfold Qzero. simpl.
    rewrite (zeroEntry_num z Ez). simpl. now apply infBySign_pos. }
  split.
  { rewrite Hz. simpl. eexists. split; [reflexivity|].
    rewrite Ez. reflexivity. }
  split; [exact Hcoef|].
  intros i Hi.
  assert (Hin : In (lineTo (ofZ (Z.of_nat i)) NaN)
                   (_drawWaveform d pk startY height)).
  { unfold _drawWaveform. rewrite Hcoef, Hw, Nat2Z.id.
    apply in_or_app. right. apply in_or_app. left.
    apply in_map_iff. exists i. split.
    - now rewrite offset_silent.
    - apply in_seq. lia. }
  split; [|exact Hin].
  unfold vertexOffsets. rewrite lookup_map, Hw, Nat2Z.id, Hcoef.
  rewrite lookup_seq_lt by exact Hi. simpl. now rewrite offset_silent.
Qed.

(** The envelope extracted from four frames of stereo silence, drawn 100
    pixels high. *)
Lemma drawWaveform_silent_unguarded_witness :
  exists pk,
    _getPeaksChunked 8 silence 2 (Some 1%Z) = Some pk
    /\ coefOf pk 100 = PInf
    /\ vertexOffsets (blankDrawer 2 100) pk 100 = [NaN; NaN].
Proof.
  eexists. split; [vm_compute; reflexivity|].
  split; [|vm_compute; reflexivity].
  apply (drawWaveform_silent_unguarded (blankDrawer 2 100) _ 0 100).
  - discriminate.
  - repeat constructor; eexists; (split; [reflexivity|]); reflexivity.
  - reflexivity.
  - reflexivity.
Defined.

End RenderingFacts.

(** ** WaveformDrawer: peak extraction *)

Section ExtractionFacts.
Import JS Num WaveformDrawer.

Lemma ceil_div (a w : Z) :
  (0 < w)%Z -> (- (- a / w) = (a + w - 1) / w)%Z.
Proof.
  intros Hw.
  pose proof (Z.div_mod (a + w - 1) w ltac:(lia)) as E.
  pose proof (Z.mod_pos_bound (a + w - 1) w Hw) as B.
  symmetry. apply Z.opp_inj. rewrite Z.opp_involutive.
  apply (Z.div_unique (- a) w _ (w - 1 - (a + w - 1) mod w)); lia.
Qed.

(** [Math.ceil(length / width)] is the integer ceiling of the quotient. *)
Lemma sampleSizeOf_ceil (buf : AudioBuffer) (width : Z) :
  (0 < width)%Z ->
  sampleSizeOf buf width = ((length_ buf + width - 1) / width)%Z.
Proof.
  intros Hw. unfold sampleSizeOf, Qceiling, Qfloor.
  destruct width as [|p|p]; try lia. simpl.
  rewrite Z.mul_1_r. change (Z.pos (1 * p)) with (Z.pos p).
  now apply ceil_div.
Qed.

Lemma sampleSizeOf_pos (buf : AudioBuffer) (width : Z) :
  (0 < width)%Z -> (0 < length_ buf)%Z -> (0 < sampleSizeOf buf width)%Z.
Proof.
  intros Hw Hl. rewrite sampleSizeOf_ceil by exact Hw.
  apply Z.div_str_pos. lia.
Qed.

(** With a stride of 0 the inner loop never leaves a non-empty block. *)
Lemma scanBlock_stuck (fuel : nat) (chan : list Q) (j end_ : Z)
    (channelPeak : jsnum) :
  (j < end_)%Z -> scanBlock fuel chan j end_ 0 channelPeak = None.
Proof.
  intros Hj. revert channelPeak.
  induction fuel as [|fuel IH]; intros channelPeak; simpl; [reflexivity|].
  replace (j <? end_)%Z with true by lia.
  rewrite Z.add_0_r. apply IH.
Qed.

(** C5, what the code does. When no stride is passed to [init] and the
    buffer has between 1 and [9 * width] samples, the derived stride
    [~~(sampleSize / 10)] is 0, the inner loop [j += 0] makes no progress,
    and [_getPeaksChunked] never calls back, whatever the number of steps
    it is given. *)
Theorem getPeaksChunked_short_buffer_stalls (buf : AudioBuffer)
    (width : Z) :
  (0 < width)%Z -> (0 < length_ buf <= 9 * width)%Z ->
  channelData buf <> [] ->
  sampleStepOf None (sampleSizeOf buf width) = 0%Z
  /\ forall fuel, _getPeaksChunked fuel buf width None = None.
Proof.
  intros Hw Hl Hc.
  pose proof (sampleSizeOf_pos buf width Hw ltac:(lia)) as Hpos.
  assert (Hlt : (sampleSizeOf buf width < 10)%Z).
  { rewrite sampleSizeOf_ceil by exact Hw.
    apply Z.div_lt_upper_bound; lia. }
  assert (Hstep : sampleStepOf None (sampleSizeOf buf width) = 0%Z).
  { unfold sampleStepOf. rewrite Z.quot_small by lia. reflexivity. }
  split; [exact Hstep|].
  intros fuel. unfold _getPeaksChunked. rewrite Hstep.
  destruct fuel as [|fuel]; [reflexivity|].
  cbn [processChunk].
  destruct (Z.to_nat (Z.min (0 + chunkSize) width - 0)) as [|n] eqn:En.
  { unfold chunkSize in En. lia. }
  cbn [pixelLoop].
  destruct (channelData buf) as [|chan rest]; [now elim Hc|].
  cbn [channelLoop]. rewrite Z.mul_0_l.
  change (toInt32 0) with 0%Z.
  rewrite scanBlock_stuck by lia. reflexivity.
Qed.

Lemma getPeaksChunked_short_buffer_stalls_witness :
  sampleStepOf None (sampleSizeOf oneSample 1) = 0%Z
  /\ _getPeaksChunked 1000 oneSample 1 None = None.
Proof.
  destruct (getPeaksChunked_short_buffer_stalls oneSample 1) as [Hs Hn].
  - lia.
  - simpl. lia.
  - discriminate.
  - split; [exact Hs | exact (Hn 1000%nat)].
Defined.

End ExtractionFacts.

Section EnvelopeFacts.
Import JS Num WaveformDrawer.
Local Open Scope Q_scope.

Lemma strideCount_step (size step : Z) :
  (0 < step)%Z -> (0 < size)%Z ->
  strideCount size step = S (strideCount (size - step) step).
Proof.
  intros Hs Hz. unfold strideCount.
  replace (size + step - 1)%Z with ((size - step + step - 1) + 1 * step)%Z
    by lia.
  rewrite Z.div_add by lia.
  rewrite <- Z2Nat.inj_succ; [f_equal; lia|].
  apply Z.div_pos; lia.
Qed.

Lemma strideCount_done (size step : Z) :
  (0 < step)%Z -> (size <= 0)%Z -> strideCount size step = 0%nat.
Proof.
  intros Hs Hz. unfold strideCount.
  assert ((size + step - 1) / step < 1)%Z
    by (apply Z.div_lt_upper_bound; lia).
  lia.
Qed.

Lemma maxAbs_nonneg (l : list Q) : 0 <= maxAbs l.
Proof.
  destruct l as [|v l]; simpl; [apply Qle_refl|].
  eapply Qle_trans; [apply Qabs_nonneg | apply Q.le_max_l].
Qed.

(** [maxAbs] is the maximum: it bounds every absolute value, and is one of
    them unless it is 0. *)
Lemma maxAbs_upper (l : list Q) (v : Q) : In v l -> Qabs v <= maxAbs l.
Proof.
  induction l as [|a l IH]; simpl; [tauto|].
  intros [-> | H]; [apply Q.le_max_l|].
  eapply Qle_trans; [apply IH, H | apply Q.le_max_r].
Qed.

Lemma maxAbs_attained (l : list Q) :
  maxAbs l = 0 \/ exists v, In v l /\ maxAbs l = Qabs v.
Proof.
  induction l as [|a l IH]; simpl; [now left|].
  unfold Qmax, GenericMinMax.gmax.
  destruct (Qabs a ?= maxAbs l).
  - right. eauto.
  - destruct IH as [H | (v & Hv & H)]; [now left|]. right. eauto.
  - right. eauto.
Qed.

Lemma readSample_cases (chan : list Q) (j : Z) :
  readSample chan j =
    match (if (j <? 0)%Z then None else chan !! Z.to_nat j) with
    | Some v => Fin v
    | None => NaN
    end.
Proof. unfold readSample. now destruct (j <? 0)%Z. Qed.

Lemma scanBlock_spec (chan : list Q) (end_ step : Z) :
  (0 < step)%Z ->
  forall (fuel : nat) (j : Z) (cp : Q),
    0 <= cp -> (Z.to_nat (end_ - j) < fuel)%nat ->
    exists r,
      scanBlock fuel chan j end_ step (Fin cp) = Some (Fin r)
      /\ r == Qmax cp (maxAbs (samplesAt chan
                (stridePositions (strideCount (end_ - j) step) j step))).
Proof.
  intros Hs. induction fuel as [|fuel IH]; intros j cp Hcp Hf; [lia|].
  simpl. destruct (j <? end_)%Z eqn:Ej.
  - apply Z.ltb_lt in Ej.
    rewrite strideCount_step by lia. simpl.
    replace (end_ - j - step)%Z with (end_ - (j + step))%Z by lia.
    rewrite readSample_cases.
    destruct (if (j <? 0)%Z then None else chan !! Z.to_nat j) as [v|];
      simpl.
    + replace (if Qltb cp (Qabs v) then Fin (Qabs v) else Fin cp)
        with (Fin (Math_max cp (Qabs v)))
        by (unfold Math_max; now destruct (Qltb cp (Qabs v))).
      destruct (IH (j + step)%Z (Math_max cp (Qabs v))) as (r & Hr & Er).
      * eapply Qle_trans; [exact Hcp | apply Math_max_l].
      * lia.
      * exists r. split; [exact Hr|].
        rewrite Er, Math_max_Qmax. symmetry. apply Q.max_assoc.
    + destruct (IH (j + step)%Z cp Hcp) as (r & Hr & Er); [lia|].
      exists r. split; [exact Hr | exact Er].
  - apply Z.ltb_ge in Ej. exists cp. split; [reflexivity|].
    rewrite strideCount_done by lia. simpl.
    symmetry. now apply Q.max_l.
Qed.

Lemma channelLoop_spec (fuel : nat) (channels i sampleSize step : Z) :
  (0 < step)%Z -> (0 < channels)%Z ->
  toInt32 (i * sampleSize) = (i * sampleSize)%Z ->
  (Z.to_nat sampleSize < fuel)%nat ->
  forall (chans : list (list Q)) (p : Q),
    exists r,
      channelLoop fuel chans channels i sampleSize step (Fin p)
        = Some (Fin r)
      /\ r == p + Qsum (map (fun chan => blockPeak chan i sampleSize step)
                            chans) / inject_Z channels.
Proof.
  intros Hs Hc Hw Hf.
  assert (Hnz : ~ inject_Z channels == 0).
  { unfold Qeq. simpl. lia. }
  induction chans as [|chan rest IH]; intros p; simpl.
  - exists p. split; [reflexivity|]. unfold Qsum; simpl. field. exact Hnz.
  - rewrite Hw.
    destruct (scanBlock_spec chan (i * sampleSize + sampleSize) step Hs
                fuel (i * sampleSize)%Z 0) as (r0 & Hr0 & Er0).
    + apply Qle_refl.
    + replace (i * sampleSize + sampleSize - i * sampleSize)%Z
        with sampleSize by lia. exact Hf.
    + rewrite Hr0.
      replace (i * sampleSize + sampleSize - i * sampleSize)%Z
        with sampleSize in Er0 by lia.
      rewrite Q.max_r in Er0 by apply maxAbs_nonneg.
      replace (jdiv (Fin r0) (Fin (inject_Z channels)))
        with (Fin (r0 / inject_Z channels)).
      2:{ unfold jdiv, Qzero. simpl.
          now replace (channels =? 0)%Z with false by lia. }
      simpl.
      destruct (IH (p + r0 / inject_Z channels)) as (r & Hr & Er).
      exists r. split; [exact Hr|].
      rewrite Er, Er0. unfold blockPeak. field. exact Hnz.
Qed.

End EnvelopeFacts.

Section EnvelopeTheorems.
Import JS Num WaveformDrawer.
Local Open Scope Q_scope.

Variable buf : AudioBuffer.
Variables width step : Z.
Variable fuel : nat.

Let blockLen : Z := ((length_ buf + width - 1) / width)%Z.

Hypothesis width_pos : (0 < width)%Z.
Hypothesis length_nonneg : (0 <= length_ buf)%Z.
Hypothesis fits_int32 : (length_ buf + width <= 2147483648)%Z.
Hypothesis step_pos : (0 < step)%Z.
Hypothesis enough_fuel : (Z.to_nat (length_ buf + width) < fuel)%nat.

Lemma blockLen_bounds :
  (0 <= blockLen)%Z /\ (width * blockLen <= length_ buf + width - 1)%Z
  /\ (blockLen <= length_ buf)%Z.
Proof.
  unfold blockLen.
  pose proof (Z.mul_div_le (length_ buf + width - 1) width width_pos).
  assert (0 <= (length_ buf + width - 1) / width)%Z
    by (apply Z.div_pos; lia).
  repeat split; try assumption. nia.
Qed.

Lemma block_start_fits (k : Z) :
  (0 <= k < width)%Z -> toInt32 (k * blockLen) = (k * blockLen)%Z.
Proof.
  intros Hk. destruct blockLen_bounds as (H0 & Hm & _).
  apply toInt32_small. nia.
Qed.

Lemma entry_computed (k : Z) :
  (0 <= k < width)%Z ->
  exists r,
    channelLoop fuel (channelData buf) (numberOfChannels buf)
                k blockLen step (Fin 0) = Some (Fin r)
    /\ r == envelopeEntry buf width step k.
Proof.
  intros Hk. unfold envelopeEntry, mean. fold blockLen.
  rewrite length_map. fold (numberOfChannels buf).
  destruct (channelData buf) as [|chan rest] eqn:Ec.
  - exists 0. split; reflexivity.
  - destruct (channelLoop_spec fuel (numberOfChannels buf) k blockLen step)
      with (chans := chan :: rest) (p := 0) as (r & Hr & Er).
    + exact step_pos.
    + unfold numberOfChannels. rewrite Ec. simpl. lia.
    + now apply block_start_fits.
    + destruct blockLen_bounds as (_ & _ & Hb). lia.
    + exists r. split; [exact Hr|]. rewrite Er. apply Qplus_0_l.
Qed.

Lemma pixelLoop_spec (n : nat) :
  forall (i : Z) (pk : list jsnum),
    (0 <= i)%Z -> (i + Z.of_nat n <= width)%Z ->
    length pk = Z.to_nat width ->
    (forall k, (0 <= k < i)%Z -> entryOk buf width step pk k) ->
    exists pk',
      pixelLoop fuel buf blockLen step n i pk = Some pk'
      /\ length pk' = Z.to_nat width
      /\ forall k, (0 <= k < i + Z.of_nat n)%Z ->
                   entryOk buf width step pk' k.
Proof.
  induction n as [|n IH]; intros i pk Hi Hn Hlen Hdone.
  - exists pk. simpl. repeat split; [exact Hlen|].
    intros k Hk. apply Hdone. lia.
  - simpl. destruct (entry_computed i) as (r & Hr & Er); [lia|].
    rewrite Hr.
    destruct (IH (i + 1)%Z (<[Z.to_nat i := Fin r]> pk)) as (pk' & Hp & Hl & Hk).
    + lia.
    + lia.
    + now rewrite length_insert.
    + intros k Hk. destruct (Z.eq_dec k i) as [->|Hne].
      * exists r. split; [|exact Er].
        apply list_lookup_insert_eq. lia.
      * destruct (Hdone k) as (q & Hq & Eq'); [lia|].
        exists q. split; [|exact Eq'].
        rewrite list_lookup_insert_ne by lia. exact Hq.
    + exists pk'. repeat split; [exact Hp | exact Hl |].
      intros k Hk'. apply Hk. lia.
Qed.

Lemma processChunk_spec (frames : nat) :
  forall (currentPixel : Z) (pk : list jsnum),
    (0 <= currentPixel <= width)%Z ->
    (Z.to_nat (width - currentPixel) < frames)%nat ->
    length pk = Z.to_nat width ->
    (forall k, (0 <= k < currentPixel)%Z -> entryOk buf width step pk k) ->
    exists pk',
      processChunk frames fuel buf width blockLen step currentPixel pk
        = Some pk'
      /\ length pk' = Z.to_nat width
      /\ forall k, (0 <= k < width)%Z -> entryOk buf width step pk' k.
Proof.
  induction frames as [|frames IH]; intros cur pk Hc Hf Hlen Hdone; [lia|].
  simpl. set (endPixel := Z.min (cur + chunkSize) width).
  assert (He : (cur <= endPixel <= width)%Z)
    by (unfold endPixel, chunkSize; lia).
  destruct (pixelLoop_spec (Z.to_nat (endPixel - cur)) cur pk)
    as (pk1 & Hp & Hl & Hk); try assumption; try lia.
  rewrite Hp. destruct (endPixel <? width)%Z eqn:Ew.
  - apply Z.ltb_lt in Ew.
    apply IH; try assumption; try lia.
    + unfold endPixel, chunkSize in *. lia.
    + intros k Hk'. apply Hk. lia.
  - apply Z.ltb_ge in Ew. exists pk1. repeat split; [exact Hl|].
    intros k Hk'. apply Hk. lia.
Qed.

End EnvelopeTheorems.

Section EnvelopeResults.
Import JS Num WaveformDrawer.
Local Open Scope Q_scope.

Lemma blockSize_floor (n width : Z) :
  (0 < width)%Z -> Qfloor (inject_Z n / inject_Z width) = (n / width)%Z.
Proof.
  intros Hw. unfold Qfloor. destruct width as [|p|p]; try lia. simpl.
  rewrite Z.mul_1_r. reflexivity.
Qed.

Lemma sumLoop_spec (rawData : list Q) (i blockSize : Z) (n : nat) :
  forall (j : Z) (sum : Q),
    (0 <= i * blockSize + j)%Z ->
    (Z.to_nat (i * blockSize + j) + n <= length rawData)%nat ->
    exists r,
      sumLoop rawData i blockSize n j (Fin sum) = Fin r
      /\ r == sum + Qsum (map Qabs
                 (take n (drop (Z.to_nat (i * blockSize + j)) rawData))).
Proof.
  induction n as [|n IH]; intros j sum H0 Hlen; simpl.
  - exists sum. split; [reflexivity|]. unfold Qsum. simpl. ring.
  - destruct (lookup_lt_is_Some_2 rawData (Z.to_nat (i * blockSize + j)))
      as [v Hv]; [lia|].
    unfold readSample. replace (i * blockSize + j <? 0)%Z with false by lia.
    rewrite Hv. simpl.
    destruct (IH (j + 1)%Z (sum + Qabs v)) as (r & Hr & Er); [lia | lia |].
    exists r. split; [exact Hr|].
    rewrite Er. rewrite (drop_S _ _ _ Hv). simpl.
    replace (Z.to_nat (i * blockSize + (j + 1)))
      with (S (Z.to_nat (i * blockSize + j))) by lia.
    unfold Qsum. simpl. ring.
Qed.

Lemma blockLoop_spec (rawData : list Q) (blockSize width : Z) (n : nat) :
  (0 < blockSize)%Z ->
  (Z.to_nat (width * blockSize) <= length rawData)%nat ->
  forall (i : Z) (pk : list jsnum),
    (0 <= i)%Z -> (i + Z.of_nat n <= width)%Z ->
    length pk = Z.to_nat width ->
    (forall k, (0 <= k < i)%Z ->
       exists q, pk !! Z.to_nat k = Some (Fin q)
         /\ q == blockAverage rawData blockSize k) ->
    length (blockLoop rawData blockSize n i pk) = Z.to_nat width
    /\ forall k, (0 <= k < i + Z.of_nat n)%Z ->
         exists q, blockLoop rawData blockSize n i pk !! Z.to_nat k
                   = Some (Fin q)
           /\ q == blockAverage rawData blockSize k.
Proof.
  intros Hb Hraw. induction n as [|n IH]; intros i pk Hi Hn Hlen Hdone; simpl.
  - split; [exact Hlen|]. intros k Hk. apply Hdone. lia.
  - destruct (sumLoop_spec rawData i blockSize (Z.to_nat blockSize) 0 0)
      as (r & Hr & Er); [nia | nia |].
    rewrite Hr.
    replace (jdiv (Fin r) (Fin (inject_Z blockSize)))
      with (Fin (r / inject_Z blockSize)).
    2:{ unfold jdiv, Qzero. simpl.
        now replace (blockSize =? 0)%Z with false by lia. }
    destruct (IH (i + 1)%Z (<[Z.to_nat i := Fin (r / inject_Z blockSize)]> pk))
      as [Hl Hall]; [lia | lia | now rewrite length_insert | |].
    + intros k Hk. destruct (Z.eq_dec k i) as [->|Hne].
      * eexists. split; [apply list_lookup_insert_eq; lia|].
        unfold blockAverage. rewrite Er, Z.add_0_r, Qplus_0_l. reflexivity.
      * destruct (Hdone k) as (q & Hq & Eq'); [lia|].
        exists q. split; [|exact Eq'].
        rewrite list_lookup_insert_ne by lia. exact Hq.
    + split; [exact Hl|]. intros k Hk. apply Hall. lia.
Qed.

(** The chunked extractor of Assignment_Solution, run with a positive
    stride and enough steps. *)
Lemma getPeaksChunked_mean_of_peaks (buf : AudioBuffer) (width : Z)
    (step : option Z) (fuel : nat) :
  (0 < width)%Z -> (0 <= length_ buf)%Z ->
  (length_ buf + width <= 2147483648)%Z ->
  (0 < sampleStepOf step (sampleSizeOf buf width))%Z ->
  (Z.to_nat (length_ buf + width) < fuel)%nat ->
  exists pk,
    _getPeaksChunked fuel buf width step = Some pk
    /\ length pk = Z.to_nat width
    /\ forall i, (0 <= i < width)%Z ->
         entryOk buf width (sampleStepOf step (sampleSizeOf buf width)) pk i.
Proof.
  intros Hw Hl Hfit Hstep Hfuel. unfold _getPeaksChunked.
  rewrite (sampleSizeOf_ceil buf width Hw) in *.
  apply (processChunk_spec buf width _ fuel Hw Hl Hfit Hstep Hfuel fuel).
  - lia.
  - lia.
  - apply length_replicate.
  - intros k Hk. lia.
Qed.

(** The extractor of the frontend, on a channel 0 of at least [width]
    samples. *)
Lemma getPeaksAsync_average (buf : AudioBuffer) (width : Z) :
  (0 < width)%Z ->
  (width <= Z.of_nat (length (nth 0 (channelData buf) [])))%Z ->
  length (getPeaksAsync buf width) = Z.to_nat width
  /\ forall i, (0 <= i < width)%Z ->
       exists q, getPeaksAsync buf width !! Z.to_nat i = Some (Fin q)
         /\ q == blockAverage (nth 0 (channelData buf) [])
                  (Z.of_nat (length (nth 0 (channelData buf) [])) / width) i.
Proof.
  intros Hw Hlen. unfold getPeaksAsync.
  rewrite (blockSize_floor _ width Hw).
  set (raw := nth 0 (channelData buf) []) in *.
  set (blockSize := (Z.of_nat (length raw) / width)%Z).
  assert (Hb : (0 < blockSize)%Z) by (apply Z.div_str_pos; lia).
  assert (Hm : (width * blockSize <= Z.of_nat (length raw))%Z)
    by (apply Z.mul_div_le; lia).
  destruct (blockLoop_spec raw blockSize width (Z.to_nat width) Hb)
    with (i := 0%Z) (pk := replicate (Z.to_nat width) (Fin 0))
    as [Hl Hall].
  - lia.
  - lia.
  - lia.
  - apply length_replicate.
  - intros k Hk. lia.
  - split; [exact Hl|]. intros i Hi. apply Hall. lia.
Qed.

Lemma Qsum_zeros (l : list Q) :
  Forall (fun v => v == 0) l -> Qsum (map Qabs l) == 0.
Proof.
  induction 1 as [|v l Hv _ IH]; unfold Qsum in *; simpl; [reflexivity|].
  rewrite IH, Hv. reflexivity.
Qed.

(** C6, what the code does. The extractor of the frontend reads channel 0
    only: two buffers with the same channel 0 give the same envelope, and
    when channel 0 is silent (and has at least [width] samples) every one of
    the [width] entries is 0, whatever the other channels hold. *)
Theorem getPeaksAsync_reads_channel0 (buf : AudioBuffer) (width : Z) :
  (0 < width)%Z ->
  (width <= Z.of_nat (length (nth 0 (channelData buf) [])))%Z ->
  Forall (fun v => v == 0) (nth 0 (channelData buf) []) ->
  silent (getPeaksAsync buf width)
  /\ length (getPeaksAsync buf width) = Z.to_nat width
  /\ forall buf',
       nth 0 (channelData buf') [] = nth 0 (channelData buf) [] ->
       getPeaksAsync buf' width = getPeaksAsync buf width.
Proof.
  intros Hw Hlen Hzero.
  destruct (getPeaksAsync_average buf width Hw Hlen) as [Hl Hall].
  split; [|split; [exact Hl|]].
  - apply Forall_lookup. intros i v Hv.
    assert (Hi : (i < Z.to_nat width)%nat)
      by (rewrite <- Hl; eapply lookup_lt_Some, Hv).
    destruct (Hall (Z.of_nat i)) as (q & Hq & Eq); [lia|].
    rewrite Nat2Z.id, Hv in Hq. injection Hq as ->.
    exists q. split; [reflexivity|].
    rewrite Eq. unfold blockAverage.
    rewrite Qsum_zeros; [reflexivity|].
    apply Forall_take, Forall_drop, Hzero.
  - intros buf' E. unfold getPeaksAsync. rewrite E. reflexivity.
Qed.

Lemma getPeaksAsync_reads_channel0_witness :
  silent (getPeaksAsync quietLeft 1)
  /\ envelopeEntry quietLeft 1 1 0 == 1 # 2.
Proof.
  split.
  - apply (getPeaksAsync_reads_channel0 quietLeft 1).
    + reflexivity.
    + simpl. lia.
    + repeat constructor.
  - vm_compute. reflexivity.
Defined.

(** On a stereo buffer with channels [1, 0] and [1, 1] and width 1 the
    frontend extractor stores 1/2, the average absolute value of
    channel 0, where the mean over both channels of the block maxima
    is 1. *)
Lemma getPeaksAsync_is_channel0_average :
  exists q,
    getPeaksAsync stereoPair 1 = [Fin q]
    /\ q == 1 # 2
    /\ envelopeEntry stereoPair 1 1 0 == 1
    /\ envelopeEntry stereoPair 1 2 0 == 1
    /\ ~ q == envelopeEntry stereoPair 1 1 0.
Proof.
  eexists. split; [vm_compute; reflexivity|].
  repeat split; vm_compute; discriminate.
Qed.

End EnvelopeResults.

(** ** TrimbarsDrawer *)

Section TrimbarFacts.
Import JS TrimbarsDrawer.
Local Open Scope Q_scope.

Ltac split_ifs :=
  repeat match goal with
         | |- context [if ?b then _ else _] => destruct b eqn:?; simpl
         end.

Ltac use_tests :=
  repeat match goal with
         | H : (_ && _)%bool = true |- _ =>
             apply andb_true_iff in H; destruct H
         | H : Qltb _ _ = true |- _ => apply Qltb_lt in H
         | H : Qltb _ _ = false |- _ => apply Qltb_ge in H
         end.

Lemma clamp_highlight_keeps (d : Drawer) (m : MousePos) :
  let d' := Clamp.highLightTrimBarsWhenClose d m in
  x (leftTrimBar d') = x (leftTrimBar d)
  /\ x (rightTrimBar d') = x (rightTrimBar d)
  /\ dragged (leftTrimBar d') = dragged (leftTrimBar d)
  /\ dragged (rightTrimBar d') = dragged (rightTrimBar d)
  /\ canvasWidth d' = canvasWidth d.
Proof.
  unfold Clamp.highLightTrimBarsWhenClose. simpl.
  split_ifs; repeat split.
Qed.

Lemma startDrag_ordered (d : Drawer) :
  barsOrdered d -> barsOrdered (startDrag d).
Proof. unfold barsOrdered, startDrag. split_ifs; auto. Qed.

Lemma clamp_move_ordered (d : Drawer) (m : MousePos) :
  barsOrdered d -> barsOrdered (Clamp.moveTrimBars d m).
Proof.
  unfold barsOrdered, Clamp.moveTrimBars.
  destruct (clamp_highlight_keeps d m) as (Hl & Hr & _).
  simpl in Hl, Hr.
  set (d1 := Clamp.highLightTrimBarsWhenClose d m) in *.
  intros H. rewrite <- Hl, <- Hr in H. clearbody d1. clear Hl Hr.
  split_ifs; use_tests; simpl in *; use_tests;
    auto using Qlt_le_weak.
Qed.

Lemma clamp_stop_ordered (d : Drawer) :
  barsOrdered d -> barsOrdered (Clamp.stopDrag d).
Proof.
  unfold barsOrdered, Clamp.stopDrag. intros H.
  split_ifs; use_tests; simpl in *; use_tests;
    auto using Qlt_le_weak, Qle_refl.
Qed.

(** The swap after the move orders the bars whatever they were. *)
Lemma swap_move_ordered (d : Drawer) (m : MousePos) :
  barsOrdered (Swap.moveTrimBars d m).
Proof.
  unfold barsOrdered, Swap.moveTrimBars.
  set (d1 := Swap.highLightTrimBarsWhenClose d m). clearbody d1.
  split_ifs; use_tests; simpl in *; use_tests;
    auto using Qlt_le_weak.
Qed.

Lemma swap_stop_ordered (d : Drawer) :
  barsOrdered d -> barsOrdered (Swap.stopDrag d).
Proof. unfold barsOrdered, Swap.stopDrag. auto. Qed.

(** Every pointer event keeps the bars ordered, under both policies. *)
Lemma handle_ordered (p : Policy) (d : Drawer) (ev : Event) :
  p = clampPolicy \/ p = swapPolicy ->
  barsOrdered d -> barsOrdered (handle p d ev).
Proof.
  intros [-> | ->] H; destruct ev as [m| |]; simpl.
  - now apply clamp_move_ordered.
  - now apply startDrag_ordered.
  - now apply clamp_stop_ordered.
  - apply swap_move_ordered.
  - now apply startDrag_ordered.
  - now apply swap_stop_ordered.
Qed.

Lemma session_ordered (p : Policy) (evs : list Event) (d : Drawer) :
  p = clampPolicy \/ p = swapPolicy ->
  barsOrdered d -> barsOrdered (fold_left (handle p) evs d).
Proof.
  intros Hp. revert d. induction evs as [|ev evs IH]; intros d H; simpl.
  - exact H.
  - apply IH. now apply handle_ordered.
Qed.

(** C7. From bars with [left.x <= right.x], any pointer session (moves
    and presses in any order) followed by a release leaves
    [left.x <= right.x], under the clamping policy of Assignment_Solution
    and under the swapping policy of the TypeScript port. *)
Theorem trim_bars_stay_ordered (p : Policy) (d : Drawer)
    (evs : list Event) :
  p = clampPolicy \/ p = swapPolicy ->
  barsOrdered d ->
  barsOrdered (onUp p (fold_left (handle p) evs d)).
Proof.
  intros Hp H.
  apply (handle_ordered p _ PointerUp Hp).
  now apply session_ordered.
Qed.

End TrimbarFacts.

Section TrimbarScenarios.
Import JS TrimbarsDrawer.
Local Open Scope Q_scope.

Lemma trim_bars_stay_ordered_witness :
  barsOrdered (onUp clampPolicy
                 (fold_left (handle clampPolicy) crossingSession closeBars))
  /\ barsOrdered (onUp swapPolicy
                 (fold_left (handle swapPolicy) crossingSession closeBars)).
Proof.
  split.
  - apply (trim_bars_stay_ordered clampPolicy closeBars crossingSession).
    + left. reflexivity.
    + unfold barsOrdered, Qle. simpl. lia.
  - apply (trim_bars_stay_ordered swapPolicy closeBars crossingSession).
    + right. reflexivity.
    + unfold barsOrdered, Qle. simpl. lia.
Defined.

(** C8, what the code does. The hit test of the TypeScript port selects
    each bar exactly when it is within 60 pixels of the pointer,
    independently of the other bar: whenever both bars are within 60
    pixels, both are selected.  The hit test of Assignment_Solution, which
    guards each test with the other bar's flag, never selects both. *)
Theorem hit_test_selection (d : Drawer) (m : MousePos) :
  nearLeft60 d m = true -> nearRight60 d m = true ->
  selected (leftTrimBar (Swap.highLightTrimBarsWhenClose d m)) = true
  /\ selected (rightTrimBar (Swap.highLightTrimBarsWhenClose d m)) = true
  /\ (selected (leftTrimBar (Clamp.highLightTrimBarsWhenClose d m))
        && selected (rightTrimBar (Clamp.highLightTrimBarsWhenClose d m))
      = false).
Proof.
  unfold nearLeft60, nearRight60. intros Hl Hr.
  split; [exact Hl|]. split; [exact Hr|].
  unfold Clamp.highLightTrimBarsWhenClose.
  destruct (distanceBelow (mx m) (my m) (x (leftTrimBar d)) 18 25);
    destruct (selected (rightTrimBar d)); simpl;
    destruct (distanceBelow (mx m) (my m) (x (rightTrimBar d)) 18 25);
    reflexivity.
Qed.

Lemma hit_test_selection_witness :
  selected (leftTrimBar
              (Swap.highLightTrimBarsWhenClose closeBars besideRightBar))
    = true
  /\ selected (rightTrimBar
              (Swap.highLightTrimBarsWhenClose closeBars besideRightBar))
    = true
  /\ (selected (leftTrimBar
                  (Clamp.highLightTrimBarsWhenClose closeBars besideRightBar))
        && selected (rightTrimBar
                  (Clamp.highLightTrimBarsWhenClose closeBars besideRightBar))
      = false).
Proof.
  apply (hit_test_selection closeBars besideRightBar); reflexivity.
Defined.

(** With the bars at 100 and 110 and the pointer at (112, 18), both
    within the radius, Assignment_Solution selects the left bar although
    the right one is nearer; the TypeScript port selects both. *)
Lemma hit_test_not_nearest :
  nearLeft25 closeBars besideRightBar = true
  /\ nearRight25 closeBars besideRightBar = true
  /\ distanceSq (mx besideRightBar) (my besideRightBar)
                (x (rightTrimBar closeBars)) 18
     < distanceSq (mx besideRightBar) (my besideRightBar)
                  (x (leftTrimBar closeBars)) 18
  /\ selected (leftTrimBar
                 (Clamp.highLightTrimBarsWhenClose closeBars besideRightBar))
     = true
  /\ selected (rightTrimBar
                 (Clamp.highLightTrimBarsWhenClose closeBars besideRightBar))
     = false
  /\ selected (leftTrimBar
                 (Swap.highLightTrimBarsWhenClose closeBars besideRightBar))
     = true
  /\ selected (rightTrimBar
                 (Swap.highLightTrimBarsWhenClose closeBars besideRightBar))
     = true.
Proof. repeat split. Qed.

End TrimbarScenarios.

(** * Further properties of the code *)

(** ** utils *)

Section UtilsFacts.
Import Utils.
Local Open Scope Q_scope.

Lemma pixelToSeconds_le (x y d w : Q) :
  0 < w -> 0 <= d -> x <= y -> pixelToSeconds x d w <= pixelToSeconds y d w.
Proof.
  intros Hw Hd Hxy. unfold pixelToSeconds.
  apply Qle_shift_div_l; [exact Hw|].
  assert (E : x * d / w * w == x * d) by (field; lra).
  rewrite E. now apply Qmult_le_compat_r.
Qed.

Lemma pixelToSeconds_zero (d w : Q) : 0 < w -> pixelToSeconds 0 d w == 0.
Proof. intros Hw. unfold pixelToSeconds. field. lra. Qed.

Lemma secondsToPixel_le (s t d w : Q) :
  0 < d -> 0 <= w -> s <= t -> secondsToPixel s d w <= secondsToPixel t d w.
Proof.
  intros Hd Hw Hst. unfold secondsToPixel.
  apply Qmult_le_compat_r; [|exact Hw].
  apply Qle_shift_div_l; [exact Hd|].
  assert (E : s / d * d == s) by (field; lra).
  rewrite E. exact Hst.
Qed.

(** X1. Both conversions keep the order and the sign and send 0 to 0:
    for a positive width and a non-negative duration [pixelToSeconds] is
    non-negative and non-decreasing in the pixel; for a positive duration
    and a non-negative width [secondsToPixel] is non-decreasing in the
    time, sends the duration to the width, and so maps the buffer
    [0 .. duration] into the canvas [0 .. width]. *)
Theorem conversions_keep_order (x y s t d w : Q) :
  0 < w -> 0 < d -> 0 <= x -> x <= y -> 0 <= s -> s <= t -> t <= d ->
  (0 <= pixelToSeconds x d w
   /\ pixelToSeconds x d w <= pixelToSeconds y d w
   /\ pixelToSeconds 0 d w == 0)
  /\ (0 <= secondsToPixel s d w
      /\ secondsToPixel s d w <= secondsToPixel t d w
      /\ secondsToPixel t d w <= w
      /\ secondsToPixel 0 d w == 0
      /\ secondsToPixel d d w == w).
Proof.
  intros Hw Hd Hx Hxy Hs Hst Ht.
  assert (P0 : pixelToSeconds 0 d w == 0) by (now apply pixelToSeconds_zero).
  assert (S0 : secondsToPixel 0 d w == 0)
    by (unfold secondsToPixel; field; lra).
  assert (S1 : secondsToPixel d d w == w)
    by (unfold secondsToPixel; field; lra).
  split; repeat split; try assumption.
  - rewrite <- P0. apply pixelToSeconds_le; lra.
  - apply pixelToSeconds_le; lra.
  - rewrite <- S0. apply secondsToPixel_le; lra.
  - apply secondsToPixel_le; lra.
  - rewrite <- S1 at 2. apply secondsToPixel_le; lra.
Qed.

Lemma conversions_keep_order_witness :
  (0 <= pixelToSeconds 150 2 600
   /\ pixelToSeconds 150 2 600 <= pixelToSeconds 450 2 600
   /\ pixelToSeconds 0 2 600 == 0)
  /\ (0 <= secondsToPixel 0.5 2 600
      /\ secondsToPixel 0.5 2 600 <= secondsToPixel 1.5 2 600
      /\ secondsToPixel 1.5 2 600 <= 600
      /\ secondsToPixel 0 2 600 == 0
      /\ secondsToPixel 2 2 600 == 600).
Proof.
  apply (conversions_keep_order 150 450 0.5 1.5 2 600);
    unfold Qlt, Qle; simpl; lia.
Defined.

End UtilsFacts.

(** ** SamplerEngine: calls as updates of one pad *)

Section CallFacts.
Import JS SamplerEngine EngineCalls.
Local Open Scope Q_scope.

Lemma alter_lookup {A : Type} (f : A -> A) (l : list A) (i : nat) :
  alter f i l = match l !! i with Some x => <[i := f x]> l | None => l end.
Proof.
  revert i. induction l as [|a l IH]; intros [|i]; try reflexivity.
  change (alter f (S i) (a :: l)) with (a :: alter f i l).
  rewrite IH. change ((a :: l) !! S i) with (l !! i).
  now destruct (l !! i).
Qed.

Lemma storePad_same (e : Engine) (i : Z) (pad : Pad) :
  padAt e i = Some pad -> storePad e i pad = e.
Proof. intros H. unfold storePad. now apply list_insert_id. Qed.

(** A call given a pad index rewrites that one entry of the array, and a
    call given an invalid index nothing. *)
Lemma after_alter (e : Engine) (c : Call) (i : Z) :
  padOf c = Some i ->
  after e c = if invalidIndex i then e
              else alter (padStep c) (Z.to_nat i) e.
Proof.
  intros Hc. rewrite alter_lookup. fold (padAt e i).
  destruct c as [k dec nm | k s t | k | k | ]; simpl in Hc;
    try discriminate; injection Hc as ->; simpl.
  - unfold loadSound. destruct (invalidIndex i); [reflexivity|].
    destruct dec as [buf|]; simpl.
    + now destruct (padAt e i).
    + destruct (padAt e i) as [pad|] eqn:Ep; [|reflexivity].
      symmetry. now apply storePad_same.
  - unfold setTrimPoints. destruct (invalidIndex i); [reflexivity|].
    destruct (padAt e i) as [pad|] eqn:Ep; [|reflexivity].
    fold (storePad e i (match loaded pad, buffer pad with
                        | true, Some buf =>
                            mkPad (index pad) (Some buf) (name pad) true
                                  (Math_max 0 s) (Math_min (duration buf) t)
                                  (gain pad)
                        | _, _ => pad end)).
    destruct (loaded pad) eqn:El;
      [destruct (buffer pad) as [buf|] eqn:Eb|];
      try (symmetry; now apply storePad_same).
    unfold set_trimEnd, set_trimStart; simpl. now rewrite El, Eb.
  - unfold resetPad. destruct (invalidIndex i); [reflexivity|].
    destruct (padAt e i) as [pad|] eqn:Ep; [|reflexivity].
    fold (storePad e i (match loaded pad, buffer pad with
                        | true, Some buf =>
                            mkPad (index pad) (Some buf) (name pad) true
                                  0 (duration buf) (gain pad)
                        | _, _ => pad end)).
    destruct (loaded pad) eqn:El;
      [destruct (buffer pad) as [buf|] eqn:Eb|];
      try (symmetry; now apply storePad_same).
    unfold set_trimEnd, set_trimStart; simpl. now rewrite El, Eb.
  - destruct (invalidIndex i); [reflexivity|].
    destruct (padAt e i) as [pad|] eqn:Ep; [|reflexivity].
    symmetry. now apply storePad_same.
Qed.

Lemma after_commute (e : Engine) (c1 c2 : Call) (i j : Z) :
  padOf c1 = Some i -> padOf c2 = Some j -> i <> j ->
  after (after e c1) c2 = after (after e c2) c1.
Proof.
  intros H1 H2 Hij.
  rewrite (after_alter (after e c1) c2 j H2), (after_alter e c1 i H1).
  rewrite (after_alter (after e c2) c1 i H1), (after_alter e c2 j H2).
  destruct (invalidIndex i) eqn:Ei; [reflexivity|].
  destruct (invalidIndex j) eqn:Ej; [reflexivity|].
  apply invalidIndex_false in Ei. apply invalidIndex_false in Ej.
  apply list_alter_alter_ne. lia.
Qed.

Lemma separateCalls_cons (c : Call) (calls : list Call) :
  separateCalls (c :: calls) -> separateCalls calls.
Proof.
  intros [Hf Hn]. split.
  - now inversion Hf.
  - simpl in Hn. now inversion Hn.
Qed.

Lemma separateCalls_perm (calls calls' : list Call) :
  Permutation calls calls' -> separateCalls calls -> separateCalls calls'.
Proof.
  intros Hp [Hf Hn]. split.
  - eapply Permutation_Forall; [exact Hp | exact Hf].
  - assert (Hm : Permutation (map padOf calls) (map padOf calls'))
      by now apply Permutation_map.
    now rewrite <- Hm.
Qed.

(** X3. Calls that address pairwise different pads can be made in any
    order: every permutation of such a batch leaves the same pads. *)
Theorem separate_calls_any_order (e : Engine) (calls calls' : list Call) :
  separateCalls calls -> Permutation calls calls' ->
  fold_left after calls' e = fold_left after calls e.
Proof.
  intros Hs Hp. revert e Hs.
  induction Hp as [|c l l' Hp IH|c1 c2 l|l l' l'' Hp1 IH1 Hp2 IH2];
    intros e Hs; simpl.
  - reflexivity.
  - apply IH. eapply separateCalls_cons, Hs.
  - f_equal. destruct Hs as [Hf Hn].
    inversion Hf as [|? ? Hc2 Hf']; subst.
    inversion Hf' as [|? ? Hc1 _]; subst.
    destruct (padOf c1) as [i|] eqn:E1; [|now elim Hc1].
    destruct (padOf c2) as [j|] eqn:E2; [|now elim Hc2].
    apply (after_commute e c1 c2 i j E1 E2).
    simpl in Hn. rewrite E1, E2 in Hn. inversion Hn as [|? ? Hin _]; subst.
    intros ->. apply Hin. apply list_elem_of_here.
  - rewrite IH2, IH1; [reflexivity | exact Hs |].
    eapply separateCalls_perm; [exact Hp1 | exact Hs].
Qed.

Lemma separate_calls_any_order_witness :
  fold_left after (rev threeLoads) initializePads
  = fold_left after threeLoads initializePads.
Proof.
  apply (separate_calls_any_order initializePads threeLoads (rev threeLoads)).
  - split.
    + repeat constructor; discriminate.
    + simpl. repeat (apply NoDup_cons_2;
        [rewrite ?elem_of_cons, elem_of_nil; intros H;
         repeat (destruct H as [H|H]; [discriminate|]); exact H|]).
      apply NoDup_nil_2.
  - apply Permutation_rev.
Defined.

End CallFacts.

Section EngineLaws.
Import JS SamplerEngine EngineCalls.
Local Open Scope Q_scope.

Lemma reachable_consistent (e : Engine) :
  reachable (fun _ _ => True) e ->
  Forall (fun pad => loaded pad = true <-> buffer pad <> None) e.
Proof.
  induction 1 as [|e c _ IH _].
  - apply initializePads_Forall. intros i. simpl. split; [discriminate|].
    intros H. now elim H.
  - apply after_Forall; [exact IH|..]; simpl; intros; split; intros;
      try discriminate; try reflexivity; try congruence.
Qed.

(** X4. In every state reached from construction through the public
    calls there are 16 pads, a valid index finds the pad created for it,
    that pad is loaded exactly when it holds a buffer, and the
    [setTrimPoints] of Assignment_Solution, which does not test the buffer,
    never throws and does what the TypeScript one does. *)
Theorem reachable_pads_consistent (calls : list Call) (i : Z) (s t : Q) :
  length (run calls) = 16%nat
  /\ (invalidIndex i = false ->
      exists pad, getPad (run calls) i = Some pad
        /\ index pad = i
        /\ (loaded pad = true <-> buffer pad <> None))
  /\ setTrimPoints_js (run calls) i s t
     = Normal (setTrimPoints (run calls) i s t).
Proof.
  destruct (run_slotsKept calls) as [Hlen Hsl].
  pose proof (reachable_consistent _ (reachable_run calls)) as Hc.
  assert (Hget : invalidIndex i = false ->
            exists pad, padAt (run calls) i = Some pad
              /\ index pad = i
              /\ (loaded pad = true <-> buffer pad <> None)).
  { intros Hi. apply invalidIndex_false in Hi.
    destruct (lookup_lt_is_Some_2 (run calls) (Z.to_nat i)) as [pad Hp].
    { rewrite Hlen. unfold maxPads. lia. }
    exists pad. split; [exact Hp|]. split.
    - destruct (Hsl _ _ Hp) as [-> _]. lia.
    - eapply Forall_lookup_1 in Hc; [exact Hc | exact Hp]. }
  split; [exact Hlen|]. split.
  - intros Hi. rewrite getPad_valid by exact Hi. now apply Hget.
  - apply setTrimPoints_js_agrees.
    + intros pad Hp Hl.
      eapply Forall_lookup_1 in Hc; [|exact Hp]. now apply Hc.
    + intros Hi. destruct (Hget Hi) as (pad & -> & _). discriminate.
Qed.

Lemma reachable_pads_consistent_witness :
  length (run threeLoads) = 16%nat
  /\ (exists pad, getPad (run threeLoads) 1 = Some pad
        /\ index pad = 1%Z
        /\ (loaded pad = true <-> buffer pad <> None))
  /\ setTrimPoints_js (run threeLoads) 0 0.5 1.5
     = Normal (setTrimPoints (run threeLoads) 0 0.5 1.5).
Proof.
  destruct (reachable_pads_consistent threeLoads 1 0.5 1.5) as (H1 & H2 & _).
  destruct (reachable_pads_consistent threeLoads 0 0.5 1.5) as (_ & _ & H3).
  split; [exact H1|]. split; [apply H2; reflexivity | exact H3].
Defined.

(** X5. Whatever the trim fields of the pad are, [play] asks for a start
    and a length that fit the buffer: for a buffer of non-negative
    duration the start is between 0 and the duration, and the length is
    between 0 and the duration. *)
Theorem play_stays_in_buffer (e : Engine) (i : Z) (pb : Playback) :
  play e i = Some pb -> 0 <= duration (source pb) ->
  0 <= offset pb
  /\ offset pb <= duration (source pb)
  /\ 0 <= playDuration pb
  /\ playDuration pb <= duration (source pb).
Proof.
  unfold play. destruct (invalidIndex i); [discriminate|].
  destruct (padAt e i) as [pad|]; [|discriminate].
  destruct (loaded pad); [|discriminate].
  destruct (buffer pad) as [buf|]; [|discriminate].
  intros H Hd. injection H as <-. unfold _playBuffer in *. simpl in *.
  rewrite !Math_max_Qmax, !Math_min_Qmin.
  set (d := duration buf) in *.
  set (st := Qmax 0 (Qmin (trimStart pad) d)).
  assert (H0 : 0 <= st) by apply Q.le_max_l.
  assert (H1 : st <= d).
  { unfold st. apply Q.max_lub; [exact Hd | apply Q.le_min_r]. }
  assert (H2 : Qmax st (Qmin (trimEnd pad) d) <= d).
  { apply Q.max_lub; [exact H1 | apply Q.le_min_r]. }
  repeat split; try assumption.
  - apply (proj1 (Qle_minus_iff _ _)), Q.le_max_l.
  - lra.
Qed.

Lemma play_stays_in_buffer_witness :
  exists pb, play (setTrimPoints loadedOnPad0 0 1.5 0.5) 0 = Some pb
    /\ 0 <= offset pb
    /\ offset pb <= duration (source pb)
    /\ 0 <= playDuration pb
    /\ playDuration pb <= duration (source pb).
Proof.
  eexists. split; [vm_compute; reflexivity|].
  apply (play_stays_in_buffer (setTrimPoints loadedOnPad0 0 1.5 0.5) 0).
  - vm_compute. reflexivity.
  - vm_compute. discriminate.
Defined.

(** X6. A loaded pad whose [trimEnd] is not after its [trimStart] (as
    [setTrimPoints] leaves it when given a start after the end) plays a
    window of length 0. *)
Theorem play_inverted_window_is_empty (e : Engine) (i : Z) (pad : Pad)
    (buf : AudioBuffer) :
  invalidIndex i = false -> padAt e i = Some pad ->
  loaded pad = true -> buffer pad = Some buf ->
  trimEnd pad <= trimStart pad ->
  exists pb, play e i = Some pb /\ playDuration pb == 0.
Proof.
  intros Hi Hp Hl Hb Hinv. eexists. unfold play.
  rewrite Hi, Hp, Hl, Hb. split; [reflexivity|].
  unfold _playBuffer. simpl. rewrite !Math_max_Qmax, !Math_min_Qmin.
  set (d := duration buf).
  assert (H : Qmin (trimEnd pad) d <= Qmax 0 (Qmin (trimStart pad) d)).
  { eapply Qle_trans; [|apply Q.le_max_r].
    apply Q.min_le_compat_r. exact Hinv. }
  rewrite (Q.max_l _ _ H). ring.
Qed.

Lemma play_inverted_window_is_empty_witness :
  exists pb, play (setTrimPoints loadedOnPad0 0 1.5 0.5) 0 = Some pb
    /\ playDuration pb == 0.
Proof.
  apply (play_inverted_window_is_empty (setTrimPoints loadedOnPad0 0 1.5 0.5)
           0 (mkPad 0 (Some twoSeconds) "kick" true 1.5 0.5 1) twoSeconds);
    try reflexivity.
  vm_compute. discriminate.
Defined.

End EngineLaws.

Section EngineComposition.
Import JS SamplerEngine EngineCalls.
Local Open Scope Q_scope.

Lemma resetPad_loaded (e : Engine) (i : Z) (pad : Pad) (buf : AudioBuffer) :
  invalidIndex i = false -> padAt e i = Some pad ->
  loaded pad = true -> buffer pad = Some buf ->
  resetPad e i =
    storePad e i (mkPad (index pad) (Some buf) (name pad) true
                        0 (duration buf) (gain pad)).
Proof.
  intros Hi Hp Hl Hb. unfold resetPad. rewrite Hi, Hp, Hl, Hb.
  unfold set_trimEnd, set_trimStart; simpl. now rewrite Hl, Hb.
Qed.

(** X7. On a loaded pad [resetPad] puts the trim window back to the whole
    buffer and touches nothing else: pad [i] keeps its buffer, name and
    gain with [trimStart = 0] and [trimEnd = duration], the other pads are
    unchanged, and the next [play] asks for the buffer from 0 for its full
    duration. *)
Theorem resetPad_full_window (e : Engine) (i : Z) (pad : Pad)
    (buf : AudioBuffer) :
  invalidIndex i = false -> padAt e i = Some pad ->
  loaded pad = true -> buffer pad = Some buf -> 0 <= duration buf ->
  getPad (resetPad e i) i =
    Some (mkPad (index pad) (Some buf) (name pad) true 0 (duration buf)
                (gain pad))
  /\ (forall j, j <> Z.to_nat i -> resetPad e i !! j = e !! j)
  /\ exists pb, play (resetPad e i) i = Some pb
       /\ source pb = buf /\ offset pb == 0
       /\ playDuration pb == duration buf.
Proof.
  intros Hi Hp Hl Hb Hd.
  rewrite (resetPad_loaded e i pad buf Hi Hp Hl Hb).
  assert (Hget : padAt (storePad e i
                   (mkPad (index pad) (Some buf) (name pad) true 0
                          (duration buf) (gain pad))) i
                 = Some (mkPad (index pad) (Some buf) (name pad) true 0
                               (duration buf) (gain pad)))
    by (eapply padAt_storePad_eq, Hp).
  split; [now rewrite getPad_valid|]. split.
  - intros j Hj. now apply storePad_other.
  - eexists. unfold play. rewrite Hi, Hget. simpl.
    split; [reflexivity|]. unfold _playBuffer. simpl.
    rewrite !Math_max_Qmax, !Math_min_Qmin.
    assert (E0 : Qmax 0 (Qmin 0 (duration buf)) == 0).
    { rewrite (Q.min_l _ _ Hd). apply Q.max_l, Qle_refl. }
    assert (E1 : Qmin (duration buf) (duration buf) == duration buf)
      by apply Q.min_l, Qle_refl.
    repeat split; [exact E0|].
    rewrite E1, E0, (Q.max_r _ _ Hd). ring.
Qed.

Lemma resetPad_full_window_witness :
  getPad (resetPad (setTrimPoints loadedOnPad0 0 0.5 1.5) 0) 0 =
    Some (mkPad 0 (Some twoSeconds) "kick" true 0 2 1)
  /\ (forall j, j <> 0%nat ->
        resetPad (setTrimPoints loadedOnPad0 0 0.5 1.5) 0 !! j
        = setTrimPoints loadedOnPad0 0 0.5 1.5 !! j)
  /\ exists pb, play (resetPad (setTrimPoints loadedOnPad0 0 0.5 1.5) 0) 0
                = Some pb
       /\ source pb = twoSeconds /\ offset pb == 0 /\ playDuration pb == 2.
Proof.
  apply (resetPad_full_window (setTrimPoints loadedOnPad0 0 0.5 1.5) 0
           (mkPad 0 (Some twoSeconds) "kick" true 0.5 1.5 1) twoSeconds);
    try reflexivity.
  vm_compute. discriminate.
Defined.

Lemma alter_twice (e : Engine) (c1 c2 c : Call) (k : nat) :
  (forall pad, padStep c2 (padStep c1 pad) = padStep c pad) ->
  alter (padStep c2) k (alter (padStep c1) k e) = alter (padStep c) k e.
Proof.
  intros H. rewrite list_alter_alter_eq.
  apply list_alter_ext; [|reflexivity]. intros pad _. apply H.
Qed.

Lemma after_twice (e : Engine) (c1 c2 c : Call) (i : Z) :
  padOf c1 = Some i -> padOf c2 = Some i -> padOf c = Some i ->
  (forall pad, padStep c2 (padStep c1 pad) = padStep c pad) ->
  after (after e c1) c2 = after e c.
Proof.
  intros H1 H2 H3 H.
  rewrite (after_alter _ c2 i H2), (after_alter e c1 i H1),
    (after_alter e c i H3).
  destruct (invalidIndex i); [reflexivity|]. now apply alter_twice.
Qed.

(** X8. Trim updates of one pad do not build on each other: of two
    [setTrimPoints] calls on a pad the second alone decides the result,
    [resetPad] after [setTrimPoints] is [resetPad], and [resetPad] twice is
    [resetPad] once; this holds in every state and for every index. *)
Theorem trim_updates_overwrite (e : Engine) (i : Z) (s1 t1 s2 t2 : Q) :
  setTrimPoints (setTrimPoints e i s1 t1) i s2 t2 = setTrimPoints e i s2 t2
  /\ resetPad (setTrimPoints e i s1 t1) i = resetPad e i
  /\ resetPad (resetPad e i) i = resetPad e i.
Proof.
  split; [|split].
  - apply (after_twice e (CallSetTrimPoints i s1 t1)
             (CallSetTrimPoints i s2 t2) (CallSetTrimPoints i s2 t2) i);
      try reflexivity.
    intros pad. simpl.
    destruct (loaded pad) eqn:El; [|now rewrite El].
    destruct (buffer pad) eqn:Eb; simpl; [reflexivity|]. now rewrite El, Eb.
  - apply (after_twice e (CallSetTrimPoints i s1 t1) (CallResetPad i)
             (CallResetPad i) i); try reflexivity.
    intros pad. simpl.
    destruct (loaded pad) eqn:El; [|now rewrite El].
    destruct (buffer pad) eqn:Eb; simpl; [reflexivity|]. now rewrite El, Eb.
  - apply (after_twice e (CallResetPad i) (CallResetPad i)
             (CallResetPad i) i); try reflexivity.
    intros pad. simpl.
    destruct (loaded pad) eqn:El; [|now rewrite El].
    destruct (buffer pad) eqn:Eb; simpl; [reflexivity|]. now rewrite El, Eb.
Qed.

Lemma clearPad_unloaded (pad : Pad) : loaded (clearPad pad) = false.
Proof. reflexivity. Qed.

Lemma padAt_clearAll (e : Engine) (i : Z) :
  padAt (clearAll e) i = clearPad <$> padAt e i.
Proof. unfold padAt, clearAll. apply lookup_map. Qed.

(** X9. After [clearAll] every pad is unloaded, in any state: no index
    plays, [setTrimPoints] and [resetPad] change nothing, and a second
    [clearAll] changes nothing either. *)
Theorem clearAll_unloads (e : Engine) (i : Z) (s t : Q) :
  play (clearAll e) i = None
  /\ setTrimPoints (clearAll e) i s t = clearAll e
  /\ resetPad (clearAll e) i = clearAll e
  /\ clearAll (clearAll e) = clearAll e.
Proof.
  repeat split.
  - unfold play. destruct (invalidIndex i); [reflexivity|].
    rewrite padAt_clearAll. now destruct (padAt e i).
  - unfold setTrimPoints. destruct (invalidIndex i); [reflexivity|].
    rewrite padAt_clearAll. now destruct (padAt e i).
  - unfold resetPad. destruct (invalidIndex i); [reflexivity|].
    rewrite padAt_clearAll. now destruct (padAt e i).
  - unfold clearAll. rewrite map_map. apply map_ext. now intros [].
Qed.

End EngineComposition.

Section ReloadFacts.
Import JS SamplerEngine.
Local Open Scope Q_scope.

(** X2. [loadSound] sets [trimEnd] to the new duration and keeps
    [trimStart], where [resetPad] sets both.  Loading a buffer shorter
    than the pad's [trimStart] therefore leaves a loaded pad whose
    [trimStart] lies beyond its [trimEnd] and beyond the buffer; [play]
    then starts at the end of the buffer with length 0, until [resetPad]
    or [setTrimPoints] is called. *)
Theorem reload_keeps_trimStart (e : Engine) (i : Z) (pad : Pad)
    (buf' : AudioBuffer) (nm : option string) :
  invalidIndex i = false -> padAt e i = Some pad ->
  0 <= duration buf' -> duration buf' < trimStart pad ->
  exists e' pad' pb,
    loadSound e i (Some buf') nm = Normal e'
    /\ getPad e' i = Some pad'
    /\ loaded pad' = true /\ buffer pad' = Some buf'
    /\ trimStart pad' = trimStart pad
    /\ trimEnd pad' = duration buf'
    /\ trimEnd pad' < trimStart pad'
    /\ play e' i = Some pb
    /\ offset pb == duration buf' /\ playDuration pb == 0
    /\ exists pad'',
         getPad (resetPad e' i) i = Some pad''
         /\ trimStart pad'' = 0 /\ trimEnd pad'' = duration buf'.
Proof.
  intros Hi Hp Hd Hs.
  set (pad' := mkPad (index pad) (Some buf') (nameOr nm (defaultName i)) true
                 (trimStart pad) (duration buf') (gain pad)).
  assert (Hpa : padAt (storePad e i pad') i = Some pad')
    by (eapply padAt_storePad_eq, Hp).
  exists (storePad e i pad'), pad'.
  exists (_playBuffer buf' (trimStart pad) (duration buf') (gain pad)).
  split; [unfold loadSound; rewrite Hi, Hp; reflexivity|].
  split; [rewrite getPad_valid by exact Hi; exact Hpa|].
  split; [reflexivity|]. split; [reflexivity|].
  split; [reflexivity|]. split; [reflexivity|].
  split; [exact Hs|].
  split; [unfold play; rewrite Hi, Hpa; reflexivity|].
  assert (E1 : Qmax 0 (Qmin (trimStart pad) (duration buf'))
               == duration buf').
  { rewrite (Q.min_r (trimStart pad) (duration buf')) by lra.
    apply Q.max_r. exact Hd. }
  split; [|split].
  - unfold _playBuffer. simpl. rewrite Math_max_Qmax, Math_min_Qmin.
    exact E1.
  - unfold _playBuffer. simpl. rewrite !Math_max_Qmax, !Math_min_Qmin.
    rewrite (Q.min_l (duration buf') (duration buf')) by lra.
    rewrite E1. rewrite Q.max_l by lra. ring.
  - rewrite (resetPad_loaded (storePad e i pad') i pad' buf' Hi Hpa
               eq_refl eq_refl).
    eexists. split.
    + rewrite getPad_valid by exact Hi. eapply padAt_storePad_eq, Hpa.
    + split; reflexivity.
Qed.

Lemma reload_keeps_trimStart_witness :
  exists e' pad' pb,
    loadSound (run [CallLoadSound 0 (Some twoSeconds) None;
                    CallSetTrimPoints 0 1.5 2])
              0 (Some oneSecond) None = Normal e'
    /\ getPad e' 0 = Some pad'
    /\ loaded pad' = true /\ buffer pad' = Some oneSecond
    /\ trimStart pad' = 1.5
    /\ trimEnd pad' = 1
    /\ trimEnd pad' < trimStart pad'
    /\ play e' 0 = Some pb
    /\ offset pb == 1 /\ playDuration pb == 0
    /\ exists pad'',
         getPad (resetPad e' 0) 0 = Some pad''
         /\ trimStart pad'' = 0 /\ trimEnd pad'' = 1.
Proof.
  apply (reload_keeps_trimStart
           (run [CallLoadSound 0 (Some twoSeconds) None;
                 CallSetTrimPoints 0 1.5 2])
           0 (mkPad 0 (Some twoSeconds) "Pad 1" true 1.5 2 1) oneSecond None).
  - reflexivity.
  - reflexivity.
  - vm_compute. discriminate.
  - reflexivity.
Defined.

End ReloadFacts.

(** ** SamplerEngine: [loadSoundFromURL] *)

Section UrlBodyFacts.
Import JS SamplerEngine UrlLoader.
Local Open Scope Q_scope.

Lemma readBody_total (cl : option Z) (chunks : list (list Byte.byte))
    (r : Z) :
  fst (readBody cl chunks r) = (r + Z.of_nat (length (concat chunks)))%Z.
Proof.
  revert r. induction chunks as [|chunk rest IH]; intros r; simpl.
  - lia.
  - specialize (IH (r + Z.of_nat (length chunk))%Z).
    destruct (readBody cl rest (r + Z.of_nat (length chunk))) as [total reps].
    simpl in *. rewrite IH, length_app. lia.
Qed.

Lemma setChunks_concat (chunks : list (list Byte.byte)) :
  forall (done : list Byte.byte) (n : nat),
    setChunks chunks (length done)
              (done ++ replicate (length (concat chunks) + n) Byte.x00)
    = done ++ concat chunks ++ replicate n Byte.x00.
Proof.
  induction chunks as [|chunk rest IH]; intros done n; simpl.
  - reflexivity.
  - rewrite length_app, <- Nat.add_assoc, replicate_add.
    replace (length done) with (length done + 0)%nat at 2 by lia.
    rewrite list_inserts_app_r.
    rewrite list_inserts_0_r by (now rewrite length_replicate).
    rewrite <- length_app, (app_assoc done chunk).
    rewrite IH. now rewrite <- !app_assoc.
Qed.

Lemma chunks_total (cl : option Z) (chunks : list (list Byte.byte)) :
  fst (readBody cl chunks 0) = Z.of_nat (length (concat chunks))
  /\ combineChunks chunks (fst (readBody cl chunks 0)) = concat chunks.
Proof.
  rewrite readBody_total. split; [lia|].
  unfold combineChunks. rewrite Z.add_0_l, Nat2Z.id.
  pose proof (setChunks_concat chunks [] 0) as H. simpl in H.
  rewrite Nat.add_0_r, app_nil_r in H. exact H.
Qed.

(** X10. The bytes handed to the decoder are the chunks of the response
    body joined in the order they were read, and [receivedLength] is their
    total length, whatever the content-length header says. *)
Theorem chunks_are_concatenated (cl : option Z)
    (chunks : list (list Byte.byte)) :
  fst (readBody cl chunks 0) = Z.of_nat (length (concat chunks))
  /\ combineChunks chunks (fst (readBody cl chunks 0)) = concat chunks.
Proof. apply chunks_total. Qed.

Lemma progressOf_le (a b cl : Z) :
  (0 < cl)%Z -> (a <= b)%Z -> progressOf a cl <= progressOf b cl.
Proof.
  intros Hc Hab. unfold progressOf.
  apply Qmult_le_compat_r; [|discriminate].
  apply Qmult_le_compat_r.
  - now rewrite <- Zle_Qle.
  - apply Qinv_le_0_compat. now rewrite <- (Zle_Qle 0), Z.lt_le_incl.
Qed.

Lemma progressOf_full (cl : Z) : (0 < cl)%Z -> progressOf cl cl == 100.
Proof.
  intros Hc. unfold progressOf. field.
  intros H. apply (Qeq_bool_neq (inject_Z cl) 0); [|exact H].
  unfold Qeq_bool. simpl. apply Z.eqb_neq. lia.
Qed.

Lemma readBody_reports (cl : Z) (chunks : list (list Byte.byte)) :
  (0 < cl)%Z ->
  forall r : Z,
    length (snd (readBody (Some cl) chunks r)) = length chunks
    /\ Forall (fun p => progressOf r cl <= p
                        /\ p <= progressOf (fst (readBody (Some cl) chunks r))
                                           cl)
              (snd (readBody (Some cl) chunks r))
    /\ StronglySorted Qle (snd (readBody (Some cl) chunks r))
    /\ (chunks <> [] ->
        last (snd (readBody (Some cl) chunks r))
        = Some (progressOf (fst (readBody (Some cl) chunks r)) cl)).
Proof.
  intros Hc. induction chunks as [|chunk rest IH]; intros r; simpl.
  - repeat split; try constructor. intros H. now elim H.
  - specialize (IH (r + Z.of_nat (length chunk))%Z).
    pose proof (readBody_total (Some cl) rest
                  (r + Z.of_nat (length chunk))%Z) as Ht.
    destruct (readBody (Some cl) rest (r + Z.of_nat (length chunk)))
      as [total reps].
    simpl in *. destruct IH as (Hl & Hb & Hs & Hlast).
    split; [now rewrite Hl|]. split; [|split].
    + constructor.
      * split; apply progressOf_le; try assumption; lia.
      * eapply Forall_impl; [exact Hb|]. intros p [H1 H2]. split; [|exact H2].
        eapply Qle_trans; [|exact H1]. apply progressOf_le; [exact Hc | lia].
    + constructor; [exact Hs|].
      eapply Forall_impl; [exact Hb|]. now intros p [H1 _].
    + intros _. destruct rest as [|chunk' rest'].
      * destruct reps; [|discriminate Hl].
        assert (total = r + Z.of_nat (length chunk))%Z as ->
          by (simpl in Ht; lia).
        reflexivity.
      * rewrite last_cons, Hlast by discriminate. reflexivity.
Qed.

Lemma readBody_silent (chunks : list (list Byte.byte)) (r : Z) :
  snd (readBody None chunks r) = [].
Proof.
  revert r. induction chunks as [|chunk rest IH]; intros r; simpl.
  - reflexivity.
  - specialize (IH (r + Z.of_nat (length chunk))%Z).
    now destruct (readBody None rest (r + Z.of_nat (length chunk))).
Qed.

(** X11. With a content-length header denoting a positive number, the read
    loop reports once per chunk, the reported percentages never decrease
    and are not negative; when the body has exactly the announced length
    they do not exceed 100 and the last one is 100.  Without the header
    nothing is reported. *)
Theorem progress_reports_increase (cl : Z) (chunks : list (list Byte.byte)) :
  (0 < cl)%Z ->
  length (snd (readBody (Some cl) chunks 0)) = length chunks
  /\ StronglySorted Qle (snd (readBody (Some cl) chunks 0))
  /\ Forall (fun p => 0 <= p) (snd (readBody (Some cl) chunks 0))
  /\ (Z.of_nat (length (concat chunks)) = cl ->
      Forall (fun p => p <= 100) (snd (readBody (Some cl) chunks 0))
      /\ (chunks <> [] ->
          exists p, last (snd (readBody (Some cl) chunks 0)) = Some p
                    /\ p == 100))
  /\ snd (readBody None chunks 0) = [].
Proof.
  intros Hc. destruct (readBody_reports cl chunks Hc 0) as (Hl & Hb & Hs & Hlast).
  pose proof (readBody_total (Some cl) chunks 0) as Ht.
  split; [exact Hl|]. split; [exact Hs|]. split; [|split].
  - eapply Forall_impl; [exact Hb|]. intros p [H _].
    eapply Qle_trans; [|exact H].
    unfold progressOf. unfold Qle. simpl. lia.
  - intros Hfull. rewrite Ht, Z.add_0_l, Hfull in *. split.
    + eapply Forall_impl; [exact Hb|]. intros p [_ H].
      now rewrite <- (progressOf_full cl Hc).
    + intros Hne. eexists. split; [now apply Hlast|].
      now apply progressOf_full.
  - apply readBody_silent.
Qed.

Lemma progress_reports_increase_witness :
  snd (readBody (Some 4%Z) (body kickResponse) 0)
  = [200 # 4; 200 # 4; 400 # 4]
  /\ StronglySorted Qle (snd (readBody (Some 4%Z) (body kickResponse) 0))
  /\ Forall (fun p => p <= 100)
            (snd (readBody (Some 4%Z) (body kickResponse) 0)).
Proof.
  destruct (progress_reports_increase 4 (body kickResponse))
    as (_ & Hs & _ & Hfull & _).
  - lia.
  - destruct (Hfull eq_refl) as [Hle _].
    split; [vm_compute; reflexivity|]. split; [exact Hs | exact Hle].
Defined.

End UrlBodyFacts.

Section UrlNameFacts.
Import JS SamplerEngine UrlLoader.
Local Open Scope string_scope.

Lemma append_cons (c : ascii) (a b : string) :
  String c a ++ b = String c (a ++ b).
Proof. reflexivity. Qed.

Lemma append_nil (b : string) : EmptyString ++ b = b.
Proof. reflexivity. Qed.

Ltac app_simpl := rewrite ?append_cons, ?append_nil; simpl.

Lemma append_assoc_ (a b c : string) : (a ++ b) ++ c = a ++ (b ++ c).
Proof.
  induction a as [|x a IH]; app_simpl; [reflexivity | now rewrite IH].
Qed.

Lemma append_empty_r (a : string) : a ++ EmptyString = a.
Proof.
  induction a as [|x a IH]; app_simpl; [reflexivity | now rewrite IH].
Qed.

Lemma lastSegmentFrom_app (a b cur : string) :
  lastSegmentFrom (a ++ b) cur = lastSegmentFrom b (lastSegmentFrom a cur).
Proof.
  revert cur. induction a as [|c a IH]; intros cur; app_simpl; [reflexivity|].
  destruct (isSlash c); apply IH.
Qed.

Lemma lastSegmentFrom_noSlash (seg cur : string) :
  noSlash seg = true -> lastSegmentFrom seg cur = cur ++ seg.
Proof.
  revert cur. induction seg as [|c seg IH]; intros cur H; simpl in *.
  - now rewrite append_empty_r.
  - apply andb_true_iff in H as [Hc Hs].
    apply negb_true_iff in Hc. rewrite Hc, IH by exact Hs.
    rewrite append_assoc_. now app_simpl.
Qed.

Lemma lastSegment_after_slash (dir seg : string) :
  noSlash seg = true -> lastSegment (dir ++ String "/" seg) = seg.
Proof.
  intros H. unfold lastSegment.
  rewrite lastSegmentFrom_app. app_simpl.
  now rewrite lastSegmentFrom_noSlash by exact H.
Qed.

Lemma plainRun_dot (a b : string) : plainRun (a ++ String "." b) = false.
Proof.
  induction a as [|c a IH]; app_simpl.
  - reflexivity.
  - rewrite IH. apply andb_false_r.
Qed.

Lemma isExtension_dot (a b : string) :
  isExtension (a ++ String "." b) = false.
Proof.
  destruct a as [|c a]; app_simpl.
  - reflexivity.
  - rewrite (plainRun_dot a b). apply andb_false_r.
Qed.

Lemma stripExtension_stem (stem ext : string) :
  isExtension ext = true -> stripExtension (stem ++ String "." ext) = stem.
Proof.
  intros He. induction stem as [|c stem IH]; app_simpl.
  - now rewrite He.
  - rewrite (isExtension_dot stem ext), andb_false_r. now rewrite IH.
Qed.

Lemma plainRun_noSlash (s : string) : plainRun s = true -> noSlash s = true.
Proof.
  induction s as [|c s IH]; simpl; [reflexivity|]. intros H.
  apply andb_true_iff in H as [H Hs]. apply andb_true_iff in H as [Hc _].
  now rewrite Hc, IH.
Qed.

Lemma stripExtension_plain (s : string) :
  plainRun s = true -> stripExtension s = s.
Proof.
  induction s as [|c s IH]; simpl; [reflexivity|]. intros H.
  apply andb_true_iff in H as [H Hs]. apply andb_true_iff in H as [_ Hd].
  apply negb_true_iff in Hd. rewrite Hd. simpl. now rewrite IH.
Qed.

Lemma stripExtension_noSlash (s : string) :
  noSlash s = true -> noSlash (stripExtension s) = true.
Proof.
  induction s as [|c s IH]; simpl; [reflexivity|]. intros H.
  apply andb_true_iff in H as [Hc Hs].
  destruct (isDot c && isExtension s); [reflexivity|].
  simpl. now rewrite Hc, IH.
Qed.

Lemma lastSegmentFrom_noSlash_result (s cur : string) :
  noSlash cur = true -> noSlash (lastSegmentFrom s cur) = true.
Proof.
  revert cur. induction s as [|c s IH]; intros cur H; simpl; [exact H|].
  destruct (isSlash c) eqn:Ec; apply IH; [reflexivity|].
  clear IH. induction cur as [|x cur IHc]; app_simpl.
  - now rewrite Ec.
  - simpl in H. apply andb_true_iff in H as [Hx Hc]. now rewrite Hx, IHc.
Qed.

(** X12. For a URL that ends in a slash-free last segment [stem.ext],
    where the extension is not empty and has neither dot nor slash, the
    sample name is the stem (dots inside the stem are kept); the TypeScript
    engine gives the same name unless the stem is empty, and then
    "sound". *)
Theorem fileName_is_stem (dir stem ext : string) :
  noSlash stem = true -> isExtension ext = true ->
  fileName (dir ++ "/" ++ stem ++ "." ++ ext) = stem
  /\ fileNameOrSound (dir ++ "/" ++ stem ++ "." ++ ext)
     = match stem with EmptyString => "sound" | _ => stem end.
Proof.
  intros Hs He.
  change (dir ++ "/" ++ stem ++ "." ++ ext)
    with (dir ++ String "/" (stem ++ String "." ext)).
  assert (Hseg : noSlash (stem ++ String "." ext) = true).
  { assert (Hx : noSlash ext = true).
    { apply plainRun_noSlash. now destruct ext. }
    clear He. induction stem as [|c stem IH]; app_simpl.
    - simpl. exact Hx.
    - simpl in Hs. apply andb_true_iff in Hs as [Hc Hs]. now rewrite Hc, IH. }
  assert (E : fileName (dir ++ String "/" (stem ++ String "." ext)) = stem).
  { unfold fileName. rewrite lastSegment_after_slash by exact Hseg.
    now apply stripExtension_stem. }
  split; [exact E|]. unfold fileNameOrSound. rewrite E. now destruct stem.
Qed.

Lemma fileName_is_stem_witness :
  fileName kickUrl = "Kick 808X"
  /\ fileNameOrSound kickUrl = "Kick 808X".
Proof.
  apply (fileName_is_stem "http://localhost:3000/presets/808"
           "Kick 808X" "wav"); reflexivity.
Defined.

(** X13. The sample name never contains a slash; a last segment without
    any dot is the name as it stands, and a URL that ends in a slash gives
    the empty name, for which [loadSound] falls back to the pad's default
    name and the TypeScript engine to "sound". *)
Theorem fileName_edge_cases (dir seg : string) :
  noSlash (fileName dir) = true
  /\ (plainRun seg = true -> fileName (dir ++ "/" ++ seg) = seg)
  /\ fileName (dir ++ "/") = EmptyString
  /\ fileNameOrSound (dir ++ "/") = "sound"
  /\ forall i, nameOr (Some (fileName (dir ++ "/"))) (defaultName i)
               = defaultName i.
Proof.
  change (dir ++ "/" ++ seg) with (dir ++ String "/" seg).
  change (dir ++ "/") with (dir ++ String "/" EmptyString).
  assert (E : fileName (dir ++ String "/" EmptyString) = EmptyString).
  { unfold fileName.
    now rewrite (lastSegment_after_slash dir EmptyString eq_refl). }
  split; [|split; [|split; [exact E | split]]].
  - unfold fileName, lastSegment.
    apply stripExtension_noSlash. now apply lastSegmentFrom_noSlash_result.
  - intros Hp.
    assert (Hn : noSlash seg = true) by now apply plainRun_noSlash.
    unfold fileName. rewrite lastSegment_after_slash by exact Hn.
    now apply stripExtension_plain.
  - unfold fileNameOrSound. now rewrite E.
  - intros i. now rewrite E.
Qed.

Lemma fileName_edge_cases_witness :
  fileName "http://host/sounds/clap" = "clap"
  /\ fileName "http://host/sounds/" = EmptyString.
Proof.
  destruct (fileName_edge_cases "http://host/sounds" "clap")
    as (_ & H1 & H2 & _).
  split; [now apply H1 | exact H2].
Defined.

End UrlNameFacts.

Section UrlLoadFacts.
Import JS SamplerEngine UrlLoader.
Local Open Scope Q_scope.

Variable nameOf : string -> string.
Variable decodeAudioData : list Byte.byte -> option AudioBuffer.

Lemma loadSoundFromURL_ok (e : Engine) (i : Z) (url : string)
    (resp : Response) :
  ok resp = true ->
  loadSoundFromURL_with nameOf decodeAudioData e i url resp =
    match loadSound e i (decodeAudioData (concat (body resp)))
                    (Some (nameOf url)) with
    | Normal e' =>
        mkUrlRun (UrlLoaded e')
                 (snd (readBody (contentLength resp) (body resp) 0) ++ [100])
    | Throw err _ =>
        mkUrlRun (UrlThrow err)
                 (snd (readBody (contentLength resp) (body resp) 0))
    end.
Proof.
  intros Hok. unfold loadSoundFromURL_with. rewrite Hok. simpl.
  destruct (chunks_total (contentLength resp) (body resp)) as [Ht Hc].
  destruct (readBody (contentLength resp) (body resp) 0) as [total reps].
  simpl in *. now rewrite Hc.
Qed.

(** X14. When the fetch succeeds, the index is valid and the decoder
    accepts the joined body, [loadSoundFromURL] leaves pad [i] with the
    decoded buffer, the name derived from the URL (the pad's default name
    when that is empty), [loaded = true] and [trimEnd = duration], keeps
    its [trimStart] and gain, leaves the other pads alone, and the last
    value it reports is 100. *)
Theorem loadSoundFromURL_loads (e : Engine) (i : Z) (url : string)
    (resp : Response) (pad : Pad) (buf : AudioBuffer) :
  ok resp = true -> invalidIndex i = false -> padAt e i = Some pad ->
  decodeAudioData (concat (body resp)) = Some buf ->
  exists e',
    outcome (loadSoundFromURL_with nameOf decodeAudioData e i url resp)
      = UrlLoaded e'
    /\ getPad e' i =
         Some (mkPad (index pad) (Some buf)
                     (nameOr (Some (nameOf url)) (defaultName i)) true
                     (trimStart pad) (duration buf) (gain pad))
    /\ (forall j, j <> Z.to_nat i -> e' !! j = e !! j)
    /\ last (reports (loadSoundFromURL_with nameOf decodeAudioData e i url
                                             resp))
       = Some 100.
Proof.
  intros Hok Hi Hp Hd. rewrite (loadSoundFromURL_ok e i url resp Hok), Hd.
  unfold loadSound. rewrite Hi, Hp. simpl.
  eexists. split; [reflexivity|]. split; [|split].
  - rewrite getPad_valid by exact Hi.
    erewrite padAt_storePad_eq by exact Hp. reflexivity.
  - intros j Hj. now apply storePad_other.
  - apply last_snoc.
Qed.

(** X15. [loadSoundFromURL] fails without touching the pads: on a
    response that is not ok it throws the fetch error with the status and
    reports nothing; an invalid pad index or a rejected decode is only
    found after the whole body has been read, so the read loop's reports
    are made and then the call throws. *)
Theorem loadSoundFromURL_fails (e : Engine) (i : Z) (url : string)
    (resp : Response) :
  (ok resp = false ->
   loadSoundFromURL_with nameOf decodeAudioData e i url resp
   = mkUrlRun (UrlFetchError (status resp)) [])
  /\ (ok resp = true -> invalidIndex i = true ->
      loadSoundFromURL_with nameOf decodeAudioData e i url resp
      = mkUrlRun (UrlThrow InvalidPadIndex)
                 (snd (readBody (contentLength resp) (body resp) 0)))
  /\ (ok resp = true -> invalidIndex i = false ->
      decodeAudioData (concat (body resp)) = None ->
      loadSoundFromURL_with nameOf decodeAudioData e i url resp
      = mkUrlRun (UrlThrow DecodeFailure)
                 (snd (readBody (contentLength resp) (body resp) 0))).
Proof.
  split; [|split].
  - intros Hok. unfold loadSoundFromURL_with. now rewrite Hok.
  - intros Hok Hi. rewrite (loadSoundFromURL_ok e i url resp Hok).
    unfold loadSound. now rewrite Hi.
  - intros Hok Hi Hd. rewrite (loadSoundFromURL_ok e i url resp Hok), Hd.
    unfold loadSound. now rewrite Hi.
Qed.

End UrlLoadFacts.

Section UrlLoadScenarios.
Import JS SamplerEngine UrlLoader.
Local Open Scope Q_scope.

Lemma loadSoundFromURL_loads_witness :
  exists e',
    outcome (loadSoundFromURL riffDecoder initializePads 3 kickUrl
                              kickResponse) = UrlLoaded e'
    /\ getPad e' 3 =
         Some (mkPad 3 (Some twoSeconds) "Kick 808X" true 0 2 1)
    /\ (forall j, j <> 3%nat -> e' !! j = initializePads !! j)
    /\ last (reports (loadSoundFromURL riffDecoder initializePads 3 kickUrl
                                        kickResponse)) = Some 100.
Proof.
  apply (loadSoundFromURL_loads fileName riffDecoder initializePads 3 kickUrl
           kickResponse (emptyPad 3) twoSeconds); reflexivity.
Defined.

Lemma loadSoundFromURL_fails_witness :
  loadSoundFromURL riffDecoder initializePads 3 kickUrl
                   (mkResponse false 404 None [])
  = mkUrlRun (UrlFetchError 404) []
  /\ loadSoundFromURL riffDecoder initializePads 16 kickUrl kickResponse
     = mkUrlRun (UrlThrow InvalidPadIndex) [200 # 4; 200 # 4; 400 # 4]
  /\ loadSoundFromURL riffDecoder initializePads 3 kickUrl
                      (mkResponse true 200 None [[Byte.x00]])
     = mkUrlRun (UrlThrow DecodeFailure) [].
Proof.
  split; [|split].
  - apply (proj1 (loadSoundFromURL_fails fileName riffDecoder initializePads 3
                    kickUrl (mkResponse false 404 None []))).
    reflexivity.
  - apply (proj1 (proj2 (loadSoundFromURL_fails fileName riffDecoder
                           initializePads 16 kickUrl kickResponse)));
      reflexivity.
  - apply (proj2 (proj2 (loadSoundFromURL_fails fileName riffDecoder
                           initializePads 3 kickUrl
                           (mkResponse true 200 None [[Byte.x00]]))));
      reflexivity.
Defined.

End UrlLoadScenarios.

(** ** SamplerApp: trim bars and pads *)

Section TrimSyncFacts.
Import JS SamplerEngine Utils SamplerApp.
Local Open Scope Q_scope.

Lemma scale_le (a b d w : Q) :
  0 < d -> 0 <= w -> a <= b -> a / d * w <= b / d * w.
Proof.
  intros Hd Hw Hab. apply Qmult_le_compat_r; [|exact Hw].
  apply Qmult_le_compat_r; [exact Hab|].
  apply Qinv_le_0_compat. now apply Qlt_le_weak.
Qed.

Lemma clamp_bounds (v lo d : Q) :
  lo <= d -> lo <= Qmax lo (Qmin v d) /\ Qmax lo (Qmin v d) <= d.
Proof.
  intros H. split; [apply Q.le_max_l|].
  apply Q.max_lub; [exact H | apply Q.le_min_r].
Qed.

Lemma clamp_inside (v lo d : Q) :
  lo <= v -> v <= d -> Qmax lo (Qmin v d) == v.
Proof.
  intros H1 H2. rewrite (Q.min_l _ _ H2). now apply Q.max_r.
Qed.

Lemma orElse_zero (v : Q) : orElse v 0 == v.
Proof.
  unfold orElse, Num.Qzero. destruct (Qnum v =? 0)%Z eqn:E; [|reflexivity].
  apply Z.eqb_eq in E. unfold Qeq. simpl. lia.
Qed.

Lemma orElse_pos (v d : Q) : 0 < v -> orElse v d = v.
Proof.
  unfold orElse, Num.Qzero, Qlt. simpl. intros H.
  now replace (Qnum v =? 0)%Z with false by lia.
Qed.

Lemma orElse_null (v d : Q) : v == 0 -> orElse v d = d.
Proof.
  unfold orElse, Num.Qzero, Qeq. simpl. intros H.
  now replace (Qnum v =? 0)%Z with true by lia.
Qed.

(** The positions [updateTrimBarsFromPad] gives the bars of a loaded pad. *)
Lemma updateTrimBarsFromPad_loaded (e : Engine) (sel : Z) (width : Q)
    (bars : TrimbarsDrawer.Drawer) (pad : Pad) (buf : AudioBuffer) :
  (sel <? 0)%Z = false -> getPad e sel = Some pad ->
  loaded pad = true -> buffer pad = Some buf ->
  TrimbarsDrawer.x (TrimbarsDrawer.leftTrimBar
                      (updateTrimBarsFromPad e sel width bars))
  = Qmax 0 (Qmin (orElse (trimStart pad) 0) (duration buf))
    / duration buf * width
  /\ TrimbarsDrawer.x (TrimbarsDrawer.rightTrimBar
                         (updateTrimBarsFromPad e sel width bars))
     = Qmax (Qmax 0 (Qmin (orElse (trimStart pad) 0) (duration buf)))
            (Qmin (orElse (trimEnd pad) (duration buf)) (duration buf))
       / duration buf * width.
Proof.
  intros Hs Hp Hl Hb. unfold updateTrimBarsFromPad.
  rewrite Hs, Hp, Hl, Hb. simpl.
  now rewrite !Math_max_Qmax, !Math_min_Qmin.
Qed.

(** X16. Whatever the trim fields of the selected pad are (inverted, out
    of range, zero), [updateTrimBarsFromPad] places the bars in order and
    inside the canvas: [0 <= left.x <= right.x <= width], for a loaded pad
    whose buffer has a positive duration. *)
Theorem updateTrimBarsFromPad_in_canvas (e : Engine) (sel : Z) (width : Q)
    (bars : TrimbarsDrawer.Drawer) (pad : Pad) (buf : AudioBuffer) :
  (0 <= sel)%Z -> getPad e sel = Some pad ->
  loaded pad = true -> buffer pad = Some buf ->
  0 < duration buf -> 0 <= width ->
  0 <= TrimbarsDrawer.x (TrimbarsDrawer.leftTrimBar
                           (updateTrimBarsFromPad e sel width bars))
  /\ TrimbarsDrawer.barsOrdered (updateTrimBarsFromPad e sel width bars)
  /\ TrimbarsDrawer.x (TrimbarsDrawer.rightTrimBar
                         (updateTrimBarsFromPad e sel width bars))
     <= width.
Proof.
  intros Hs Hp Hl Hb Hd Hw.
  destruct (updateTrimBarsFromPad_loaded e sel width bars pad buf)
    as [El Er]; try assumption; [lia|].
  unfold TrimbarsDrawer.barsOrdered. rewrite El, Er.
  set (d := duration buf) in *.
  set (ts := Qmax 0 (Qmin (orElse (trimStart pad) 0) d)).
  set (te := Qmax ts (Qmin (orElse (trimEnd pad) d) d)).
  destruct (clamp_bounds (orElse (trimStart pad) 0) 0 d) as [H0 H1];
    [now apply Qlt_le_weak|]. fold ts in H0, H1.
  destruct (clamp_bounds (orElse (trimEnd pad) d) ts d H1) as [H2 H3].
  fold te in H2, H3.
  assert (Ez : 0 / d * width == 0) by (field; lra).
  assert (Ew : d / d * width == width) by (field; lra).
  split; [|split].
  - eapply Qle_trans; [|apply (scale_le 0 ts d width Hd Hw H0)].
    rewrite Ez. apply Qle_refl.
  - now apply scale_le.
  - eapply Qle_trans; [apply (scale_le te d d width Hd Hw H3)|].
    rewrite Ew. apply Qle_refl.
Qed.

Lemma updateTrimBarsFromPad_in_canvas_witness :
  0 <= TrimbarsDrawer.x (TrimbarsDrawer.leftTrimBar
         (updateTrimBarsFromPad (setTrimPoints loadedOnPad0 0 1.5 0.5) 0 600
                                quarterBars))
  /\ TrimbarsDrawer.barsOrdered
       (updateTrimBarsFromPad (setTrimPoints loadedOnPad0 0 1.5 0.5) 0 600
                              quarterBars)
  /\ TrimbarsDrawer.x (TrimbarsDrawer.rightTrimBar
         (updateTrimBarsFromPad (setTrimPoints loadedOnPad0 0 1.5 0.5) 0 600
                                quarterBars)) <= 600.
Proof.
  apply (updateTrimBarsFromPad_in_canvas
           (setTrimPoints loadedOnPad0 0 1.5 0.5) 0 600 quarterBars
           (mkPad 0 (Some twoSeconds) "kick" true 1.5 0.5 1) twoSeconds);
    try reflexivity; try lia; vm_compute; discriminate.
Defined.

End TrimSyncFacts.

Section MouseUpFacts.
Import JS SamplerEngine Utils SamplerApp.
Local Open Scope Q_scope.

(** The pad [handleMouseUp] writes. *)
Lemma handleMouseUp_loaded (e : Engine) (sel : Z) (width : Q)
    (bars : TrimbarsDrawer.Drawer) (pad : Pad) (buf : AudioBuffer) :
  invalidIndex sel = false -> padAt e sel = Some pad ->
  loaded pad = true -> buffer pad = Some buf ->
  snd (handleMouseUp e sel width bars) =
    Normal (storePad e sel
      (mkPad (index pad) (Some buf) (name pad) true
         (Qmax 0 (pixelToSeconds
                    (TrimbarsDrawer.x (TrimbarsDrawer.leftTrimBar bars))
                    (duration buf) width))
         (Qmin (duration buf)
               (pixelToSeconds
                  (TrimbarsDrawer.x (TrimbarsDrawer.rightTrimBar bars))
                  (duration buf) width))
         (gain pad))).
Proof.
  intros Hi Hp Hl Hb. unfold handleMouseUp, updatePadFromTrimBars. simpl.
  replace (sel <? 0)%Z with false
    by (apply invalidIndex_false in Hi; lia).
  rewrite getPad_valid, Hp, Hl, Hb by exact Hi. simpl.
  now rewrite (setTrimPoints_loaded e sel _ _ pad buf Hi Hp Hl Hb).
Qed.

(** X17. A release with the bars in order right of pixel 0 stops the drag
    and writes onto the selected loaded pad [trimStart], the left bar's
    position converted to seconds, and [trimEnd], the smaller of the
    duration and the right bar's converted position.  Both are between 0
    and what they may be ([trimEnd <= duration]); they are in order
    whenever the left bar's converted position does not pass the
    duration. *)
Theorem mouse_up_writes_ordered_window (e : Engine) (sel : Z) (width : Q)
    (bars : TrimbarsDrawer.Drawer) (pad : Pad) (buf : AudioBuffer) :
  invalidIndex sel = false -> padAt e sel = Some pad ->
  loaded pad = true -> buffer pad = Some buf ->
  0 <= duration buf -> 0 < width ->
  0 <= TrimbarsDrawer.x (TrimbarsDrawer.leftTrimBar bars) ->
  TrimbarsDrawer.barsOrdered bars ->
  TrimbarsDrawer.dragged
    (TrimbarsDrawer.leftTrimBar (fst (handleMouseUp e sel width bars)))
  = false
  /\ TrimbarsDrawer.dragged
       (TrimbarsDrawer.rightTrimBar (fst (handleMouseUp e sel width bars)))
     = false
  /\ exists e' pad',
       snd (handleMouseUp e sel width bars) = Normal e'
       /\ getPad e' sel = Some pad'
       /\ trimStart pad' ==
            pixelToSeconds (TrimbarsDrawer.x (TrimbarsDrawer.leftTrimBar bars))
                           (duration buf) width
       /\ trimEnd pad' =
            Math_min (duration buf)
              (pixelToSeconds
                 (TrimbarsDrawer.x (TrimbarsDrawer.rightTrimBar bars))
                 (duration buf) width)
       /\ 0 <= trimStart pad'
       /\ 0 <= trimEnd pad'
       /\ trimEnd pad' <= duration buf
       /\ (pixelToSeconds (TrimbarsDrawer.x (TrimbarsDrawer.leftTrimBar bars))
                          (duration buf) width <= duration buf ->
           trimStart pad' <= trimEnd pad').
Proof.
  intros Hi Hp Hl Hb Hd Hw H0 Hord.
  split; [reflexivity|]. split; [reflexivity|].
  rewrite (handleMouseUp_loaded e sel width bars pad buf Hi Hp Hl Hb).
  unfold TrimbarsDrawer.barsOrdered in Hord.
  set (xl := TrimbarsDrawer.x (TrimbarsDrawer.leftTrimBar bars)) in *.
  set (xr := TrimbarsDrawer.x (TrimbarsDrawer.rightTrimBar bars)) in *.
  set (d := duration buf) in *.
  assert (Hs0 : 0 <= pixelToSeconds xl d width).
  { rewrite <- (pixelToSeconds_zero d width Hw).
    now apply pixelToSeconds_le. }
  assert (Hse : pixelToSeconds xl d width <= pixelToSeconds xr d width)
    by now apply pixelToSeconds_le.
  assert (Es : Qmax 0 (pixelToSeconds xl d width) == pixelToSeconds xl d width)
    by now apply Q.max_r.
  eexists. eexists. split; [reflexivity|]. split.
  { rewrite getPad_valid by exact Hi. eapply padAt_storePad_eq, Hp. }
  simpl. split; [exact Es|].
  split; [symmetry; apply Math_min_Qmin|].
  split; [apply Q.le_max_l|].
  split; [apply Q.min_glb; [exact Hd | lra]|].
  split; [apply Q.le_min_l|].
  intros Hin. rewrite Es. apply Q.min_glb; [exact Hin | exact Hse].
Qed.

Lemma mouse_up_writes_ordered_window_witness :
  exists e' pad',
    snd (handleMouseUp loadedOnPad0 0 600 quarterBars) = Normal e'
    /\ getPad e' 0 = Some pad'
    /\ trimStart pad' == 0.5 /\ trimEnd pad' == 1.5
    /\ trimStart pad' <= trimEnd pad'.
Proof.
  destruct (mouse_up_writes_ordered_window loadedOnPad0 0 600 quarterBars
              (mkPad 0 (Some twoSeconds) "kick" true 0 2 1) twoSeconds)
    as (_ & _ & e' & pad' & He & Hg & Hs & Ht & _ & _ & _ & Hord);
    try reflexivity; try (vm_compute; discriminate).
  exists e', pad'. repeat split; try assumption.
  - rewrite Hs. reflexivity.
  - rewrite Ht. reflexivity.
  - apply Hord. vm_compute. discriminate.
Defined.

End MouseUpFacts.

Section TrimRoundTrip.
Import JS SamplerEngine Utils SamplerApp.
Local Open Scope Q_scope.

(** X18. A release with the right bar at pixel 0 (and the left bar with
    it) gives the selected loaded pad the empty window
    [trimStart = trimEnd = 0], which plays nothing; but
    [updateTrimBarsFromPad] reads [trimEnd = 0] as unset, so re-reading
    the bars from that pad puts the left bar at 0 and the right bar at
    the full width: the bars then show the whole buffer while the pad
    holds an empty window. *)
Theorem zero_window_reads_as_full (e : Engine) (sel : Z) (width : Q)
    (bars bars' : TrimbarsDrawer.Drawer) (pad : Pad) (buf : AudioBuffer) :
  invalidIndex sel = false -> padAt e sel = Some pad ->
  loaded pad = true -> buffer pad = Some buf ->
  0 < duration buf -> 0 < width ->
  0 <= TrimbarsDrawer.x (TrimbarsDrawer.leftTrimBar bars) ->
  TrimbarsDrawer.barsOrdered bars ->
  TrimbarsDrawer.x (TrimbarsDrawer.rightTrimBar bars) == 0 ->
  exists e' pad' pb,
    snd (handleMouseUp e sel width bars) = Normal e'
    /\ getPad e' sel = Some pad'
    /\ trimStart pad' == 0 /\ trimEnd pad' == 0
    /\ play e' sel = Some pb /\ playDuration pb == 0
    /\ TrimbarsDrawer.x (TrimbarsDrawer.leftTrimBar
                           (updateTrimBarsFromPad e' sel width bars'))
       == 0
    /\ TrimbarsDrawer.x (TrimbarsDrawer.rightTrimBar
                           (updateTrimBarsFromPad e' sel width bars'))
       == width.
Proof.
  intros Hi Hp Hl Hb Hd Hw H0 Hord Hzero.
  rewrite (handleMouseUp_loaded e sel width bars pad buf Hi Hp Hl Hb).
  unfold TrimbarsDrawer.barsOrdered in Hord.
  set (xl := TrimbarsDrawer.x (TrimbarsDrawer.leftTrimBar bars)) in *.
  set (xr := TrimbarsDrawer.x (TrimbarsDrawer.rightTrimBar bars)) in *.
  set (d := duration buf) in *.
  assert (Hxl : xl == 0) by (apply Qle_antisym; lra).
  assert (Ps : pixelToSeconds xl d width == 0).
  { unfold pixelToSeconds. rewrite Hxl. field. lra. }
  assert (Pe : pixelToSeconds xr d width == 0).
  { unfold pixelToSeconds. rewrite Hzero. field. lra. }
  set (s := Qmax 0 (pixelToSeconds xl d width)).
  set (t := Qmin d (pixelToSeconds xr d width)).
  assert (Es : s == 0) by (unfold s; rewrite Ps; reflexivity).
  assert (Et : t == 0).
  { unfold t. rewrite Pe. apply Q.min_r. lra. }
  set (pad' := mkPad (index pad) (Some buf) (name pad) true s t (gain pad)).
  assert (Hsel : (sel <? 0)%Z = false)
    by (apply invalidIndex_false in Hi; lia).
  assert (Hpa : padAt (storePad e sel pad') sel = Some pad')
    by (eapply padAt_storePad_eq, Hp).
  assert (Hg : getPad (storePad e sel pad') sel = Some pad')
    by (rewrite getPad_valid by exact Hi; exact Hpa).
  destruct (updateTrimBarsFromPad_loaded (storePad e sel pad') sel width bars'
              pad' buf Hsel Hg eq_refl eq_refl) as [El Er].
  exists (storePad e sel pad'), pad'.
  exists (_playBuffer buf s t (gain pad)).
  split; [reflexivity|]. split; [exact Hg|].
  split; [exact Es|]. split; [exact Et|].
  split; [unfold play; rewrite Hi, Hpa; reflexivity|].
  split.
  { unfold _playBuffer. simpl. fold d.
    rewrite !Math_max_Qmax, !Math_min_Qmin.
    assert (E1 : Qmax 0 (Qmin s d) == 0).
    { rewrite Es. rewrite (Q.min_l 0 d) by lra. reflexivity. }
    assert (E2 : Qmin t d == 0).
    { rewrite Et. apply Q.min_l. lra. }
    rewrite E2, E1. reflexivity. }
  rewrite El, Er. simpl. fold d.
  assert (Ets : Qmax 0 (Qmin (orElse s 0) d) == 0).
  { rewrite orElse_zero, Es. rewrite (Q.min_l 0 d) by lra. reflexivity. }
  rewrite (orElse_null t d Et).
  assert (Ete : Qmax (Qmax 0 (Qmin (orElse s 0) d)) (Qmin d d) == d).
  { rewrite Ets. rewrite (Q.min_l d d) by lra. apply Q.max_r. lra. }
  split.
  - rewrite Ets. field. lra.
  - rewrite Ete. field. lra.
Qed.

Lemma zero_window_reads_as_full_witness :
  exists e' pad' pb,
    snd (handleMouseUp loadedOnPad0 0 600
           (TrimbarsDrawer.create 600 100 0 0)) = Normal e'
    /\ getPad e' 0 = Some pad'
    /\ trimStart pad' == 0 /\ trimEnd pad' == 0
    /\ play e' 0 = Some pb /\ playDuration pb == 0
    /\ TrimbarsDrawer.x (TrimbarsDrawer.leftTrimBar
                           (updateTrimBarsFromPad e' 0 600 quarterBars))
       == 0
    /\ TrimbarsDrawer.x (TrimbarsDrawer.rightTrimBar
                           (updateTrimBarsFromPad e' 0 600 quarterBars))
       == 600.
Proof.
  apply (zero_window_reads_as_full loadedOnPad0 0 600
           (TrimbarsDrawer.create 600 100 0 0) quarterBars
           (mkPad 0 (Some twoSeconds) "kick" true 0 2 1) twoSeconds);
    try reflexivity; vm_compute; discriminate.
Defined.

End TrimRoundTrip.

Section PlayButtons.
Import JS SamplerEngine Utils SamplerApp.
Local Open Scope Q_scope.

(** X19. [handlePlayFull] on a loaded pad plays the whole buffer, from 0
    for its full duration and through the pad's gain, whatever trim window
    is set, and leaves the pads exactly as they were: the trim fields it
    overwrites for the call are put back. *)
Theorem handlePlayFull_restores (e : Engine) (sel : Z) (pad : Pad)
    (buf : AudioBuffer) :
  invalidIndex sel = false -> padAt e sel = Some pad ->
  loaded pad = true -> buffer pad = Some buf -> 0 <= duration buf ->
  exists pb,
    handlePlayFull e sel = Normal (e, Some pb)
    /\ source pb = buf /\ gainValue pb = gain pad
    /\ offset pb == 0 /\ playDuration pb == duration buf.
Proof.
  intros Hi Hp Hl Hb Hd. unfold handlePlayFull.
  replace (sel >=? 0)%Z with true
    by (apply invalidIndex_false in Hi; lia).
  rewrite getPad_valid, Hp, Hl by exact Hi. simpl. rewrite Hb.
  set (pad2 := set_trimEnd (duration buf) (set_trimStart 0 pad)).
  assert (Hg : padAt (storePad e sel pad2) sel = Some pad2)
    by (eapply padAt_storePad_eq, Hp).
  assert (Hback : storePad (storePad e sel pad2) sel
                    (set_trimEnd (trimEnd pad)
                       (set_trimStart (trimStart pad) pad2)) = e).
  { unfold storePad. rewrite list_insert_insert_eq.
    apply list_insert_id. unfold padAt in Hp. rewrite Hp. f_equal.
    now destruct pad. }
  rewrite Hback. unfold play. rewrite Hi, Hg. simpl. rewrite Hl, Hb.
  eexists. split; [reflexivity|]. unfold _playBuffer. simpl.
  rewrite !Math_max_Qmax, !Math_min_Qmin.
  assert (E0 : Qmax 0 (Qmin 0 (duration buf)) == 0).
  { rewrite (Q.min_l _ _ Hd). apply Q.max_l, Qle_refl. }
  assert (E1 : Qmin (duration buf) (duration buf) == duration buf)
    by apply Q.min_l, Qle_refl.
  repeat split; [exact E0|].
  rewrite E1, E0, (Q.max_r _ _ Hd). ring.
Qed.

Lemma handlePlayFull_restores_witness :
  exists pb,
    handlePlayFull (setTrimPoints loadedOnPad0 0 0.5 1.5) 0
    = Normal (setTrimPoints loadedOnPad0 0 0.5 1.5, Some pb)
    /\ source pb = twoSeconds /\ gainValue pb = 1
    /\ offset pb == 0 /\ playDuration pb == 2.
Proof.
  apply (handlePlayFull_restores (setTrimPoints loadedOnPad0 0 0.5 1.5) 0
           (mkPad 0 (Some twoSeconds) "kick" true 0.5 1.5 1) twoSeconds);
    try reflexivity.
  vm_compute. discriminate.
Defined.

(** X20. [handleResetTrim] on a loaded pad with a buffer of positive
    duration resets the pad's window to the whole buffer and moves the bars
    to the two edges of the canvas. *)
Theorem handleResetTrim_full_width (e : Engine) (sel : Z) (width : Q)
    (bars : TrimbarsDrawer.Drawer) (pad : Pad) (buf : AudioBuffer) :
  invalidIndex sel = false -> padAt e sel = Some pad ->
  loaded pad = true -> buffer pad = Some buf -> 0 < duration buf ->
  getPad (fst (handleResetTrim e sel width bars)) sel
  = Some (mkPad (index pad) (Some buf) (name pad) true 0 (duration buf)
                (gain pad))
  /\ TrimbarsDrawer.x (TrimbarsDrawer.leftTrimBar
                         (snd (handleResetTrim e sel width bars))) == 0
  /\ TrimbarsDrawer.x (TrimbarsDrawer.rightTrimBar
                         (snd (handleResetTrim e sel width bars))) == width.
Proof.
  intros Hi Hp Hl Hb Hd. unfold handleResetTrim.
  assert (Hsel : (sel <? 0)%Z = false)
    by (apply invalidIndex_false in Hi; lia).
  replace (sel >=? 0)%Z with true by lia. simpl.
  rewrite (resetPad_loaded e sel pad buf Hi Hp Hl Hb).
  set (pad' := mkPad (index pad) (Some buf) (name pad) true 0 (duration buf)
                     (gain pad)).
  assert (Hg : getPad (storePad e sel pad') sel = Some pad').
  { rewrite getPad_valid by exact Hi. eapply padAt_storePad_eq, Hp. }
  split; [exact Hg|].
  destruct (updateTrimBarsFromPad_loaded (storePad e sel pad') sel width bars
              pad' buf Hsel Hg eq_refl eq_refl) as [El Er].
  rewrite El, Er. simpl.
  assert (Hdle : 0 <= duration buf) by now apply Qlt_le_weak.
  assert (E0 : Qmax 0 (Qmin (orElse 0 0) (duration buf)) == 0).
  { change (orElse 0 0) with 0. rewrite (Q.min_l _ _ Hdle).
    apply Q.max_l, Qle_refl. }
  assert (E1 : Qmin (orElse (duration buf) (duration buf)) (duration buf)
               == duration buf).
  { rewrite (orElse_pos _ _ Hd). apply Q.min_l, Qle_refl. }
  split.
  - rewrite E0. field. lra.
  - rewrite E1, E0, (Q.max_r _ _ Hdle). field. lra.
Qed.

Lemma handleResetTrim_full_width_witness :
  TrimbarsDrawer.x (TrimbarsDrawer.leftTrimBar
    (snd (handleResetTrim (setTrimPoints loadedOnPad0 0 0.5 1.5) 0 600
                          quarterBars))) == 0
  /\ TrimbarsDrawer.x (TrimbarsDrawer.rightTrimBar
    (snd (handleResetTrim (setTrimPoints loadedOnPad0 0 0.5 1.5) 0 600
                          quarterBars))) == 600.
Proof.
  apply (handleResetTrim_full_width (setTrimPoints loadedOnPad0 0 0.5 1.5)
           0 600 quarterBars
           (mkPad 0 (Some twoSeconds) "kick" true 0.5 1.5 1) twoSeconds);
    reflexivity.
Defined.

End PlayButtons.

(** ** SamplerApp: loading a preset *)

Section BatchFacts.
Import JS SamplerEngine SamplerApp.

Variable decodeAudioData : list Byte.byte -> option AudioBuffer.

Lemma loadOne_spec (e : Engine) (i : Z) (s : Sound) (pad : Pad) :
  invalidIndex i = false -> padAt e i = Some pad ->
  loadOne decodeAudioData e i s
  = (storePad e i (padAfterSound decodeAudioData i s pad),
     loadsOk decodeAudioData s).
Proof.
  intros Hi Hp. unfold loadOne, UrlLoader.loadSoundFromURL_ts, loadsOk,
    padAfterSound, soundLoads.
  destruct (UrlLoader.ok (response s)) eqn:Hok.
  - rewrite (loadSoundFromURL_ok _ decodeAudioData e i (url s) (response s) Hok).
    unfold loadSound. rewrite Hi.
    destruct (decodeAudioData (concat (UrlLoader.body (response s))))
      as [buf|]; simpl.
    + rewrite Hp. simpl. unfold renamePad.
      rewrite getPad_valid by exact Hi.
      erewrite padAt_storePad_eq by exact Hp.
      unfold storePad. now rewrite list_insert_insert_eq.
    + now rewrite (storePad_same e i pad Hp).
  - unfold UrlLoader.loadSoundFromURL_with. rewrite Hok. simpl.
    now rewrite (storePad_same e i pad Hp).
Qed.

Lemma loadFrom_spec (sounds : list Sound) :
  forall (n : nat) (e : Engine),
    (n + length sounds <= 16)%nat -> length e = 16%nat ->
    length (fst (loadFrom decodeAudioData e (Z.of_nat n) sounds)) = 16%nat
    /\ snd (loadFrom decodeAudioData e (Z.of_nat n) sounds)
       = map (loadsOk decodeAudioData) sounds
    /\ forall (k : nat) pad, e !! k = Some pad ->
         fst (loadFrom decodeAudioData e (Z.of_nat n) sounds) !! k
         = Some (if (n <=? k)%nat
                 then match sounds !! (k - n)%nat with
                      | Some s => padAfterSound decodeAudioData (Z.of_nat k)
                                                s pad
                      | None => pad
                      end
                 else pad).
Proof.
  induction sounds as [|s rest IH]; intros n e Hn Hlen; simpl.
  - split; [exact Hlen|]. split; [reflexivity|].
    intros k pad Hk. rewrite Hk. now destruct (n <=? k)%nat.
  - simpl in Hn.
    destruct (lookup_lt_is_Some_2 e n) as [padn Hpn]; [lia|].
    assert (Hi : invalidIndex (Z.of_nat n) = false)
      by (apply invalidIndex_false; lia).
    assert (Hp : padAt e (Z.of_nat n) = Some padn)
      by (unfold padAt; now rewrite Nat2Z.id).
    rewrite (loadOne_spec e (Z.of_nat n) s padn Hi Hp).
    set (e1 := storePad e (Z.of_nat n)
                 (padAfterSound decodeAudioData (Z.of_nat n) s padn)).
    assert (Hlen1 : length e1 = 16%nat)
      by (unfold e1; now rewrite length_storePad).
    replace (Z.of_nat n + 1)%Z with (Z.of_nat (S n)) by lia.
    destruct (IH (S n) e1) as (Hl & Hr & Hk); [lia | exact Hlen1 |].
    destruct (loadFrom decodeAudioData e1 (Z.of_nat (S n)) rest)
      as [e2 results]. cbn [fst snd] in *.
    split; [exact Hl|]. split; [now rewrite Hr|].
    intros k pad Hpk. destruct (Nat.eq_dec k n) as [->|Hne].
    + assert (pad = padn) as -> by congruence.
      rewrite (Hk n (padAfterSound decodeAudioData (Z.of_nat n) s padn)).
      * replace (S n <=? n)%nat with false by (symmetry; apply Nat.leb_gt; lia).
        rewrite Nat.leb_refl, Nat.sub_diag. reflexivity.
      * unfold e1, storePad. rewrite Nat2Z.id.
        apply list_lookup_insert_eq. lia.
    + rewrite (Hk k pad).
      * destruct (n <=? k)%nat eqn:E1.
        -- apply Nat.leb_le in E1.
           replace (S n <=? k)%nat with true by (symmetry; apply Nat.leb_le; lia).
           replace (k - n)%nat with (S (k - S n)) by lia. reflexivity.
        -- apply Nat.leb_gt in E1.
           now replace (S n <=? k)%nat with false
             by (symmetry; apply Nat.leb_gt; lia).
      * unfold e1. rewrite storePad_other by (rewrite Nat2Z.id; exact Hne).
        exact Hpk.
Qed.

(** X21. A batch of preset sounds loads at most 16 of them, sound [k] onto
    pad [k], and each load stands alone: a sound whose fetch or decode fails
    leaves its pad as it was, every other sound of the first 16 leaves its
    pad loaded under the preset's name for it (or "Sound k+1"), pads beyond
    the batch are untouched, and the batch reports the number of sounds that
    loaded out of the number tried, failing as a whole only when none
    loaded. *)
Theorem loadPresetSounds_isolates (e : Engine) (sounds : list Sound) :
  length e = 16%nat -> sounds <> [] ->
  length (fst (loadPresetSounds decodeAudioData e sounds)) = 16%nat
  /\ (forall (k : nat) pad, e !! k = Some pad ->
        fst (loadPresetSounds decodeAudioData e sounds) !! k
        = Some match take 16 sounds !! k with
               | Some s => padAfterSound decodeAudioData (Z.of_nat k) s pad
               | None => pad
               end)
  /\ snd (loadPresetSounds decodeAudioData e sounds)
     = if (length (filter (fun r => r = true)
                          (map (loadsOk decodeAudioData) (take 16 sounds)))
           =? 0)%nat
       then BatchError "Failed to load any sounds"
       else BatchLoaded
              (length (filter (fun r => r = true)
                              (map (loadsOk decodeAudioData) (take 16 sounds))))
              (length (take 16 sounds)).
Proof.
  intros Hlen Hne. unfold loadPresetSounds.
  destruct sounds as [|s0 rest]; [now elim Hne|].
  set (kept := take 16 (s0 :: rest)).
  destruct (loadFrom_spec kept 0 e) as (Hl & Hr & Hk).
  { unfold kept. rewrite length_take. lia. }
  { exact Hlen. }
  change (Z.of_nat 0) with 0%Z in *.
  destruct (loadFrom decodeAudioData e 0 kept) as [e' results].
  cbn [fst snd] in *. subst results.
  split; [exact Hl|]. split; [|reflexivity].
  intros k pad Hp. rewrite (Hk k pad Hp). now rewrite Nat.sub_0_r.
Qed.

End BatchFacts.

Section BatchScenario.
Import JS SamplerEngine SamplerApp.

Lemma loadPresetSounds_isolates_witness :
  snd (loadPresetSounds UrlLoader.riffDecoder initializePads nineSounds)
  = BatchLoaded 8 9
  /\ fst (loadPresetSounds UrlLoader.riffDecoder initializePads nineSounds)
       !! 3%nat = Some (emptyPad 3)
  /\ fst (loadPresetSounds UrlLoader.riffDecoder initializePads nineSounds)
       !! 4%nat = Some (mkPad 4 (Some twoSeconds) "e" true 0 2 1).
Proof.
  destruct (loadPresetSounds_isolates UrlLoader.riffDecoder initializePads
              nineSounds) as (_ & Hpads & Hout).
  - reflexivity.
  - discriminate.
  - split; [rewrite Hout; reflexivity|]. split.
    + rewrite (Hpads 3%nat (emptyPad 3) eq_refl). reflexivity.
    + rewrite (Hpads 4%nat (emptyPad 4) eq_refl). reflexivity.
Defined.

End BatchScenario.

(** ** WaveformDrawer: [max] and the scale of the drawing *)

Section MaxFacts.
Import JS Num WaveformDrawer.
Local Open Scope Q_scope.

Lemma max_from (qs : list Q) :
  forall a : Q,
    exists m,
      fold_left (fun m v => if jgt v m then v else m) (map Fin qs) (Fin a)
      = Fin m
      /\ (m = a \/ In m qs) /\ a <= m /\ forall v, In v qs -> v <= m.
Proof.
  induction qs as [|q qs IH]; intros a; simpl.
  - exists a. repeat split; auto using Qle_refl. intros v [].
  - destruct (Qltb a q) eqn:E.
    + apply Qltb_lt in E. destruct (IH q) as (m & Hm & Hin & Hle & Hub).
      exists m. split; [exact Hm|]. split; [|split].
      * right. destruct Hin as [->|Hin]; auto.
      * eapply Qle_trans; [apply Qlt_le_weak, E | exact Hle].
      * intros v [<-|Hv]; auto.
    + apply Qltb_ge in E. destruct (IH a) as (m & Hm & Hin & Hle & Hub).
      exists m. split; [exact Hm|]. split; [|split].
      * destruct Hin as [->|Hin]; auto.
      * exact Hle.
      * intros v [<-|Hv]; auto. eapply Qle_trans; [exact E | exact Hle].
Qed.

Lemma max_finite (qs : list Q) :
  qs <> [] ->
  exists m, max (map Fin qs) = Fin m /\ In m qs /\ forall v, In v qs -> v <= m.
Proof.
  destruct qs as [|q qs]; [intros H; now elim H|]. intros _.
  unfold max. simpl. destruct (max_from qs q) as (m & Hm & Hin & Hle & Hub).
  exists m. split; [exact Hm|]. split.
  - destruct Hin as [->|Hin]; [now left | now right].
  - intros v [<-|Hv]; auto.
Qed.

(** X22. [max] returns -Infinity for an empty array, skips NaN entries,
    and for a non-empty array of finite values returns one of them that is
    at least as large as every other. *)
Theorem max_is_maximum (qs : list Q) (l1 l2 : list jsnum) :
  max [] = NInf
  /\ max (l1 ++ NaN :: l2) = max (l1 ++ l2)
  /\ (qs <> [] ->
      exists m, max (map Fin qs) = Fin m
        /\ In m qs /\ forall v, In v qs -> v <= m).
Proof.
  split; [reflexivity|]. split.
  - unfold max. rewrite !fold_left_app. simpl.
    now destruct (fold_left _ l1 NInf).
  - apply max_finite.
Qed.

Lemma max_is_maximum_witness :
  exists m, max (map Fin [0.25; 1; 0.5]) = Fin m
    /\ In m [0.25; 1; 0.5] /\ forall v, In v [0.25; 1; 0.5] -> v <= m.
Proof.
  apply (proj2 (proj2 (max_is_maximum [0.25; 1; 0.5] [] []))).
  discriminate.
Defined.

(** X23. The drawing keeps the order of the envelope.  For an envelope
    of non-negative finite peaks whose largest value is positive (peaks
    are float32 values, so it is at least 2^-149) and a positive height of
    at most 2^53, every vertex offset [Math.round(peak * coef)] is a whole
    number that is not negative, and a column with a larger peak never
    gets a smaller offset: the tallest columns are those of the largest
    peak. *)
Theorem drawWaveform_keeps_order (qs : list Q) (height m : Q) (i j : nat)
    (qi qj : Q) :
  Forall (fun v => 0 <= v) qs -> 0 < height -> height <= inject_Z (2 ^ 53) ->
  max (map Fin qs) = Fin m -> 1 / inject_Z (2 ^ 149) <= m ->
  qs !! i = Some qi -> qs !! j = Some qj -> qi <= qj ->
  exists zi zj,
    offsetAt (map Fin qs) (coefOf (map Fin qs) height) i = Fin (inject_Z zi)
    /\ offsetAt (map Fin qs) (coefOf (map Fin qs) height) j
       = Fin (inject_Z zj)
    /\ (0 <= zi)%Z /\ (zi <= zj)%Z.
Proof.
  intros Hpos Hh _ Hmax Hm Hqi Hqj Hle.
  assert (Hm0 : 0 < m).
  { eapply Qlt_le_trans; [|exact Hm]. reflexivity. }
  assert (Hq0 : 0 <= qi).
  { eapply Forall_lookup_1 in Hpos; [exact Hpos | exact Hqi]. }
  assert (Ez : Qzero (2 * m) = false).
  { unfold Qzero. apply Z.eqb_neq. unfold Qlt in Hm0. simpl in *. lia. }
  assert (Hc : 0 <= height / (2 * m)).
  { apply Qle_shift_div_l; lra. }
  exists (Qfloor (qi * (height / (2 * m)) + (1 # 2))),
         (Qfloor (qj * (height / (2 * m)) + (1 # 2))).
  split; [|split; [|split]].
  - unfold offsetAt, peakAt, coefOf. rewrite Hmax, lookup_map, Hqi. simpl.
    rewrite Ez. reflexivity.
  - unfold offsetAt, peakAt, coefOf. rewrite Hmax, lookup_map, Hqj. simpl.
    rewrite Ez. reflexivity.
  - change 0%Z with (Qfloor 0). apply Qfloor_resp_le.
    assert (0 <= qi * (height / (2 * m)))
      by (apply Qmult_le_0_compat; assumption).
    lra.
  - apply Qfloor_resp_le.
    assert (qi * (height / (2 * m)) <= qj * (height / (2 * m)))
      by (apply Qmult_le_compat_r; assumption).
    lra.
Qed.

Lemma drawWaveform_keeps_order_witness :
  exists zi zj,
    offsetAt (map Fin [0.25; 1; 0.5]) (coefOf (map Fin [0.25; 1; 0.5]) 100) 2
    = Fin (inject_Z zi)
    /\ offsetAt (map Fin [0.25; 1; 0.5]) (coefOf (map Fin [0.25; 1; 0.5]) 100) 1
       = Fin (inject_Z zj)
    /\ (0 <= zi)%Z /\ (zi <= zj)%Z.
Proof.
  apply (drawWaveform_keeps_order [0.25; 1; 0.5] 100 1 2 1 0.5 1).
  - repeat constructor; discriminate.
  - reflexivity.
  - vm_compute. discriminate.
  - reflexivity.
  - vm_compute. discriminate.
  - reflexivity.
  - reflexivity.
  - vm_compute. discriminate.
Defined.

End MaxFacts.

(** ** WaveformDrawer: the frontend's [getPeaksAsync] on short buffers *)

Section AsyncFacts.
Import JS Num WaveformDrawer.

Lemma blockLoop_length (rawData : list Q) (blockSize : Z) (n : nat) :
  forall (i : Z) (pk : list jsnum),
    length (blockLoop rawData blockSize n i pk) = length pk.
Proof.
  induction n as [|n IH]; intros i pk; simpl; [reflexivity|].
  rewrite IH. apply length_insert.
Qed.

Lemma blockLoop_empty_blocks (rawData : list Q) (n : nat) :
  forall (i r : nat),
    blockLoop rawData 0 n (Z.of_nat i)
              (replicate i NaN ++ replicate (n + r) (Fin 0))
    = replicate (i + n) NaN ++ replicate r (Fin 0).
Proof.
  induction n as [|n IH]; intros i r.
  - simpl. now rewrite Nat.add_0_r.
  - cbn [blockLoop]. rewrite Nat2Z.id.
    change (Z.to_nat 0) with 0%nat. cbn [sumLoop].
    change (jdiv (Fin 0) (Fin (inject_Z 0))) with NaN.
    rewrite insert_app_r_alt by (rewrite length_replicate; lia).
    rewrite length_replicate, Nat.sub_diag.
    change (<[0%nat:=NaN]> (replicate (S n + r) (Fin 0)))
      with (NaN :: replicate (n + r) (Fin 0)).
    replace (Z.of_nat i + 1)%Z with (Z.of_nat (S i)) by lia.
    replace (replicate i NaN ++ NaN :: replicate (n + r) (Fin 0))
      with (replicate (S i) NaN ++ replicate (n + r) (Fin 0)).
    + rewrite IH. f_equal. f_equal. lia.
    + rewrite replicate_S_end, <- app_assoc. reflexivity.
Qed.

Lemma max_all_NaN (n : nat) : max (replicate n NaN) = NInf.
Proof.
  unfold max. induction n as [|n IH]; simpl; [reflexivity | exact IH].
Qed.

(** X24. [getPeaksAsync] always produces one entry per pixel column; when
    channel 0 holds fewer samples than the canvas has columns the block
    size is 0, every entry is 0/0 = NaN, and [_drawWaveform] then computes
    NaN for every vertex offset. *)
Theorem getPeaksAsync_short_buffer (buf : AudioBuffer) (width : Z)
    (d : Drawer) (height : Q) :
  (0 < width)%Z ->
  length (getPeaksAsync buf width) = Z.to_nat width
  /\ ((Z.of_nat (length (nth 0 (channelData buf) [])) < width)%Z ->
      getPeaksAsync buf width = replicate (Z.to_nat width) NaN
      /\ (displayWidth d = width ->
          vertexOffsets d (getPeaksAsync buf width) height
          = replicate (Z.to_nat width) NaN)).
Proof.
  intros Hw. split.
  - unfold getPeaksAsync. rewrite blockLoop_length. apply length_replicate.
  - intros Hshort.
    assert (E : getPeaksAsync buf width = replicate (Z.to_nat width) NaN).
    { unfold getPeaksAsync.
      assert (Hb : Qfloor (inject_Z (Z.of_nat (length (nth 0 (channelData buf) [])))
                           / inject_Z width) = 0%Z).
      { rewrite <- Zdiv_Qdiv. apply Z.div_small. lia. }
      rewrite Hb.
      pose proof (blockLoop_empty_blocks (nth 0 (channelData buf) [])
                    (Z.to_nat width) 0 0) as H.
      simpl in H. rewrite Nat.add_0_r, app_nil_r in H. exact H. }
    split; [exact E|]. intros Hd. rewrite E. unfold vertexOffsets.
    rewrite Hd. unfold coefOf. rewrite max_all_NaN.
    assert (Hc : jdiv (Fin height) (jmul (Fin 2) NInf) = Fin 0) by reflexivity.
    rewrite Hc. clear E.
    generalize (Z.to_nat width) as n. intros n.
    apply list_eq. intros i. rewrite list_lookup_fmap.
    destruct (decide (i < n)%nat) as [Hi|Hi].
    + rewrite lookup_seq_lt by exact Hi. rewrite lookup_replicate_2 by exact Hi.
      simpl. unfold offsetAt, peakAt.
      rewrite lookup_replicate_2 by exact Hi. reflexivity.
    + rewrite lookup_seq_ge by lia. simpl. symmetry.
      apply lookup_replicate_None. lia.
Qed.

Lemma getPeaksAsync_short_buffer_witness :
  length (getPeaksAsync stereoPair 4) = Z.to_nat 4
  /\ ((Z.of_nat (length (nth 0 (channelData stereoPair) [])) < 4)%Z ->
      getPeaksAsync stereoPair 4 = replicate (Z.to_nat 4) NaN
      /\ (displayWidth (blankDrawer 4 100) = 4%Z ->
          vertexOffsets (blankDrawer 4 100)
                        (getPeaksAsync stereoPair 4) 100
          = replicate (Z.to_nat 4) NaN)).
Proof.
  apply (getPeaksAsync_short_buffer stereoPair 4
           (blankDrawer 4 100) 100).
  reflexivity.
Defined.

End AsyncFacts.

(** ** WaveformDrawer: the range of the chunked envelope *)

Section EnvelopeRange.
Import JS Num WaveformDrawer.
Local Open Scope Q_scope.

Lemma maxAbs_lub (l : list Q) (M : Q) :
  0 <= M -> (forall v, In v l -> Qabs v <= M) -> maxAbs l <= M.
Proof.
  intros HM. induction l as [|a l IH]; simpl; intros H; [exact HM|].
  apply Q.max_lub; [apply H; now left | apply IH; intros v Hv; apply H; now right].
Qed.

Lemma samplesAt_In (chan : list Q) (positions : list Z) (v : Q) :
  In v (samplesAt chan positions) -> In v chan.
Proof.
  unfold samplesAt. intros H. apply list_elem_of_In in H.
  apply list_elem_of_omap in H. destruct H as (j & _ & Hj).
  destruct (j <? 0)%Z; [discriminate|].
  apply list_elem_of_In. eapply list_elem_of_lookup_2, Hj.
Qed.

Lemma Qsum_bounds (l : list Q) (M : Q) :
  Forall (fun x => 0 <= x <= M) l ->
  0 <= Qsum l <= inject_Z (Z.of_nat (length l)) * M.
Proof.
  induction 1 as [|x l [Hx0 HxM] _ [IH0 IHM]].
  - change (0 <= 0 <= 0 * M). lra.
  - cbn [Qsum fold_right length]. fold (Qsum l).
    rewrite Nat2Z.inj_succ. unfold Z.succ. rewrite inject_Z_plus.
    change (inject_Z 1) with 1. split; lra.
Qed.

Lemma mean_bounds (l : list Q) (M : Q) :
  0 <= M -> Forall (fun x => 0 <= x <= M) l -> 0 <= mean l <= M.
Proof.
  intros HM Hl. destruct (Qsum_bounds l M Hl) as [H0 H1]. unfold mean.
  destruct l as [|x l].
  - simpl. split; [discriminate | exact HM].
  - assert (Hn : 0 < inject_Z (Z.of_nat (length (x :: l)))).
    { change 0 with (inject_Z 0). rewrite <- Zlt_Qlt. simpl. lia. }
    split.
    + apply Qle_shift_div_l; [exact Hn | lra].
    + apply Qle_shift_div_r; [exact Hn | lra].
Qed.

Lemma envelopeEntry_bounds (buf : AudioBuffer) (width step i : Z) (M : Q) :
  0 <= M ->
  (forall chan v, In chan (channelData buf) -> In v chan -> Qabs v <= M) ->
  0 <= envelopeEntry buf width step i <= M.
Proof.
  intros HM Hb. unfold envelopeEntry. apply mean_bounds; [exact HM|].
  apply Forall_forall. intros x Hx. apply list_elem_of_In in Hx.
  apply in_map_iff in Hx. destruct Hx as (chan & <- & Hchan).
  unfold blockPeak. split; [apply maxAbs_nonneg|].
  apply maxAbs_lub; [exact HM|]. intros v Hv.
  apply (Hb chan v Hchan). eapply samplesAt_In, Hv.
Qed.

(** X25. When no sample of the buffer exceeds [M] in absolute value, every
    entry of the envelope that [_getPeaksChunked] hands to its callback is
    a finite number between 0 and [M]: for audio in [-1, 1] the envelope
    lies in [0, 1]. *)
Theorem getPeaksChunked_range (buf : AudioBuffer) (width : Z)
    (step : option Z) (fuel : nat) (M : Q) :
  (0 < width)%Z -> (0 <= length_ buf)%Z ->
  (length_ buf + width <= 2147483648)%Z ->
  (0 < sampleStepOf step (sampleSizeOf buf width))%Z ->
  (Z.to_nat (length_ buf + width) < fuel)%nat ->
  0 <= M ->
  (forall chan v, In chan (channelData buf) -> In v chan -> Qabs v <= M) ->
  exists pk,
    _getPeaksChunked fuel buf width step = Some pk
    /\ forall i v, pk !! i = Some v -> exists q, v = Fin q /\ 0 <= q <= M.
Proof.
  intros Hw Hl Hfit Hstep Hfuel HM Hb.
  destruct (getPeaksChunked_mean_of_peaks buf width step fuel
              Hw Hl Hfit Hstep Hfuel) as (pk & Hpk & Hlen & Hent).
  exists pk. split; [exact Hpk|]. intros i v Hv.
  assert (Hi : (i < length pk)%nat) by (eapply lookup_lt_Some, Hv).
  destruct (Hent (Z.of_nat i)) as (q & Hq & Eq); [lia|].
  rewrite Nat2Z.id, Hv in Hq. injection Hq as ->.
  exists q. split; [reflexivity|].
  destruct (envelopeEntry_bounds buf width
              (sampleStepOf step (sampleSizeOf buf width)) (Z.of_nat i) M HM Hb)
    as [H0 H1].
  rewrite Eq. split; assumption.
Qed.

Lemma getPeaksChunked_range_witness :
  exists pk,
    _getPeaksChunked 4 stereoPair 1 (Some 1%Z) = Some pk
    /\ forall i v, pk !! i = Some v -> exists q, v = Fin q /\ 0 <= q <= 1.
Proof.
  apply (getPeaksChunked_range stereoPair 1 (Some 1%Z) 4 1).
  - reflexivity.
  - discriminate.
  - discriminate.
  - reflexivity.
  - simpl. lia.
  - discriminate.
  - intros chan v [<-|[<-|[]]] Hv; simpl in Hv;
      repeat (destruct Hv as [<-|Hv]; [discriminate|]); destruct Hv.
Defined.

End EnvelopeRange.

(** ** TrimbarsDrawer: where the bars can go *)

Section TrimbarRange.
Import JS TrimbarsDrawer.
Local Open Scope Q_scope.

Ltac split_ifs :=
  repeat match goal with
         | |- context [if ?b then _ else _] => destruct b eqn:?; simpl
         end.

Ltac use_tests :=
  repeat match goal with
         | H : (_ && _)%bool = true |- _ =>
             apply andb_true_iff in H; destruct H
         | H : Qltb _ _ = true |- _ => apply Qltb_lt in H
         | H : Qltb _ _ = false |- _ => apply Qltb_ge in H
         end.

Lemma clamp_move_inCanvas (w : Q) (d : Drawer) (m : MousePos) :
  0 <= w ->
  canvasWidth d = w /\ 0 <= x (leftTrimBar d)
  /\ x (leftTrimBar d) <= x (rightTrimBar d) /\ x (rightTrimBar d) <= w ->
  let d' := Clamp.moveTrimBars d m in
  canvasWidth d' = w /\ 0 <= x (leftTrimBar d')
  /\ x (leftTrimBar d') <= x (rightTrimBar d') /\ x (rightTrimBar d') <= w.
Proof.
  intros Hw (Hc & H0 & Hlr & Hr). unfold Clamp.moveTrimBars.
  destruct (clamp_highlight_keeps d m) as (Hl' & Hr' & _ & _ & Hc').
  simpl in Hl', Hr', Hc'.
  set (d1 := Clamp.highLightTrimBarsWhenClose d m) in *.
  rewrite Hc', Hc.
  pose proof (Math_max_l 0 (Math_min (mx m) w)) as Hc0.
  assert (Hcw : Math_max 0 (Math_min (mx m) w) <= w).
  { rewrite Math_max_Qmax. apply Q.max_lub; [exact Hw | apply Math_min_r]. }
  set (c := Math_max 0 (Math_min (mx m) w)) in *. clearbody c.
  rewrite <- Hl' in H0, Hlr. rewrite <- Hr' in Hlr, Hr. rewrite <- Hc' in Hc.
  clearbody d1. clear Hl' Hr' Hc'.
  destruct d1 as [[xl cl sl el gl] [xr cr sr er gr] w1 h1]. simpl in *.
  split_ifs; use_tests; simpl in *; use_tests;
    repeat split; try assumption; try lra.
Qed.

Lemma clamp_handle_inCanvas (w : Q) (d : Drawer) (ev : Event) :
  0 <= w ->
  canvasWidth d = w /\ 0 <= x (leftTrimBar d)
  /\ x (leftTrimBar d) <= x (rightTrimBar d) /\ x (rightTrimBar d) <= w ->
  let d' := handle clampPolicy d ev in
  canvasWidth d' = w /\ 0 <= x (leftTrimBar d')
  /\ x (leftTrimBar d') <= x (rightTrimBar d') /\ x (rightTrimBar d') <= w.
Proof.
  intros Hw H. destruct ev as [m| |]; simpl.
  - now apply clamp_move_inCanvas.
  - destruct H as (Hc & H0 & Hlr & Hr). unfold startDrag.
    split_ifs; repeat split; assumption.
  - destruct H as (Hc & H0 & Hlr & Hr). unfold Clamp.stopDrag.
    destruct d as [[xl cl sl el gl] [xr cr sr er gr] w1 h1]. simpl in *.
    split_ifs; use_tests; simpl in *; use_tests;
      repeat split; try assumption; try lra.
Qed.

Lemma clamp_session_inCanvas (w : Q) (evs : list Event) :
  0 <= w ->
  forall d,
    canvasWidth d = w /\ 0 <= x (leftTrimBar d)
    /\ x (leftTrimBar d) <= x (rightTrimBar d) /\ x (rightTrimBar d) <= w ->
    let d' := fold_left (handle clampPolicy) evs d in
    canvasWidth d' = w /\ 0 <= x (leftTrimBar d')
    /\ x (leftTrimBar d') <= x (rightTrimBar d') /\ x (rightTrimBar d') <= w.
Proof.
  intros Hw. induction evs as [|ev evs IH]; intros d H; simpl.
  - exact H.
  - apply IH. now apply clamp_handle_inCanvas.
Qed.

(** X26. With the handlers of Assignment_Solution, bars that start
    ordered inside the canvas stay ordered inside it through any sequence
    of pointer events, wherever the pointer goes, and the recorded canvas
    width does not change. *)
Theorem clamp_bars_stay_in_canvas (d : Drawer) (evs : list Event) :
  0 <= x (leftTrimBar d) ->
  x (leftTrimBar d) <= x (rightTrimBar d) ->
  x (rightTrimBar d) <= canvasWidth d ->
  let d' := fold_left (handle clampPolicy) evs d in
  canvasWidth d' = canvasWidth d
  /\ 0 <= x (leftTrimBar d')
  /\ x (leftTrimBar d') <= x (rightTrimBar d')
  /\ x (rightTrimBar d') <= canvasWidth d.
Proof.
  intros H0 Hlr Hr.
  apply (clamp_session_inCanvas (canvasWidth d) evs); [lra|].
  repeat split; assumption.
Qed.

Lemma clamp_bars_stay_in_canvas_witness :
  let d' := fold_left (handle clampPolicy)
              (crossingSession ++ [PointerMove (mkMousePos 900 18)]) closeBars in
  canvasWidth d' = canvasWidth closeBars
  /\ 0 <= x (leftTrimBar d')
  /\ x (leftTrimBar d') <= x (rightTrimBar d')
  /\ x (rightTrimBar d') <= canvasWidth closeBars.
Proof.
  apply (clamp_bars_stay_in_canvas closeBars
           (crossingSession ++ [PointerMove (mkMousePos 900 18)]));
    discriminate.
Defined.

(** The hit test of Assignment_Solution selects at most one bar. *)
Lemma hit_one (d : Drawer) (m : MousePos) :
  selected (leftTrimBar (Clamp.highLightTrimBarsWhenClose d m))
  && selected (rightTrimBar (Clamp.highLightTrimBarsWhenClose d m)) = false.
Proof.
  unfold Clamp.highLightTrimBarsWhenClose.
  destruct (distanceBelow (mx m) (my m) (x (leftTrimBar d)) 18 25);
    destruct (selected (rightTrimBar d)); simpl;
    destruct (distanceBelow (mx m) (my m) (x (rightTrimBar d)) 18 25);
    reflexivity.
Qed.

(** One move of the TypeScript port while only the left bar is held. *)
Lemma swap_move_left_held (d : Drawer) (m : MousePos) :
  dragged (leftTrimBar d) = true -> dragged (rightTrimBar d) = false ->
  let d' := Swap.moveTrimBars d m in
  dragged (leftTrimBar d') = true /\ dragged (rightTrimBar d') = false
  /\ x (leftTrimBar d') = Qmin (mx m) (x (rightTrimBar d))
  /\ x (rightTrimBar d') = Qmax (x (rightTrimBar d)) (mx m).
Proof.
  intros Hl Hr. rewrite <- Math_min_Qmin, <- Math_max_Qmax.
  destruct d as [[xl cl sl el gl] [xr cr sr er gr] w1 h1]. simpl in *.
  subst gl gr.
  unfold Swap.moveTrimBars, Swap.highLightTrimBarsWhenClose, Math_min, Math_max.
  simpl. destruct (Qltb xr (mx m)); simpl; auto.
Qed.

Lemma swap_session_left_held (ms : list MousePos) :
  forall d,
    dragged (leftTrimBar d) = true -> dragged (rightTrimBar d) = false ->
    let d' := fold_left Swap.moveTrimBars ms d in
    dragged (leftTrimBar d') = true /\ dragged (rightTrimBar d') = false
    /\ x (rightTrimBar d')
       = fold_left (fun r m => Qmax r (mx m)) ms (x (rightTrimBar d)).
Proof.
  induction ms as [|m ms IH]; intros d Hl Hr; simpl; [auto|].
  destruct (swap_move_left_held d m Hl Hr) as (Hl' & Hr' & _ & Hx).
  destruct (IH _ Hl' Hr') as (Hl2 & Hr2 & Hx2). simpl in *.
  rewrite Hx2, Hx. auto.
Qed.

(** X27. In the TypeScript port, while only the left bar is held, the
    right bar is pushed by the pointer and never comes back: after any
    sequence of moves it stands at the largest of its starting position
    and all pointer positions so far, and the left bar stands at the
    smaller of the last pointer position and where the right bar stood
    before that move. *)
Theorem swap_drag_pushes_right (d : Drawer) (ms : list MousePos)
    (m : MousePos) :
  dragged (leftTrimBar d) = true -> dragged (rightTrimBar d) = false ->
  let pushed := fold_left (fun r m => Qmax r (mx m)) ms (x (rightTrimBar d)) in
  let d' := fold_left Swap.moveTrimBars (ms ++ [m]) d in
  x (rightTrimBar d') = Qmax pushed (mx m)
  /\ x (leftTrimBar d') = Qmin (mx m) pushed
  /\ x (rightTrimBar d) <= x (rightTrimBar d').
Proof.
  intros Hl Hr. simpl. rewrite fold_left_app. simpl.
  destruct (swap_session_left_held ms d Hl Hr) as (Hl' & Hr' & Hx).
  simpl in Hx.
  destruct (swap_move_left_held (fold_left Swap.moveTrimBars ms d) m Hl' Hr')
    as (_ & _ & Hxl & Hxr). simpl in Hxl, Hxr.
  rewrite Hxl, Hxr, Hx. repeat split.
  eapply Qle_trans; [|apply Q.le_max_l].
  clear. generalize (x (rightTrimBar d)) as r.
  induction ms as [|m ms IH]; intros r; simpl; [apply Qle_refl|].
  eapply Qle_trans; [apply (Q.le_max_l r (mx m)) | apply IH].
Qed.

Lemma swap_drag_pushes_right_witness :
  let d := fold_left (handle swapPolicy)
             [PointerMove (mkMousePos 130 0); PointerDown]
             (create 600 100 100 200) in
  let ms := [mkMousePos 300 0; mkMousePos 250 0] in
  let m := mkMousePos 150 0 in
  let pushed := fold_left (fun r m => Qmax r (mx m)) ms (x (rightTrimBar d)) in
  let d' := fold_left Swap.moveTrimBars (ms ++ [m]) d in
  x (rightTrimBar d') = Qmax pushed (mx m)
  /\ x (leftTrimBar d') = Qmin (mx m) pushed
  /\ x (rightTrimBar d) <= x (rightTrimBar d').
Proof.
  apply (swap_drag_pushes_right
           (fold_left (handle swapPolicy)
              [PointerMove (mkMousePos 130 0); PointerDown]
              (create 600 100 100 200))
           [mkMousePos 300 0; mkMousePos 250 0] (mkMousePos 150 0));
    reflexivity.
Defined.

(** X28. Under either policy, after any pointer session that started
    from ordered bars, releasing the pointer leaves no bar held and moves
    no bar: the positions written back to the pad are the ones the last
    move left. *)
Theorem release_keeps_positions (p : Policy) (d : Drawer)
    (evs : list Event) :
  p = clampPolicy \/ p = swapPolicy ->
  barsOrdered d ->
  let s := fold_left (handle p) evs d in
  dragged (leftTrimBar (onUp p s)) = false
  /\ dragged (rightTrimBar (onUp p s)) = false
  /\ x (leftTrimBar (onUp p s)) = x (leftTrimBar s)
  /\ x (rightTrimBar (onUp p s)) = x (rightTrimBar s).
Proof.
  intros Hp H. simpl.
  pose proof (session_ordered p evs d Hp H) as Ho.
  set (s := fold_left (handle p) evs d) in *. clearbody s.
  unfold barsOrdered in Ho.
  destruct s as [[xl cl sl el gl] [xr cr sr er gr] w1 h1]. simpl in Ho.
  destruct Hp as [-> | ->]; simpl.
  - unfold Clamp.stopDrag. simpl.
    destruct gl, gr; simpl; split_ifs; use_tests; simpl in *; use_tests;
      repeat split; try reflexivity; exfalso; lra.
  - repeat split.
Qed.

Lemma release_keeps_positions_witness :
  let s := fold_left (handle clampPolicy) crossingSession closeBars in
  dragged (leftTrimBar (onUp clampPolicy s)) = false
  /\ dragged (rightTrimBar (onUp clampPolicy s)) = false
  /\ x (leftTrimBar (onUp clampPolicy s)) = x (leftTrimBar s)
  /\ x (rightTrimBar (onUp clampPolicy s)) = x (rightTrimBar s).
Proof.
  apply (release_keeps_positions clampPolicy closeBars crossingSession).
  - left. reflexivity.
  - discriminate.
Defined.

Lemma startDrag_flags (d : Drawer) :
  dragged (leftTrimBar (startDrag d))
  = dragged (leftTrimBar d) || selected (leftTrimBar d)
  /\ dragged (rightTrimBar (startDrag d))
     = dragged (rightTrimBar d) || selected (rightTrimBar d).
Proof.
  destruct d as [[xl cl sl el gl] [xr cr sr er gr] w1 h1].
  unfold startDrag. destruct el, er, gl, gr; split; reflexivity.
Qed.

(** A move with no bar held is a hit test only. *)
Lemma clamp_hover (d : Drawer) (m : MousePos) :
  dragged (leftTrimBar d) = false -> dragged (rightTrimBar d) = false ->
  Clamp.moveTrimBars d m = Clamp.highLightTrimBarsWhenClose d m.
Proof.
  intros Hl Hr. unfold Clamp.moveTrimBars. cbv zeta.
  destruct (clamp_highlight_keeps d m) as (_ & _ & Hl' & Hr' & _).
  cbv zeta in Hl', Hr'. rewrite Hl', Hl. cbn [andb]. rewrite Hr', Hr.
  reflexivity.
Qed.

Lemma swap_move_flags (d : Drawer) (m : MousePos) :
  selected (leftTrimBar (Swap.moveTrimBars d m)) = nearLeft60 d m
  /\ selected (rightTrimBar (Swap.moveTrimBars d m)) = nearRight60 d m
  /\ dragged (leftTrimBar (Swap.moveTrimBars d m)) = dragged (leftTrimBar d)
  /\ dragged (rightTrimBar (Swap.moveTrimBars d m))
     = dragged (rightTrimBar d).
Proof.
  destruct d as [[xl cl sl el gl] [xr cr sr er gr] w1 h1].
  unfold Swap.moveTrimBars, Swap.highLightTrimBarsWhenClose,
    nearLeft60, nearRight60.
  cbn -[distanceBelow Qltb].
  destruct gl, gr; cbn -[distanceBelow Qltb];
    match goal with
    | |- context [if Qltb ?a ?b then _ else _] => destruct (Qltb a b)
    end; repeat split.
Qed.

Lemma swap_move_both_held (d : Drawer) (m : MousePos) :
  dragged (leftTrimBar d) = true -> dragged (rightTrimBar d) = true ->
  x (leftTrimBar (Swap.moveTrimBars d m)) = mx m
  /\ x (rightTrimBar (Swap.moveTrimBars d m)) = mx m.
Proof.
  destruct d as [[xl cl sl el gl] [xr cr sr er gr] w1 h1].
  cbn [leftTrimBar rightTrimBar dragged]. intros -> ->.
  unfold Swap.moveTrimBars, Swap.highLightTrimBarsWhenClose.
  cbn -[distanceBelow Qltb].
  replace (Qltb (mx m) (mx m)) with false
    by (symmetry; unfold Qltb; apply Z.ltb_irrefl).
  split; reflexivity.
Qed.

(** X29. Pressing after a hover, with no bar held before: the handlers of
    Assignment_Solution never take hold of both bars; those of the
    TypeScript port take hold of both when both are within 60 pixels of
    the pointer, and the next move then puts both bars at the pointer, so
    the trim window becomes empty. *)
Theorem press_takes_one_or_both (d : Drawer) (m m2 : MousePos) :
  dragged (leftTrimBar d) = false -> dragged (rightTrimBar d) = false ->
  (let d1 := startDrag (Clamp.moveTrimBars d m) in
   dragged (leftTrimBar d1) && dragged (rightTrimBar d1) = false)
  /\ (nearLeft60 d m = true -> nearRight60 d m = true ->
      let d1 := startDrag (Swap.moveTrimBars d m) in
      let d2 := Swap.moveTrimBars d1 m2 in
      dragged (leftTrimBar d1) = true /\ dragged (rightTrimBar d1) = true
      /\ x (leftTrimBar d2) = mx m2 /\ x (rightTrimBar d2) = mx m2).
Proof.
  intros Hl Hr. cbv zeta. split.
  - rewrite (clamp_hover d m Hl Hr).
    destruct (startDrag_flags (Clamp.highLightTrimBarsWhenClose d m))
      as [-> ->].
    destruct (clamp_highlight_keeps d m) as (_ & _ & Hl' & Hr' & _).
    cbv zeta in Hl', Hr'. rewrite Hl', Hr', Hl, Hr.
    apply hit_one.
  - intros Hnl Hnr.
    destruct (swap_move_flags d m) as (Hsl & Hsr & Hdl & Hdr).
    destruct (startDrag_flags (Swap.moveTrimBars d m)) as [Hgl Hgr].
    rewrite Hsl, Hnl, orb_true_r in Hgl.
    rewrite Hsr, Hnr, orb_true_r in Hgr.
    split; [exact Hgl|]. split; [exact Hgr|].
    apply swap_move_both_held; assumption.
Qed.

Lemma press_takes_one_or_both_witness :
  (let d1 := startDrag (Clamp.moveTrimBars closeBars besideRightBar) in
   dragged (leftTrimBar d1) && dragged (rightTrimBar d1) = false)
  /\ (let d1 := startDrag (Swap.moveTrimBars closeBars besideRightBar) in
      let d2 := Swap.moveTrimBars d1 (mkMousePos 300 18) in
      dragged (leftTrimBar d1) = true /\ dragged (rightTrimBar d1) = true
      /\ x (leftTrimBar d2) = mx (mkMousePos 300 18)
      /\ x (rightTrimBar d2) = mx (mkMousePos 300 18)).
Proof.
  destruct (press_takes_one_or_both closeBars besideRightBar
              (mkMousePos 300 18) eq_refl eq_refl) as [H1 H2].
  split; [exact H1 | apply H2; reflexivity].
Defined.

End TrimbarRange.

(** ** WaveformDrawer: the synchronous extractor *)

Section LegacyFacts.
Import JS Num WaveformDrawer LegacyPeaks.
Local Open Scope Q_scope.

Lemma signed_step (cp v : Q) :
  0 <= cp ->
  (if Qltb cp v then v else if Qltb cp (- v) then - v else cp)
  == Qmax cp (Qabs v).
Proof.
  intros Hcp.
  destruct (Qlt_le_dec v 0) as [Hv|Hv].
  - rewrite (Qabs_neg v) by lra.
    destruct (Qltb cp v) eqn:E1; [apply Qltb_lt in E1; lra|].
    destruct (Qltb cp (- v)) eqn:E2.
    + apply Qltb_lt in E2. symmetry. apply Q.max_r. lra.
    + apply Qltb_ge in E2. symmetry. apply Q.max_l. exact E2.
  - rewrite (Qabs_pos v) by exact Hv.
    destruct (Qltb cp v) eqn:E1.
    + apply Qltb_lt in E1. symmetry. apply Q.max_r. lra.
    + apply Qltb_ge in E1.
      destruct (Qltb cp (- v)) eqn:E2; [apply Qltb_lt in E2; lra|].
      symmetry. apply Q.max_l. exact E1.
Qed.

Lemma scanSigned_spec (chan : list Q) (end_ step : Z) :
  (0 < step)%Z ->
  forall (fuel : nat) (j : Z) (cp : Q),
    0 <= cp -> (Z.to_nat (end_ - j) < fuel)%nat ->
    exists r,
      scanSigned fuel chan j end_ step (Fin cp) = Some (Fin r)
      /\ r == Qmax cp (maxAbs (samplesAt chan
                (stridePositions (strideCount (end_ - j) step) j step))).
Proof.
  intros Hs. induction fuel as [|fuel IH]; intros j cp Hcp Hf; [lia|].
  simpl. destruct (j <? end_)%Z eqn:Ej.
  - apply Z.ltb_lt in Ej.
    rewrite strideCount_step by lia. simpl.
    replace (end_ - j - step)%Z with (end_ - (j + step))%Z by lia.
    rewrite readSample_cases.
    destruct (if (j <? 0)%Z then None else chan !! Z.to_nat j) as [v|];
      simpl.
    + pose proof (signed_step cp v Hcp) as Est.
      set (c' := if Qltb cp v then v else if Qltb cp (- v) then - v else cp)
        in *.
      replace (if Qltb cp v then Fin v
               else if Qltb cp (- v) then Fin (- v) else Fin cp)
        with (Fin c')
        by (unfold c'; destruct (Qltb cp v); [reflexivity|];
            now destruct (Qltb cp (- v))).
      destruct (IH (j + step)%Z c') as (r & Hr & Er).
      * rewrite Est. eapply Qle_trans; [exact Hcp | apply Q.le_max_l].
      * lia.
      * exists r. split; [exact Hr|].
        rewrite Er, Est. symmetry. apply Q.max_assoc.
    + destruct (IH (j + step)%Z cp Hcp) as (r & Hr & Er); [lia|].
      exists r. split; [exact Hr | exact Er].
  - apply Z.ltb_ge in Ej. exists cp. split; [reflexivity|].
    rewrite strideCount_done by lia. simpl.
    symmetry. now apply Q.max_l.
Qed.

Lemma Qsum_snoc (l : list Q) (v : Q) : Qsum (l ++ [v]) == Qsum l + v.
Proof.
  induction l as [|a l IH]; unfold Qsum in *; simpl; [ring|].
  rewrite IH. ring.
Qed.

Variables width sampleSize step channels : Z.
Variable fuel : nat.

Hypothesis width_pos : (0 < width)%Z.
Hypothesis starts_fit :
  forall k, (0 <= k < width)%Z ->
    toInt32 (k * sampleSize) = (k * sampleSize)%Z.
Hypothesis step_pos : (0 < step)%Z.
Hypothesis channels_pos : (0 < channels)%Z.
Hypothesis enough_fuel : (Z.to_nat sampleSize < fuel)%nat.

Local Abbreviation sharesOf := (sharesSoFar channels sampleSize step).

Lemma columnLoop_spec (done : list (list Q)) (chan : list Q) (n : nat) :
  forall (i : Z) (pk : list jsnum),
    (0 <= i)%Z -> (i + Z.of_nat n <= width)%Z ->
    length pk = Z.to_nat width ->
    (forall k, (0 <= k < i)%Z -> sharesOf (done ++ [chan]) pk k) ->
    (forall k, (i <= k < width)%Z -> sharesOf done pk k) ->
    exists pk',
      columnLoop fuel chan channels (Z.of_nat (length done))
                 sampleSize step n i pk = Some pk'
      /\ length pk' = Z.to_nat width
      /\ (forall k, (0 <= k < i + Z.of_nat n)%Z ->
            sharesOf (done ++ [chan]) pk' k)
      /\ (forall k, (i + Z.of_nat n <= k < width)%Z -> sharesOf done pk' k).
Proof.
  assert (Hnz : ~ inject_Z channels == 0).
  { unfold Qeq. simpl. lia. }
  induction n as [|n IH]; intros i pk Hi Hn Hlen Hnew Hold.
  - exists pk. simpl. repeat split; [exact Hlen | |].
    + intros k Hk. apply Hnew. lia.
    + intros k Hk. apply Hold. lia.
  - cbn [columnLoop]. rewrite starts_fit by lia.
    destruct (scanSigned_spec chan (i * sampleSize + sampleSize) step step_pos
                fuel (i * sampleSize)%Z 0) as (r0 & Hr0 & Er0).
    + apply Qle_refl.
    + replace (i * sampleSize + sampleSize - i * sampleSize)%Z
        with sampleSize by lia. exact enough_fuel.
    + rewrite Hr0.
      replace (i * sampleSize + sampleSize - i * sampleSize)%Z
        with sampleSize in Er0 by lia.
      rewrite Q.max_r in Er0 by apply maxAbs_nonneg.
      replace (jdiv (Fin r0) (Fin (inject_Z channels)))
        with (Fin (r0 / inject_Z channels)).
      2:{ unfold jdiv, Qzero. simpl.
          now replace (channels =? 0)%Z with false by lia. }
      destruct (Hold i) as (q & Hq & Eq); [lia|].
      assert (Hentry :
        exists e,
          (if (0 <? Z.of_nat (length done))%Z
           then jadd (peakAt pk (Z.to_nat i)) (Fin (r0 / inject_Z channels))
           else Fin (r0 / inject_Z channels)) = Fin e
          /\ e == Qsum (map (fun chan => blockPeak chan i sampleSize step)
                            (done ++ [chan])) / inject_Z channels).
      { assert (Hsum :
          Qsum (map (fun chan => blockPeak chan i sampleSize step)
                    (done ++ [chan]))
          == Qsum (map (fun chan => blockPeak chan i sampleSize step) done)
             + blockPeak chan i sampleSize step).
        { rewrite map_app. simpl. apply Qsum_snoc. }
        destruct (0 <? Z.of_nat (length done))%Z eqn:Ec.
        - unfold peakAt. rewrite Hq. simpl. eexists. split; [reflexivity|].
          rewrite Hsum, Eq, Er0. unfold blockPeak. field. exact Hnz.
        - eexists. split; [reflexivity|].
          apply Z.ltb_ge in Ec.
          destruct done as [|d0 done']; [|cbn [length] in Ec; lia].
          rewrite Hsum, Er0. unfold blockPeak, Qsum. simpl. field.
          exact Hnz. }
      destruct Hentry as (e & -> & Ee).
      destruct (IH (i + 1)%Z (<[Z.to_nat i := Fin e]> pk))
        as (pk' & Hp & Hl & Hk1 & Hk2).
      * lia.
      * lia.
      * now rewrite length_insert.
      * intros k Hk. destruct (Z.eq_dec k i) as [->|Hne].
        -- exists e. split; [|exact Ee].
           apply list_lookup_insert_eq. lia.
        -- destruct (Hnew k) as (q' & Hq' & Eq'); [lia|].
           exists q'. split; [|exact Eq'].
           rewrite list_lookup_insert_ne by lia. exact Hq'.
      * intros k Hk. destruct (Hold k) as (q' & Hq' & Eq'); [lia|].
        exists q'. split; [|exact Eq'].
        rewrite list_lookup_insert_ne by lia. exact Hq'.
      * exists pk'. repeat split; [exact Hp | exact Hl | |].
        -- intros k Hk. apply Hk1. lia.
        -- intros k Hk. apply Hk2. lia.
Qed.

Lemma channelsLoop_spec (rest : list (list Q)) :
  forall (done : list (list Q)) (pk : list jsnum),
    length pk = Z.to_nat width ->
    (forall k, (0 <= k < width)%Z -> sharesOf done pk k) ->
    exists pk',
      channelsLoop fuel rest channels (Z.of_nat (length done))
                   width sampleSize step pk = Some pk'
      /\ length pk' = Z.to_nat width
      /\ forall k, (0 <= k < width)%Z -> sharesOf (done ++ rest) pk' k.
Proof.
  induction rest as [|chan rest IH]; intros done pk Hlen Hdone.
  - exists pk. simpl. rewrite app_nil_r. auto.
  - cbn [channelsLoop].
    destruct (columnLoop_spec done chan (Z.to_nat width) 0 pk)
      as (pk1 & Hp & Hl & Hnew & _); try lia; try assumption.
    rewrite Hp.
    destruct (IH (done ++ [chan]) pk1 Hl) as (pk2 & Hp2 & Hl2 & Hall).
    + intros k Hk. apply Hnew. lia.
    + exists pk2. rewrite length_app in Hp2. simpl in Hp2.
      replace (Z.of_nat (length done) + 1)%Z
        with (Z.of_nat (length done + 1)) by lia.
      rewrite <- app_assoc in Hall. simpl in Hall. auto.
Qed.

End LegacyFacts.

Section LegacyResults.
Import JS Num WaveformDrawer LegacyPeaks.
Local Open Scope Q_scope.

Lemma getPeaks_mean_of_peaks (buf : AudioBuffer) (width : Z)
    (step : option Z) (fuel : nat) :
  (0 < width)%Z -> (0 <= length_ buf)%Z ->
  (length_ buf + width <= 2147483648)%Z ->
  (0 < sampleStepOf step (sampleSizeOf buf width))%Z ->
  (Z.to_nat (length_ buf + width) < fuel)%nat ->
  exists pk,
    getPeaks fuel buf width step = Some pk
    /\ length pk = Z.to_nat width
    /\ forall i, (0 <= i < width)%Z ->
         entryOk buf width (sampleStepOf step (sampleSizeOf buf width)) pk i.
Proof.
  intros Hw Hl Hfit Hstep Hfuel. unfold getPeaks.
  rewrite (sampleSizeOf_ceil buf width Hw) in *.
  set (blockLen := ((length_ buf + width - 1) / width)%Z) in *.
  set (st := sampleStepOf step blockLen) in *.
  destruct (blockLen_bounds buf width fuel Hw Hl Hfit Hfuel)
    as (Hb0 & Hbm & Hbl).
  fold blockLen in Hb0, Hbm, Hbl.
  destruct (channelData buf) as [|chan rest] eqn:Ec.
  - exists (replicate (Z.to_nat width) (Fin 0)).
    unfold numberOfChannels. rewrite Ec. simpl.
    split; [reflexivity|]. split; [apply length_replicate|].
    intros i Hi. exists 0. split.
    + apply lookup_replicate_2. lia.
    + unfold envelopeEntry, mean. rewrite Ec. reflexivity.
  - rewrite <- Ec.
    destruct (channelsLoop_spec width blockLen st (numberOfChannels buf) fuel)
      with (rest := channelData buf) (done := @nil (list Q))
           (pk := replicate (Z.to_nat width) (Fin 0))
      as (pk & Hp & Hlen & Hall).
    + exact Hw.
    + intros k Hk. apply toInt32_small. nia.
    + exact Hstep.
    + unfold numberOfChannels. rewrite Ec. simpl. lia.
    + lia.
    + apply length_replicate.
    + intros k Hk. exists 0. split.
      * apply lookup_replicate_2. lia.
      * unfold Qsum. simpl. reflexivity.
    + exists pk. split; [exact Hp|]. split; [exact Hlen|].
      intros i Hi. destruct (Hall i Hi) as (q & Hq & Eq).
      exists q. split; [exact Hq|]. rewrite Eq.
      unfold envelopeEntry, mean. fold blockLen. rewrite length_map.
      reflexivity.
Qed.

(** X30. For a mono buffer the synchronous [getPeaks] kept in
    Assignment_Solution and [_getPeaksChunked] give the same envelope:
    under the conditions in which the chunked extractor calls back, both
    finish with one entry per pixel column, and entry [i] of each is the
    largest absolute value among the samples of block [i] that the stride
    visits. *)
Theorem getPeaks_mono_agrees_with_chunked (buf : AudioBuffer) (width : Z)
    (step : option Z) (fuel : nat) (chan : list Q) :
  channelData buf = [chan] ->
  (0 < width)%Z -> (0 <= length_ buf)%Z ->
  (length_ buf + width <= 2147483648)%Z ->
  (0 < sampleStepOf step (sampleSizeOf buf width))%Z ->
  (Z.to_nat (length_ buf + width) < fuel)%nat ->
  exists pk pk',
    _getPeaksChunked fuel buf width step = Some pk
    /\ getPeaks fuel buf width step = Some pk'
    /\ length pk = Z.to_nat width
    /\ length pk' = Z.to_nat width
    /\ forall i, (0 <= i < width)%Z ->
         exists q q',
           pk !! Z.to_nat i = Some (Fin q)
           /\ pk' !! Z.to_nat i = Some (Fin q')
           /\ q == blockPeak chan i ((length_ buf + width - 1) / width)
                    (sampleStepOf step (sampleSizeOf buf width))
           /\ q' == blockPeak chan i ((length_ buf + width - 1) / width)
                     (sampleStepOf step (sampleSizeOf buf width)).
Proof.
  intros Hc Hw Hl Hfit Hstep Hfuel.
  destruct (getPeaksChunked_mean_of_peaks buf width step fuel
              Hw Hl Hfit Hstep Hfuel) as (pk & Hp & Hlen & Hok).
  destruct (getPeaks_mean_of_peaks buf width step fuel
              Hw Hl Hfit Hstep Hfuel) as (pk' & Hp' & Hlen' & Hok').
  exists pk, pk'. split; [exact Hp|]. split; [exact Hp'|].
  split; [exact Hlen|]. split; [exact Hlen'|]. intros i Hi.
  destruct (Hok i Hi) as (q & Hq & Eq).
  destruct (Hok' i Hi) as (q' & Hq' & Eq').
  assert (Em : forall st,
            envelopeEntry buf width st i
            == blockPeak chan i ((length_ buf + width - 1) / width) st).
  { intros st. unfold envelopeEntry, mean. rewrite Hc. unfold Qsum. simpl.
    field. }
  exists q, q'. split; [exact Hq|]. split; [exact Hq'|].
  rewrite Eq, Eq', Em. split; reflexivity.
Qed.

Lemma getPeaks_mono_agrees_with_chunked_witness :
  exists pk pk',
    _getPeaksChunked 4 oneSample 1 (Some 1%Z) = Some pk
    /\ getPeaks 4 oneSample 1 (Some 1%Z) = Some pk'
    /\ length pk = Z.to_nat 1
    /\ length pk' = Z.to_nat 1
    /\ forall i, (0 <= i < 1)%Z ->
         exists q q',
           pk !! Z.to_nat i = Some (Fin q)
           /\ pk' !! Z.to_nat i = Some (Fin q')
           /\ q == blockPeak [0.5] i ((length_ oneSample + 1 - 1) / 1)
                    (sampleStepOf (Some 1%Z) (sampleSizeOf oneSample 1))
           /\ q' == blockPeak [0.5] i ((length_ oneSample + 1 - 1) / 1)
                     (sampleStepOf (Some 1%Z) (sampleSizeOf oneSample 1)).
Proof.
  apply (getPeaks_mono_agrees_with_chunked oneSample 1 (Some 1%Z) 4 [0.5]).
  - reflexivity.
  - reflexivity.
  - discriminate.
  - discriminate.
  - reflexivity.
  - simpl. lia.
Defined.

End LegacyResults.
